(** * MW-NFD: strategy registry, strategy actions, CS policy limit and the
      internal transport, embedded from the C++ sources.

    Sources embedded here:
    - daemon/fw/strategy.{hpp,cpp}        (registry, instance names, actions)
    - daemon/table/cs-policy.cpp          (Policy::setLimit)
    - daemon/face/internal-transport.cpp  (internal transport pair) *)

From stdpp Require Import gmap list strings.
From Stdlib Require Import ZArith NArith Sorted Lia.

Local Open Scope nat_scope.

(* ===================================================================== *)
(** * Part I: definitions                                                 *)
(* ===================================================================== *)

(** ** Names *)

(** Modelled from the spec: the ndn-cxx [name::Component] type is not among
    the sources embedded here.  The spec describes a name as an ordered sequence of
    opaque byte components with prefix and successor operations, and a version
    component as a distinguished encoding.  The interface below lists exactly
    the component operations that strategy.cpp calls, together with the laws
    of the canonical order they rely on. *)
Class NameComponent (C : Type) := {
  (** [Component::compare], the canonical order *)
  comp_compare : C → C → comparison;
  (** [Component::isVersion] *)
  isVersion : C → bool;
  (** [Component::toVersion], a [uint64_t]; called on version components only *)
  toVersion : C → N;
  (** [Component::getSuccessor] *)
  comp_successor : C → C;
  comp_compare_eq : ∀ a b, comp_compare a b = Eq ↔ a = b;
  comp_compare_antisym : ∀ a b, comp_compare b a = CompOpp (comp_compare a b);
  comp_compare_trans : ∀ a b c,
    comp_compare a b = Lt → comp_compare b c = Lt → comp_compare a c = Lt;
  (** the successor is the next component in canonical order *)
  comp_successor_next : ∀ c d,
    comp_compare d (comp_successor c) = Lt ↔ comp_compare d c ≠ Gt;
  (** among version components the canonical order is the order of versions *)
  comp_version_order : ∀ a b, isVersion a = true → isVersion b = true →
    comp_compare a b = N.compare (toVersion a) (toVersion b)
}.

Section Names.
Context {C : Type} `{NC : NameComponent C}.

(** [ndn::Name]: the sequence of its components. *)
Definition Name := list C.

(** [Name::compare]: component-wise, a proper prefix sorts first. *)
Fixpoint name_compare (a b : Name) : comparison :=
  match a, b with
  | [], [] => Eq
  | [], _ :: _ => Lt
  | _ :: _, [] => Gt
  | x :: a', y :: b' =>
      match comp_compare x y with
      | Eq => name_compare a' b'
      | r => r
      end
  end.

(** [operator<] and [operator<=] on names, as [std::map] uses them. *)
Definition name_ltb (a b : Name) : bool :=
  match name_compare a b with Lt => true | _ => false end.
Definition name_lt (a b : Name) : Prop := name_compare a b = Lt.
Definition name_le (a b : Name) : Prop := name_compare a b ≠ Gt.

Definition comp_eqb (x y : C) : bool :=
  match comp_compare x y with Eq => true | _ => false end.

(** [a.isPrefixOf(b)] *)
Fixpoint isPrefixOf (a b : Name) : bool :=
  match a, b with
  | [], _ => true
  | _ :: _, [] => false
  | x :: a', y :: b' => comp_eqb x y && isPrefixOf a' b'
  end.

(** [getPrefix(n)] for [n >= 0] and [getSubName(i)]. *)
Definition getPrefix (n : nat) (a : Name) : Name := take n a.
Definition getSubName (i : nat) (a : Name) : Name := drop i a.
(** [getPrefix(-1)]: all components but the last. *)
Definition getPrefixMinus1 (a : Name) : Name := take (length a - 1) a.
(** [at(-1)]: the last component; [Name::at] raises on an empty name. *)
Definition atMinus1 (a : Name) : option C := last a.

(** [Name::getSuccessor] on a non-empty name: the last component is replaced
    by its successor.  The empty name is left as it is; strategy.cpp never
    asks for its successor ("Name().getSuccessor() would be invalid"). *)
Fixpoint getSuccessor (a : Name) : Name :=
  match a with
  | [] => []
  | [c] => [comp_successor c]
  | c :: r => c :: getSuccessor r
  end.

(** [std::any_of(input.rbegin(), input.rend(), isVersion)] *)
Definition hasVersion (input : Name) : bool := existsb isVersion (rev input).

(** ** Instance names (strategy.cpp, lines 125-144) *)

Record ParsedInstanceName := mkParsed {
  strategyName : Name;      (* strategy name without parameters *)
  version : option N;       (* whether strategyName contains a version *)
  parameters : Name         (* parameter components *)
}.

(** The loop [for (ssize_t i = input.size() - 1; i > 0; --i)], by recursion
    on [i].  [input[i]] is always in range here, so the [None] branch of the
    lookup is never taken. *)
Fixpoint parseInstanceName_from (input : Name) (i : nat) : ParsedInstanceName :=
  match i with
  | 0 => mkParsed input None []
  | S i' =>
      match input !! i with
      | Some c =>
          if isVersion c
          then mkParsed (getPrefix (i + 1) input) (Some (toVersion c))
                        (getSubName (i + 1) input)
          else parseInstanceName_from input i'
      | None => parseInstanceName_from input i'
      end
  end.

(** The loop starts at [input.size() - 1]; for the empty name this is [-1]
    as an [ssize_t] and the loop body does not run, as for [0]. *)
Definition parseInstanceName (input : Name) : ParsedInstanceName :=
  parseInstanceName_from input (length input - 1).

(** [Strategy::makeInstanceName].  [None] stands for the failure of
    [BOOST_ASSERT(strategyName.at(-1).isVersion())]: [at(-1)] raises on an
    empty strategy name, and the assertion fails on a last component that
    is no version. *)
Definition makeInstanceName (input strategyName : Name) : option Name :=
  match atMinus1 strategyName with
  | None => None
  | Some v =>
      if isVersion v
      then Some (if hasVersion input then input else input ++ [v])
      else None
  end.

End Names.

Arguments Name C : clear implicits.
Arguments ParsedInstanceName C : clear implicits.

(** ** The strategy registry (strategy.hpp, lines 43-87 and 409-417;
       strategy.cpp, lines 43-108) *)

Section Registry.
Context {C : Type} `{NC : NameComponent C}.
(** [Forwarder] is only handed through to the strategy constructors. *)
Context {Forwarder : Type}.

(** What [create] can see of a constructed strategy: [getInstanceName()]. *)
Record Strategy := mkStrategy { m_name : Name C }.

(** A strategy constructor either returns an instance ([make_unique<S>]) or
    raises [std::invalid_argument] for a version or parameters it does not
    accept. *)
Inductive Constructed :=
| ctor_throws
| ctor_instance (s : Strategy).

(** [CreateFunc] and [Registry = std::map<Name, CreateFunc>].  The map is
    kept as the sequence of its entries in key order; an iterator is a
    position in it, [begin()] is [0] and [end()] is the length. *)
Definition CreateFunc := Forwarder → Name C → Constructed.
Definition Registry := list (Name C * CreateFunc).

Definition registry_keys (registry : Registry) : list (Name C) := registry.*1.
Definition registry_end (registry : Registry) : nat := length registry.

(** The representation invariant of [std::map]: keys strictly ascending. *)
Definition registry_sorted (registry : Registry) : Prop :=
  StronglySorted name_lt (registry_keys registry).

(** [found->first] *)
Definition key_at (registry : Registry) (found : nat) : Name C :=
  match registry !! found with
  | Some (k, _) => k
  | None => []
  end.

(** [registry.lower_bound(k)]: the first position whose key is not less
    than [k]. *)
Fixpoint lower_bound (registry : Registry) (k : Name C) : nat :=
  match registry with
  | [] => 0
  | (k', _) :: rest =>
      if name_ltb k' k then S (lower_bound rest k) else 0
  end.

(** [registry[strategyName] = f] after the three assertions of
    [registerType]; [None] when one of them fails. *)
Fixpoint registry_insert (k : Name C) (f : CreateFunc) (registry : Registry)
  : Registry :=
  match registry with
  | [] => [(k, f)]
  | (k', f') :: rest =>
      match name_compare k k' with
      | Lt => (k, f) :: (k', f') :: rest
      | Eq => (k, f) :: rest
      | Gt => (k', f') :: registry_insert k f rest
      end
  end.

Definition registerType (strategyName : Name C) (f : CreateFunc)
    (registry : Registry) : option Registry :=
  if negb (1 <? length strategyName) then None
  else match atMinus1 strategyName with
       | None => None
       | Some v =>
           if negb (isVersion v) then None
           else if existsb (λ e, match name_compare e.1 strategyName with
                                 | Eq => true | _ => false end) registry
                then None
                else Some (registry_insert strategyName f registry)
       end.

(** [Strategy::find] *)
Definition find (registry : Registry) (instanceName : Name C) : nat :=
  let parsed := parseInstanceName instanceName in
  match version parsed with
  | Some _ =>
      (* specified version: find exact or next higher version *)
      let found := lower_bound registry (strategyName parsed) in
      if negb (found =? registry_end registry)
         && isPrefixOf (getPrefixMinus1 (strategyName parsed))
                       (key_at registry found)
      then found
      else registry_end registry
  | None =>
      (* no version specified: find highest version *)
      match strategyName parsed with
      | [] => registry_end registry
      | _ :: _ =>
          let found := lower_bound registry
                         (getSuccessor (strategyName parsed)) in
          match found with
          | 0 => registry_end registry
          | S found' =>
              if isPrefixOf (strategyName parsed) (key_at registry found')
              then found'
              else registry_end registry
          end
      end
  end.

(** The key that the iterator returned by [find] points to, when it is not
    [end()]. *)
Definition found_name (registry : Registry) (instanceName : Name C)
  : option (Name C) :=
  let found := find registry instanceName in
  if found =? registry_end registry then None
  else Some (key_at registry found).

(** [Strategy::canCreate] *)
Definition canCreate (registry : Registry) (instanceName : Name C) : bool :=
  negb (find registry instanceName =? registry_end registry).

(** The ways a call of [Strategy::create] can end. *)
Inductive CreateResult :=
| create_nullptr                       (* return nullptr *)
| create_throws                        (* the constructor raised *)
| create_assert_fails                  (* BOOST_ASSERT(!name.empty()) *)
| create_instance (s : Strategy).      (* return instance *)

(** [Strategy::create] *)
Definition create (registry : Registry) (instanceName : Name C)
    (forwarder : Forwarder) : CreateResult :=
  let found := find registry instanceName in
  if found =? registry_end registry then create_nullptr
  else match registry !! found with
       | None => create_nullptr  (* not reached: found is a valid position *)
       | Some (_, ctor) =>
           match ctor forwarder instanceName with
           | ctor_throws => create_throws
           | ctor_instance instance =>
               match m_name instance with
               | [] => create_assert_fails
               | _ :: _ => create_instance instance
               end
           end
       end.

End Registry.

Arguments Registry C {Forwarder}.
Arguments CreateFunc C {Forwarder}.
Arguments Strategy C : clear implicits.
Arguments Constructed C : clear implicits.
Arguments CreateResult C : clear implicits.


(** ** The resolution rule in the words of the specification *)

Section SpecifiedResolution.
Context {C : Type} `{NC : NameComponent C}.

(** "the highest registered version ≤ the requested one": [k] is a
    registered name [base/v'] with [v' ≤ v], and no registered version of
    [base] that is at most [v] is higher. *)
Definition highest_version_at_most (keys : list (Name C)) (base : Name C)
    (v : N) (k : Name C) : Prop :=
  ∃ c, k = base ++ [c] ∧ isVersion c = true ∧ (toVersion c ≤ v)%N
       ∧ k ∈ keys
       ∧ ∀ c', base ++ [c'] ∈ keys → isVersion c' = true →
               (toVersion c' ≤ v)%N → (toVersion c' ≤ toVersion c)%N.

End SpecifiedResolution.

(** ** A concrete component type *)

(** Modelled from the spec: a component type to run the definitions on.  A
    generic component stands for an opaque byte string and is represented by
    the rank of that string in the canonical order (shorter strings first,
    strings of one length bytewise), so that the order is the order of ranks
    and the successor is the next rank.  A version component carries its
    version number; it has the higher TLV type and sorts after every generic
    component. *)
Inductive TlvComponent :=
| GenericNameComponent (rank : N)
| VersionNameComponent (number : N).

Definition tlv_compare (a b : TlvComponent) : comparison :=
  match a, b with
  | GenericNameComponent x, GenericNameComponent y => (x ?= y)%N
  | GenericNameComponent _, VersionNameComponent _ => Lt
  | VersionNameComponent _, GenericNameComponent _ => Gt
  | VersionNameComponent x, VersionNameComponent y => (x ?= y)%N
  end.

Definition tlv_isVersion (a : TlvComponent) : bool :=
  match a with
  | GenericNameComponent _ => false
  | VersionNameComponent _ => true
  end.

Definition tlv_toVersion (a : TlvComponent) : N :=
  match a with
  | GenericNameComponent _ => 0%N
  | VersionNameComponent v => v
  end.

Definition tlv_successor (a : TlvComponent) : TlvComponent :=
  match a with
  | GenericNameComponent x => GenericNameComponent (x + 1)
  | VersionNameComponent v => VersionNameComponent (v + 1)
  end.


Lemma tlv_compare_eq (a b : TlvComponent) : tlv_compare a b = Eq ↔ a = b.
Proof.
  destruct a as [x|x], b as [y|y]; simpl; try (split; congruence);
    rewrite N.compare_eq_iff; split; congruence.
Qed.

Lemma tlv_compare_antisym (a b : TlvComponent) :
  tlv_compare b a = CompOpp (tlv_compare a b).
Proof. destruct a, b; simpl; try done; apply N.compare_antisym. Qed.

Lemma tlv_compare_trans (a b c : TlvComponent) :
  tlv_compare a b = Lt → tlv_compare b c = Lt → tlv_compare a c = Lt.
Proof.
  destruct a, b, c; simpl; try done; rewrite !N.compare_lt_iff; lia.
Qed.

Lemma tlv_successor_next (c d : TlvComponent) :
  tlv_compare d (tlv_successor c) = Lt ↔ tlv_compare d c ≠ Gt.
Proof.
  destruct c as [x|x], d as [y|y]; simpl; try (split; congruence).
  - rewrite N.compare_lt_iff. change ((y ?= x)%N ≠ Gt) with (y ≤ x)%N. lia.
  - rewrite N.compare_lt_iff. change ((y ?= x)%N ≠ Gt) with (y ≤ x)%N. lia.
Qed.

Lemma tlv_version_order (a b : TlvComponent) :
  tlv_isVersion a = true → tlv_isVersion b = true →
  tlv_compare a b = (tlv_toVersion a ?= tlv_toVersion b)%N.
Proof. by destruct a, b. Qed.

#[export] Instance tlv_component : NameComponent TlvComponent := {|
  comp_compare := tlv_compare;
  isVersion := tlv_isVersion;
  toVersion := tlv_toVersion;
  comp_successor := tlv_successor;
  comp_compare_eq := tlv_compare_eq;
  comp_compare_antisym := tlv_compare_antisym;
  comp_compare_trans := tlv_compare_trans;
  comp_successor_next := tlv_successor_next;
  comp_version_order := tlv_version_order
|}.

(** ** Sample data: a strategy registered in versions 1 and 3 *)

Module Sample.

Abbreviation G := GenericNameComponent.
Abbreviation V := VersionNameComponent.

(** A strategy constructor of the usual shape: the instance name is made
    from the requested name and the strategy's own name. *)
Definition ctor (strategyName : Name TlvComponent)
  : CreateFunc TlvComponent (Forwarder := unit) :=
  λ _ name, match makeInstanceName name strategyName with
            | Some n => ctor_instance (mkStrategy n)
            | None => ctor_throws
            end.

Definition s_v1 : Name TlvComponent := [G 1; V 1].
Definition s_v3 : Name TlvComponent := [G 1; V 3].

(** [registerType] of [/s/v=3], then of [/s/v=1]. *)
Definition registry : Registry TlvComponent (Forwarder := unit) :=
  default [] (registerType s_v3 (ctor s_v3) [] ≫= registerType s_v1 (ctor s_v1)).

End Sample.


(** ** Faces, packets, PIT entries and the FIB *)

(** The build switches that strategy.cpp and cs-policy.cpp test with
    [#if defined(...)]; their definitions are not part of the sources at
    hand, so they are inputs here. *)
Record BuildConfig := mkBuildConfig {
  ETRI_NFD_ORG_ARCH : bool;
  ETRI_DUAL_CS : bool;
  ETRI_PITTOKEN_HASH : bool
}.

Inductive LinkType :=
| LINK_TYPE_POINT_TO_POINT
| LINK_TYPE_MULTI_ACCESS
| LINK_TYPE_AD_HOC.

#[export] Instance LinkType_eq_dec : EqDecision LinkType.
Proof. solve_decision. Defined.

Definition FaceId := N.

(** Modelled from the spec: a face is an endpoint with a stable integer
    [FaceId], a link type and an up/down state; these are the attributes read
    below.  A [Face&] or [Face*] is identified with the id of the face. *)
Record Face := mkFace {
  face_getId : FaceId;
  face_getLinkType : LinkType;
  face_isUp : bool
}.

(** Modelled from the spec: the PitToken body has the fixed layout
    [{workerId:4, flagBits:1, nameHash:8}]; [ST_PIT_TOKEN] is declared in
    mw-nfd-global.hpp, which is not among the sources embedded here.  The buffer
    it is written to is zero-initialised. *)
Record ST_PIT_TOKEN := mkToken {
  workerId : Z;
  CanBePrefix : bool;
  hashValue : N
}.

Definition zeroed_token : ST_PIT_TOKEN := mkToken 0 false 0.

(** [lp::PitToken]: an opaque byte string; it is represented by the token
    value whose bytes it holds, the byte layout is not modelled. *)
Definition PitToken := ST_PIT_TOKEN.

Section Tables.
Context {C : Type} `{NC : NameComponent C}.

Record Delegation := mkDelegation {
  del_preference : N;
  del_name : Name C
}.

(** The parts of an Interest and of a Data that the strategy actions read
    or write.  The PitToken tag is mutable on a [const] packet. *)
Record Interest := mkInterest {
  i_name : Name C;
  i_canBePrefix : bool;
  i_forwardingHint : list Delegation;
  i_pitToken : option PitToken
}.

Record Data := mkData {
  d_name : Name C;
  d_pitToken : option PitToken
}.

Definition interest_setTag (t : option PitToken) (i : Interest) : Interest :=
  mkInterest (i_name i) (i_canBePrefix i) (i_forwardingHint i) t.

Definition data_setTag (t : option PitToken) (d : Data) : Data :=
  mkData (d_name d) t.

(** Modelled from the spec: an in-record is per face and holds a copy of
    the Interest and an expiry; a PIT entry has its Interest, the worker id
    stamped at creation, the hash of its name-tree node and its in-records
    (pit-entry.{hpp,cpp} are not among the sources embedded here). *)
Record InRecord := mkInRecord {
  in_face : Face;
  in_interest : Interest;
  in_expiry : Z
}.

Record PitEntry := mkPitEntry {
  pit_interest : Interest;
  m_workerId : Z;
  pit_nodeHash : N;
  pit_inRecords : list InRecord
}.

Definition same_face (f : Face) (r : InRecord) : bool :=
  (face_getId (in_face r) =? face_getId f)%N.

(** Modelled from the spec: [getInRecord(face)] is the in-record of that
    face, if there is one. *)
Definition getInRecord (pitEntry : PitEntry) (face : Face) : option InRecord :=
  List.find (same_face face) (pit_inRecords pitEntry).

(** Modelled from the spec: [deleteInRecord(face)] removes the in-record of
    that face (the first one found), if there is one. *)
Fixpoint erase_first (face : Face) (rs : list InRecord) : list InRecord :=
  match rs with
  | [] => []
  | r :: rs' => if same_face face r then rs' else r :: erase_first face rs'
  end.

Definition deleteInRecord (face : Face) (pitEntry : PitEntry) : PitEntry :=
  mkPitEntry (pit_interest pitEntry) (m_workerId pitEntry)
             (pit_nodeHash pitEntry)
             (erase_first face (pit_inRecords pitEntry)).

(** Invariant (I1) of the spec: at most one in-record per face. *)
Definition pit_one_inRecord_per_face (pitEntry : PitEntry) : Prop :=
  NoDup (map (λ r, face_getId (in_face r)) (pit_inRecords pitEntry)).

(** *** FIB *)

Record NextHop := mkNextHop {
  nh_face : FaceId;
  nh_cost : N
}.

Record FibEntry := mkFibEntry {
  fib_getPrefix : Name C;
  fib_getNextHops : list NextHop
}.

Definition hasNextHops (e : FibEntry) : bool :=
  match fib_getNextHops e with [] => false | _ :: _ => true end.

(** The entries held by the FIB. *)
Definition Fib := list FibEntry.

(** The entry returned when nothing matches: prefix [/], no next hop. *)
Definition s_emptyEntry : FibEntry := mkFibEntry [] [].

Definition name_eqb (a b : Name C) : bool :=
  match name_compare a b with Eq => true | _ => false end.

Definition fib_findExactMatch (fib : Fib) (prefix : Name C) : option FibEntry :=
  List.find (λ e, name_eqb (fib_getPrefix e) prefix) fib.

(** Modelled from the spec: "[findLongestPrefixMatch(name)] walks from the
    full-length name upward, returning the first node whose FIB slot is
    populated; if none, returns the root's default entry" (fib.cpp and the
    name tree are not among the sources embedded here).  [n] is the length of
    the prefix of [name] that is looked at. *)
Fixpoint fib_walkUp (fib : Fib) (name : Name C) (n : nat) : FibEntry :=
  match fib_findExactMatch fib (getPrefix n name) with
  | Some e => e
  | None =>
      match n with
      | 0 => s_emptyEntry
      | S n' => fib_walkUp fib name n'
      end
  end.

Definition findLongestPrefixMatch (fib : Fib) (name : Name C) : FibEntry :=
  fib_walkUp fib name (length name).

(** The FIB invariant that [lookupFib] asserts: "only ndn:/ FIB entry can
    have zero nexthop". *)
Definition fib_wf (fib : Fib) : Prop :=
  ∀ e, e ∈ fib → fib_getPrefix e ≠ [] → hasNextHops e = true.

(** ** [Strategy::lookupFib] (strategy.cpp, lines 320-358) *)

Inductive LookupFibResult :=
| lookup_entry (e : FibEntry)     (* return *fibEntry *)
| lookup_assert_fails.            (* a BOOST_ASSERT does not hold *)

(** The loop [for (const Delegation& del : fh)] with the statements after
    it; [fibEntry] is the local pointer, [None] for [nullptr]. *)
Fixpoint lookupFib_delegations (fib : Fib) (fh : list Delegation)
    (fibEntry : option FibEntry) : LookupFibResult :=
  match fh with
  | [] =>
      match fibEntry with
      | Some e =>
          if (length (fib_getPrefix e) =? 0) then lookup_entry e
          else lookup_assert_fails
      | None => lookup_assert_fails
      end
  | del :: rest =>
      let e := findLongestPrefixMatch fib (del_name del) in
      if hasNextHops e then lookup_entry e
      else if (length (fib_getPrefix e) =? 0)
           then lookupFib_delegations fib rest (Some e)
           else lookup_assert_fails
  end.

(** [isInProducerRegion] is the answer of the network region table for the
    forwarding hint of the Interest. *)
Definition lookupFib (fib : Fib) (isInProducerRegion : bool)
    (pitEntry : PitEntry) : LookupFibResult :=
  let interest := pit_interest pitEntry in
  match i_forwardingHint interest with
  | [] =>
      (* FIB lookup with Interest name *)
      lookup_entry (findLongestPrefixMatch fib (i_name interest))
  | fh =>
      if isInProducerRegion then lookup_assert_fails
      else lookupFib_delegations fib fh None
  end.

End Tables.

Arguments Delegation C : clear implicits.
Arguments Interest C : clear implicits.
Arguments Data C : clear implicits.
Arguments InRecord C : clear implicits.
Arguments PitEntry C : clear implicits.
Arguments FibEntry C : clear implicits.
Arguments Fib C : clear implicits.
Arguments LookupFibResult C : clear implicits.


(** ** Strategy actions and triggers (strategy.cpp, lines 156-297) *)

Section Actions.
Context {C : Type} `{NC : NameComponent C}.

(** What the strategy does to the forwarder: the calls into the outgoing
    pipelines and the trigger that the default [afterReceiveData] invokes,
    in the order in which they happen. *)
Inductive Event :=
| ev_beforeSatisfyInterest (ingress : Face)
| ev_onOutgoingData (data : Data C) (egress : Face)
| ev_onOutgoingInterest (egress : Face) (interest : Interest C).

(** The objects an action works on: the PIT entry behind the
    [shared_ptr<pit::Entry>], the Data object behind the [const Data&]
    (its tag is written in place) and the trace of events. *)
Record FwState := mkFwState {
  st_pit : PitEntry C;
  st_data : Data C;
  st_trace : list Event
}.

Definition M (A : Type) : Type := FwState → A * FwState.
Definition ret {A} (a : A) : M A := λ st, (a, st).
Definition bind {A B} (m : M A) (k : A → M B) : M B :=
  λ st, let '(a, st') := m st in k a st'.
Definition gets {A} (f : FwState → A) : M A := λ st, (f st, st).
Definition modify (f : FwState → FwState) : M unit := λ st, ((), f st).

Notation "'do' x <- m ; k" := (bind m (λ x, k))
  (at level 10, x name, m at level 100, k at level 200).
Notation "m ;; k" := (bind m (λ _, k))
  (at level 100, k at level 200, right associativity).

Definition emit (e : Event) : M unit :=
  modify (λ st, mkFwState (st_pit st) (st_data st) (st_trace st ++ [e])).
Definition update_pit (f : PitEntry C → PitEntry C) : M unit :=
  modify (λ st, mkFwState (f (st_pit st)) (st_data st) (st_trace st)).
Definition update_data (f : Data C → Data C) : M unit :=
  modify (λ st, mkFwState (st_pit st) (f (st_data st)) (st_trace st)).

(** Modelled from the spec: the outgoing Data pipeline gets the Data and
    the egress face; "if the face is down, drop ... otherwise, send"
    (forwarder.cpp is not among the sources embedded here).  The call is
    recorded with the Data as it is at that moment. *)
Definition onOutgoingData (egress : Face) : M bool :=
  do data <- gets st_data;
  emit (ev_onOutgoingData data egress) ;;
  ret (face_isUp egress).

(** Modelled from the spec: the outgoing Interest pipeline; "if egressFace
    is down, return null", otherwise an out-record is returned.  The result
    says whether the returned pointer is non-null. *)
Definition onOutgoingInterest (egress : Face) (interest : Interest C) : M bool :=
  emit (ev_onOutgoingInterest egress interest) ;;
  ret (face_isUp egress).

(** [Strategy::beforeSatisfyInterest]: the base class only logs. *)
Definition beforeSatisfyInterest (ingress : Face) : M unit :=
  emit (ev_beforeSatisfyInterest ingress).

(** [Strategy::sendData].  [BOOST_ASSERT(pitEntry->getInterest()
    .matchesData(data))] is a precondition on the caller and is not
    modelled. *)
Definition sendData (egress : Face) : M bool :=
  do pitEntry <- gets st_pit;
  let pitToken :=
    match getInRecord pitEntry egress with
    | Some inRecord => i_pitToken (in_interest inRecord)
    | None => None
    end in
  (* delete the PIT entry's in-record based on egress *)
  update_pit (deleteInRecord egress) ;;
  match pitToken with
  | Some t =>
      update_data (data_setTag (Some t)) ;;
      onOutgoingData egress
  | None =>
      update_data (data_setTag None) ;;
      onOutgoingData egress
  end.

(** [std::set<Face*>::emplace]: nothing happens when the face is in the set
    already.  A [std::set<Face*>] is iterated in the order of the
    addresses, which are not modelled; the set is kept in the order of
    insertion. *)
Definition set_emplace (face : Face) (s : list Face) : list Face :=
  if existsb (λ f, (face_getId f =? face_getId face)%N) s
  then s else s ++ [face].

(** The first loop of [sendDataToAll]: remember pending downstreams. *)
Fixpoint pendingDownstreams (now : Z) (inFace : Face)
    (inRecords : list (InRecord C)) (pending : list Face) : list Face :=
  match inRecords with
  | [] => pending
  | inRecord :: rest =>
      if (now <? in_expiry inRecord)%Z then
        if (face_getId (in_face inRecord) =? face_getId inFace)%N
           && negb (bool_decide
                      (face_getLinkType (in_face inRecord) = LINK_TYPE_AD_HOC))
        then pendingDownstreams now inFace rest pending
        else pendingDownstreams now inFace rest
               (set_emplace (in_face inRecord) pending)
      else pendingDownstreams now inFace rest pending
  end.

(** The second loop of [sendDataToAll]. *)
Fixpoint sendData_each (pending : list Face) : M unit :=
  match pending with
  | [] => ret ()
  | pendingDownstream :: rest =>
      sendData pendingDownstream ;; sendData_each rest
  end.

(** [Strategy::sendDataToAll]; [now] is the reading of the steady clock. *)
Definition sendDataToAll (now : Z) (inFace : Face) : M unit :=
  do pitEntry <- gets st_pit;
  sendData_each (pendingDownstreams now inFace (pit_inRecords pitEntry) []).

(** [Strategy::afterReceiveData] *)
Definition afterReceiveData (now : Z) (ingress : Face) : M unit :=
  beforeSatisfyInterest ingress ;;
  sendDataToAll now ingress.

(** [Strategy::sendInterest].  The token buffer [b] is filled under the
    build switches.  The result pairs the answer of the outgoing pipeline
    with the caller's Interest object as the call leaves it: its tag is
    written in place in the branch without a copy. *)
Definition new_token (cfg : BuildConfig) (pitEntry : PitEntry C)
    (interest : Interest C) : ST_PIT_TOKEN :=
  mkToken
    (if negb (ETRI_NFD_ORG_ARCH cfg) || ETRI_DUAL_CS cfg || ETRI_PITTOKEN_HASH cfg
     then m_workerId pitEntry else workerId zeroed_token)
    (if ETRI_DUAL_CS cfg
     then i_canBePrefix interest else CanBePrefix zeroed_token)
    (if ETRI_PITTOKEN_HASH cfg
     then pit_nodeHash pitEntry else hashValue zeroed_token).

Definition sendInterest (cfg : BuildConfig) (egress : Face)
    (interest : Interest C) : M (bool * Interest C) :=
  do pitEntry <- gets st_pit;
  let b := new_token cfg pitEntry interest in
  match i_pitToken interest with
  | Some _ =>
      (* make a copy to preserve tag on original packet *)
      let interest2 := interest_setTag None interest in
      let interest2 :=
        if negb (ETRI_NFD_ORG_ARCH cfg) || ETRI_DUAL_CS cfg
           || ETRI_PITTOKEN_HASH cfg
        then interest_setTag (Some b) interest2 else interest2 in
      do r <- onOutgoingInterest egress interest2;
      ret (r, interest)
  | None =>
      let interest :=
        if ETRI_DUAL_CS cfg || ETRI_PITTOKEN_HASH cfg
        then interest_setTag (Some b) interest else interest in
      do r <- onOutgoingInterest egress interest;
      ret (r, interest)
  end.

End Actions.

Arguments Event C : clear implicits.
Arguments FwState C : clear implicits.


(** ** The CS replacement policy (cs-policy.cpp, lines 67-80;
       cs-policy-lru.hpp) *)

Section CsPolicy.
(** [Policy::EntryRef] and [Policy::EntryRefExact]: references to entries
    of the two CS views. *)
Context {EntryRef EntryRefExact : Type}.

(** The limits of [Policy] and the queues of [LruPolicy]; the queue of the
    exact view exists in builds with [ETRI_DUAL_CS] only. *)
Record Policy := mkPolicy {
  m_limit : nat;
  m_pm_limit : nat;
  m_em_limit : nat;
  m_queue : list EntryRef;
  m_queueExact : list EntryRefExact
}.

(** Modelled from the spec: how the LRU policy of cs-policy-lru.cpp evicts.
    The spec has it keep a list where "eviction removes from the head":
    entries are removed from the head of a queue for as long as it holds
    more than [limit] entries. *)
Fixpoint evict_from_head {A} (limit : nat) (queue : list A) : list A :=
  match queue with
  | [] => []
  | _ :: rest =>
      if limit <? length queue then evict_from_head limit rest else queue
  end.

(** Modelled from the spec: [LruPolicy::evictEntries] is defined in
    cs-policy-lru.cpp, which is not among the sources embedded here.  The
    spec has [evictEntries] "bring size ≤ limit", and has "separate limits
    limit, pmLimit (prefix-match), and emLimit (exact-match)" of which
    "dual-CS maintains each view under its own cap".  Without
    [ETRI_DUAL_CS] the queue is cut down to [m_limit]; with it [m_queue] is
    the queue of the prefix view and is cut down to [m_pm_limit], the limit
    that [Policy::setPmLimit] stores right before it calls [evictEntries]
    (cs-policy.cpp, lines 82-92). *)
Definition evictEntries (cfg : BuildConfig) (p : Policy) : Policy :=
  let cap := if ETRI_DUAL_CS cfg then m_pm_limit p else m_limit p in
  mkPolicy (m_limit p) (m_pm_limit p) (m_em_limit p)
           (evict_from_head cap (m_queue p)) (m_queueExact p).

(** Modelled from the spec: [LruPolicy::evictEntriesExact] is defined in
    cs-policy-lru.cpp as well.  It keeps the exact view "under its own
    cap": the queue of the exact view is cut down to [m_em_limit], the limit
    that [Policy::setEmLimit] stores right before it calls
    [evictEntriesExact] (cs-policy.cpp, lines 94-106). *)
Definition evictEntriesExact (p : Policy) : Policy :=
  mkPolicy (m_limit p) (m_pm_limit p) (m_em_limit p)
           (m_queue p) (evict_from_head (m_em_limit p) (m_queueExact p)).

(** [Policy::setLimit] *)
Definition setLimit (cfg : BuildConfig) (nMaxEntries : nat) (p : Policy)
  : Policy :=
  let p := mkPolicy nMaxEntries (m_pm_limit p) (m_em_limit p)
                    (m_queue p) (m_queueExact p) in
  let p := evictEntries cfg p in
  if ETRI_DUAL_CS cfg then evictEntriesExact p else p.

End CsPolicy.

Arguments Policy : clear implicits.

(** ** The internal transport pair (internal-transport.cpp) *)

Inductive TransportState := UP | DOWN | CLOSING | FAILED | CLOSED.

#[export] Instance TransportState_eq_dec : EqDecision TransportState.
Proof. solve_decision. Defined.

(** A packet on the wire. *)
Definition Block := list Byte.byte.

(** Transports are objects that point at each other; they live in a store
    and a pointer is a key of the store. *)
Definition ForwarderRef := nat.
Definition ClientRef := nat.

(** [InternalForwarderTransport]: the peer pointer, and from [Transport] the
    state and the handlers connected to the [afterStateChange] signal.  The
    only handlers in this file are the closures that [connectToForwarder]
    connects; each is represented by the client it captures. *)
Record InternalForwarderTransport := mkForwarderTransport {
  m_peer : option ClientRef;
  m_state : TransportState;
  afterStateChange : list ClientRef
}.

(** [InternalClientTransport]: the forwarder pointer and the connection to
    the forwarder's signal, represented by the forwarder it is connected to
    ([None] when disconnected). *)
Record InternalClientTransport := mkClientTransport {
  m_forwarder : option ForwarderRef;
  m_fwTransportStateConn : option ForwarderRef
}.

(** A task posted to the global io service by [receivePacket]. *)
Inductive Task :=
| task_forwarder_receive (f : ForwarderRef) (packet : Block)
| task_client_receive (c : ClientRef) (packet : Block).

Record World := mkWorld {
  forwarders : gmap nat InternalForwarderTransport;
  clients : gmap nat InternalClientTransport;
  ioService : list Task
}.

Definition post (t : Task) (w : World) : World :=
  mkWorld (forwarders w) (clients w) (ioService w ++ [t]).

(** [InternalForwarderTransport::receivePacket] and
    [InternalClientTransport::receivePacket]: post the task that hands the
    packet on. *)
Definition forwarder_receivePacket (f : ForwarderRef) (packet : Block)
  : World → World := post (task_forwarder_receive f packet).
Definition client_receivePacket (c : ClientRef) (packet : Block)
  : World → World := post (task_client_receive c packet).

(** [InternalForwarderTransport::doSend] *)
Definition doSend (f : ForwarderRef) (packet : Block) (w : World) : World :=
  match forwarders w !! f with
  | Some this =>
      match m_peer this with
      | Some peer => client_receivePacket peer packet w
      | None => w
      end
  | None => w
  end.

(** [InternalClientTransport::send(const Block&)] *)
Definition client_send (c : ClientRef) (wire : Block) (w : World) : World :=
  match clients w !! c with
  | Some this =>
      match m_forwarder this with
      | Some f => forwarder_receivePacket f wire w
      | None => w
      end
  | None => w
  end.

(** [InternalForwarderTransport::setPeer] *)
Definition setPeer (f : ForwarderRef) (peer : option ClientRef) (w : World)
  : World :=
  mkWorld (alter (λ t, mkForwarderTransport peer (m_state t) (afterStateChange t))
                 f (forwarders w))
          (clients w) (ioService w).

(** [m_fwTransportStateConn.disconnect()]: the handler leaves the signal it
    is connected to. *)
Definition conn_disconnect (c : ClientRef) (w : World) : World :=
  match clients w !! c with
  | Some this =>
      match m_fwTransportStateConn this with
      | Some f =>
          mkWorld
            (alter (λ t, mkForwarderTransport (m_peer t) (m_state t)
                           (filter (λ h, h ≠ c) (afterStateChange t)))
                   f (forwarders w))
            (<[c := mkClientTransport (m_forwarder this) None]> (clients w))
            (ioService w)
      | None => w
      end
  | None => w
  end.

(** [m_fwTransportStateConn = m_forwarder->afterStateChange.connect(...)]:
    the scoped connection lets go of what it held and takes the new
    connection. *)
Definition conn_connect (c : ClientRef) (f : ForwarderRef) (w : World) : World :=
  let w := conn_disconnect c w in
  mkWorld
    (alter (λ t, mkForwarderTransport (m_peer t) (m_state t)
                   (afterStateChange t ++ [c]))
           f (forwarders w))
    (alter (λ this, mkClientTransport (m_forwarder this) (Some f)) c (clients w))
    (ioService w).

Definition set_m_forwarder (c : ClientRef) (forwarder : option ForwarderRef)
    (w : World) : World :=
  mkWorld (forwarders w)
          (alter (λ this, mkClientTransport forwarder
                            (m_fwTransportStateConn this)) c (clients w))
          (ioService w).

(** [InternalClientTransport::connectToForwarder] *)
Definition connectToForwarder (c : ClientRef) (forwarder : option ForwarderRef)
    (w : World) : World :=
  match clients w !! c with
  | None => w
  | Some this =>
      let w :=
        match m_forwarder this with
        | Some old =>
            (* disconnect from the old forwarder transport *)
            conn_disconnect c (setPeer old None w)
        | None => w
        end in
      let w := set_m_forwarder c forwarder w in
      match forwarder with
      | Some f =>
          (* connect to the new forwarder transport *)
          conn_connect c f (setPeer f (Some c) w)
      | None => w
      end
  end.

(** The closure connected by [connectToForwarder]. *)
Definition stateChangeHandler (c : ClientRef)
    (oldState newState : TransportState) (w : World) : World :=
  if decide (newState = CLOSED) then connectToForwarder c None w else w.

(** Modelled from the spec: [Transport::setState] (transport.cpp is not
    among the sources embedded here) changes the state and emits the
    [afterStateChange(old, new)] signal, which the connected handlers
    observe; nothing happens when the state stays the same. *)
Definition setState (f : ForwarderRef) (newState : TransportState) (w : World)
  : World :=
  match forwarders w !! f with
  | None => w
  | Some this =>
      if decide (m_state this = newState) then w
      else
        let w := mkWorld
                   (<[f := mkForwarderTransport (m_peer this) newState
                             (afterStateChange this)]> (forwarders w))
                   (clients w) (ioService w) in
        foldl (λ w c, stateChangeHandler c (m_state this) newState w)
              w (afterStateChange this)
  end.

(** [InternalForwarderTransport::doClose] *)
Definition doClose (f : ForwarderRef) : World → World := setState f CLOSED.


(** ** Sample data: a PIT entry with two in-records, and a small FIB *)

Module SampleFw.
Import Sample.

Definition face1 : Face := mkFace 1%N LINK_TYPE_POINT_TO_POINT true.
Definition face2 : Face := mkFace 2%N LINK_TYPE_POINT_TO_POINT true.
Definition face3 : Face := mkFace 3%N LINK_TYPE_AD_HOC true.

Definition downstream_token : PitToken := mkToken 7 false 0.

Definition interest_plain : Interest TlvComponent :=
  mkInterest [G 1; G 2] false [] None.
Definition interest_tagged : Interest TlvComponent :=
  mkInterest [G 1; G 2] false [] (Some downstream_token).
Definition interest_hinted : Interest TlvComponent :=
  mkInterest [G 9] false
    [mkDelegation 1 [G 8]; mkDelegation 2 [G 2; G 3; G 4]] None.

(** In-records for face 1 (tagged Interest, expiry 100) and for face 2
    (untagged Interest, expiry 5), owned by worker 4. *)
Definition pitEntry : PitEntry TlvComponent :=
  mkPitEntry interest_plain 4 99
    [mkInRecord face1 interest_tagged 100; mkInRecord face2 interest_plain 5].

Definition pitEntry_hinted : PitEntry TlvComponent :=
  mkPitEntry interest_hinted 4 98 [].

Definition data : Data TlvComponent := mkData [G 1; G 2] None.

Definition state : FwState TlvComponent := mkFwState pitEntry data [].

Definition fib : Fib TlvComponent :=
  [mkFibEntry [G 1] [mkNextHop 5%N 10]; mkFibEntry [G 2; G 3] [mkNextHop 6%N 1]].

(** A build of the multi-worker architecture without dual CS and without
    the name hash in the token, and one with dual CS. *)
Definition build_plain : BuildConfig := mkBuildConfig false false false.
Definition build_dual_cs : BuildConfig := mkBuildConfig false true false.

End SampleFw.


(** ** Sample data: an LRU policy and an internal transport pair *)

Module SamplePolicy.

(** Limits 5, entries 10, 11, 12, 13 in the queue of either view (10 least
    recently used). *)
Definition policy : Policy nat nat :=
  mkPolicy 5 5 5 [10; 11; 12; 13] [10; 11; 12; 13].

(** Limit 5, prefix-match and exact-match limit 3, and three entries in
    either view. *)
Definition policy_dual : Policy nat nat :=
  mkPolicy 5 3 3 [11; 12; 13] [11; 12; 13].

End SamplePolicy.

Module SampleTransport.

(** One forwarder-side transport (key 0) and one client transport (key 0),
    not connected. *)
Definition world0 : World :=
  mkWorld {[ 0 := mkForwarderTransport None UP [] ]}
          {[ 0 := mkClientTransport None None ]} [].

(** After [client.connectToForwarder(&forwarder)]. *)
Definition connected : World := connectToForwarder 0 (Some 0) world0.

Definition packet : Block := [Byte.x05; Byte.x00].

End SampleTransport.


(** ** The rest of the registry interface (strategy.cpp, lines 110-123;
       strategy.hpp, lines 50-61) *)

Section RegistryInterface.
Context {C : Type} `{NC : NameComponent C} {Forwarder : Type}.

(** [Strategy::areSameType]: the two iterators returned by [find] are equal. *)
Definition areSameType (registry : Registry C (Forwarder := Forwarder))
    (instanceNameA instanceNameB : Name C) : bool :=
  find registry instanceNameA =? find registry instanceNameB.

(** [Strategy::listRegistered]: the keys of the registry copied into a
    [std::set<Name>], which is kept as the ascending sequence of its
    elements. *)
Definition listRegistered (registry : Registry C (Forwarder := Forwarder))
  : list (Name C) := registry_keys registry.

(** What [registerType] asserts of a strategy name: more than one component,
    the last one a version component. *)
Definition versioned_name (strategyName : Name C) : Prop :=
  1 < length strategyName
  ∧ ∃ v, atMinus1 strategyName = Some v ∧ isVersion v = true.

(** The registries that [registerType] builds: keys ascending, each key a
    name that passed the assertions. *)
Definition registry_wf (registry : Registry C (Forwarder := Forwarder)) : Prop :=
  registry_sorted registry
  ∧ ∀ k, k ∈ registry_keys registry → versioned_name k.

End RegistryInterface.


(** ** Further triggers and actions (strategy.cpp, lines 164-172 and
       299-318; strategy.hpp, lines 305-329) *)

Section MoreActions.
Context {C : Type} `{NC : NameComponent C}.

(** [Strategy::afterContentStoreHit]: the base class sends the Data to the
    ingress face. *)
Definition afterContentStoreHit (ingress : Face) : M (C := C) bool :=
  sendData ingress.

(** [lp::NackHeader]: the reason of a Nack. *)
Inductive NackReason :=
| NACK_NONE | NACK_CONGESTION | NACK_DUPLICATE | NACK_NO_ROUTE.

Record NackHeader := mkNackHeader { nack_getReason : NackReason }.

(** A call of the [sendNack] action. *)
Inductive NackCall := call_sendNack (egress : Face) (header : NackHeader).

(** The PIT entry and the calls of [sendNack] made so far. *)
Record NackState := mkNackState {
  ns_pit : PitEntry C;
  ns_calls : list NackCall
}.

(** [Forwarder::onOutgoingNack] is not among the sources embedded here; it
    is an input: what the pipeline does to the PIT entry and whether it sent
    the Nack. *)
Variable onOutgoingNack : PitEntry C → Face → NackHeader → bool * PitEntry C.

(** [Strategy::sendNack] *)
Definition sendNack (egress : Face) (header : NackHeader) (st : NackState)
  : bool * NackState :=
  let '(sent, pitEntry) := onOutgoingNack (ns_pit st) egress header in
  (sent, mkNackState pitEntry (ns_calls st ++ [call_sendNack egress header])).

(** [downstreams.erase(exceptFace)] for each excluded face. *)
Definition set_erase (face : Face) (s : list Face) : list Face :=
  List.filter (λ f, negb (face_getId f =? face_getId face)%N) s.

(** The third loop of [sendNacks]. *)
Fixpoint sendNack_each (downstreams : list Face) (header : NackHeader)
    (st : NackState) : NackState :=
  match downstreams with
  | [] => st
  | downstream :: rest =>
      sendNack_each rest header (sendNack downstream header st).2
  end.

(** [Strategy::sendNacks].  The [std::unordered_set<Face*>] is kept in the
    order of insertion; its iteration order is not specified. *)
Definition sendNacks (header : NackHeader) (exceptFaces : list Face)
    (st : NackState) : NackState :=
  (* populate downstreams with all downstreams faces *)
  let downstreams :=
    foldl (λ s inR, set_emplace (in_face inR) s) []
          (pit_inRecords (ns_pit st)) in
  (* delete excluded faces *)
  let downstreams :=
    foldl (λ s exceptFace, set_erase exceptFace s) downstreams exceptFaces in
  (* send Nacks *)
  sendNack_each downstreams header st.

End MoreActions.

Arguments NackState C : clear implicits.


(** ** The end of a client transport (internal-transport.cpp, lines 105-110) *)

(** [InternalClientTransport::~InternalClientTransport]: the body clears the
    peer pointer of the forwarder; then the members are destroyed, the
    scoped connection [m_fwTransportStateConn] leaving the signal it is
    connected to; then the object is gone from the store. *)
Definition client_destroy (c : ClientRef) (w : World) : World :=
  match clients w !! c with
  | None => w
  | Some this =>
      let w :=
        match m_forwarder this with
        | Some f => setPeer f None w
        | None => w
        end in
      let w := conn_disconnect c w in
      mkWorld (forwarders w) (delete c (clients w)) (ioService w)
  end.

(* ===================================================================== *)
(** ** Stream transport: the receive path
       (ndn-cxx/transport/detail/stream-transport-impl.hpp) *)

(** The error code that asio hands to a completion handler. *)
Inductive ErrorCode := ec_success | ec_operation_canceled | ec_other.

(** The part of [StreamTransportImpl] that the receive path touches.
    [m_inputBuffer] holds the bytes in use, the first [m_inputBufferSize]
    bytes of the array of the source: [m_inputBufferSize] is its length.
    [receiveCallback] records the elements handed to
    [m_transport.m_receiveCallback], oldest first. *)
Record StreamTransportImpl := mkStreamTransportImpl {
  m_inputBuffer : list Byte.byte;
  receiveCallback : list Block
}.

Definition m_inputBufferSize (s : StreamTransportImpl) : nat :=
  length (m_inputBuffer s).

(** How [handleAsyncReceive] ends: it calls [asyncReceive] again, it returns
    without doing so (the operation was cancelled), or it closes the
    transport and throws [Transport::Error]. *)
Inductive ReceiveOutcome :=
| receive_again (s : StreamTransportImpl)
| receive_cancelled (s : StreamTransportImpl)
| receive_error (s : StreamTransportImpl).

Section StreamReceive.

(** [Block::fromBuffer(buffer, size)] belongs to ndn-cxx's encoding and is
    not among the sources: it is a parameter here.  It gives the element
    encoded at the start of the buffer when a complete one is there; the
    element's [size()] is the length of its wire. *)
Variable fromBuffer : list Byte.byte → option Block.
Variable MAX_NDN_PACKET_SIZE : nat.

(** The [while] loop of [processAllReceived]; each turn costs one unit of
    fuel, [None] is a loop that has not ended when the fuel is used up.  The
    result is the returned flag, the final [offset] and the elements handed
    to the receive callback. *)
Fixpoint processAllReceived_loop (fuel : nat) (buffer : list Byte.byte)
    (offset nBytesAvailable : nat) (elements : list Block)
    : option (bool * nat * list Block) :=
  match fuel with
  | 0 => None
  | S fuel =>
    if offset <? nBytesAvailable then
      match fromBuffer (take (nBytesAvailable - offset) (drop offset buffer)) with
      | None => Some (false, offset, elements)
      | Some element =>
        processAllReceived_loop fuel buffer (offset + length element)
          nBytesAvailable (elements ++ [element])
      end
    else Some (true, offset, elements)
  end.

Definition processAllReceived (buffer : list Byte.byte)
    (offset nBytesAvailable : nat) : option (bool * nat * list Block) :=
  processAllReceived_loop (S nBytesAvailable) buffer offset nBytesAvailable [].

(** [handleAsyncReceive(error, nBytesRecvd)]: [bytes] are the [nBytesRecvd]
    bytes that the socket wrote behind the bytes in use. *)
Definition handleAsyncReceive (error : ErrorCode) (bytes : list Byte.byte)
    (s : StreamTransportImpl) : option ReceiveOutcome :=
  match error with
  | ec_operation_canceled => Some (receive_cancelled s)
  | ec_other => Some (receive_error s)
  | ec_success =>
    let buffer := m_inputBuffer s ++ bytes in
    let size := length buffer in
    match processAllReceived buffer 0 size with
    | None => None
    | Some (hasProcessedSome, offset, elements) =>
      let s1 := mkStreamTransportImpl buffer (receiveCallback s ++ elements) in
      if negb hasProcessedSome && (size =? MAX_NDN_PACKET_SIZE) && (offset =? 0)
      then Some (receive_error s1)
      else if 0 <? offset then
        if negb (offset =? size)
        then Some (receive_again
                     (mkStreamTransportImpl (drop offset buffer) (receiveCallback s1)))
        else Some (receive_again (mkStreamTransportImpl [] (receiveCallback s1)))
      else Some (receive_again s1)
    end
  end.

(** The socket: [async_receive] on the buffer that [asyncReceive] passes,
    [MAX_NDN_PACKET_SIZE - m_inputBufferSize] bytes long, takes at most that
    many bytes off the stream; [n] is the number of bytes the stream has
    ready. *)
Definition async_receive (n : nat) (stream : list Byte.byte)
    (s : StreamTransportImpl) : list Byte.byte * list Byte.byte :=
  let room := MAX_NDN_PACKET_SIZE - m_inputBufferSize s in
  (take (n `min` room) stream, drop (n `min` room) stream).

(** A run of the receive path: one successful receive for every entry of
    [ready], each followed by its handler, as long as the handler asks for
    the next one.  The result is the last outcome and what is left of the
    stream. *)
Fixpoint receive_run (ready : list nat) (stream : list Byte.byte)
    (s : StreamTransportImpl) : option (ReceiveOutcome * list Byte.byte) :=
  match ready with
  | [] => Some (receive_again s, stream)
  | n :: ready =>
    let '(bytes, stream') := async_receive n stream s in
    match handleAsyncReceive ec_success bytes s with
    | Some (receive_again s') => receive_run ready stream' s'
    | Some outcome => Some (outcome, stream')
    | None => None
    end
  end.

End StreamReceive.

(* ===================================================================== *)
(** ** Forwarder status (daemon/mgmt/forwarder-status-remote-manager.cpp) *)

(** [size_t] and [uint64_t] are 64 bits wide: [+=] wraps around. *)
Definition size_t_add (a b : N) : N := ((a + b) mod 2 ^ 64)%N.

(** The packet counters of one forwarder. *)
Record ForwarderCounters := mkForwarderCounters {
  nInInterests : N;
  nOutInterests : N;
  nInData : N;
  nOutData : N;
  nInNacks : N;
  nOutNacks : N;
  nSatisfiedInterests : N;
  nUnsatisfiedInterests : N;
  nCsHits : N;
  nCsMisses : N
}.

(** What the status manager reads of a forwarder, the main one
    ([m_forwarder]) or a worker ([getMwNfd(i)]): the sizes of its tables,
    the limit of its content store and its counters. *)
Record ForwarderInfo := mkForwarderInfo {
  nameTree_size : N;
  fib_size : N;
  pit_size : N;
  measurements_size : N;
  cs_size : N;
  cs_limit : N;
  getCounters : ForwarderCounters
}.

(** The counts of [ndn::nfd::ForwarderStatus]. *)
Record ForwarderStatus := mkForwarderStatus {
  getNNameTreeEntries : N;
  getNFibEntries : N;
  getNPitEntries : N;
  getNMeasurementsEntries : N;
  getNCsEntries : N;
  getNInInterests : N;
  getNOutInterests : N;
  getNInData : N;
  getNOutData : N;
  getNInNacks : N;
  getNOutNacks : N;
  getNSatisfiedInterests : N;
  getNUnsatisfiedInterests : N
}.

(** One round of [+=] on the thirteen local totals of
    [collectGeneralStatus], for the main forwarder or for a worker. *)
Definition status_add (t : ForwarderStatus) (w : ForwarderInfo) : ForwarderStatus :=
  let counters := getCounters w in
  {| getNNameTreeEntries := size_t_add (getNNameTreeEntries t) (nameTree_size w);
     getNFibEntries := size_t_add (getNFibEntries t) (fib_size w);
     getNPitEntries := size_t_add (getNPitEntries t) (pit_size w);
     getNMeasurementsEntries := size_t_add (getNMeasurementsEntries t) (measurements_size w);
     getNCsEntries := size_t_add (getNCsEntries t) (cs_size w);
     getNInInterests := size_t_add (getNInInterests t) (nInInterests counters);
     getNOutInterests := size_t_add (getNOutInterests t) (nOutInterests counters);
     getNInData := size_t_add (getNInData t) (nInData counters);
     getNOutData := size_t_add (getNOutData t) (nOutData counters);
     getNInNacks := size_t_add (getNInNacks t) (nInNacks counters);
     getNOutNacks := size_t_add (getNOutNacks t) (nOutNacks counters);
     getNSatisfiedInterests :=
       size_t_add (getNSatisfiedInterests t) (nSatisfiedInterests counters);
     getNUnsatisfiedInterests :=
       size_t_add (getNUnsatisfiedInterests t) (nUnsatisfiedInterests counters) |}.

(** [collectGeneralStatus]: the counts of the status (the version string and
    the two time stamps are left out).  [workers] are the forwarding
    workers, [getMwNfd(0)] first; [getForwardingWorkers()] is their
    number. *)
Definition collectGeneralStatus (cfg : BuildConfig) (m_forwarder : ForwarderInfo)
    (workers : list ForwarderInfo) : ForwarderStatus :=
  if ETRI_NFD_ORG_ARCH cfg then
    let counters := getCounters m_forwarder in
    {| getNNameTreeEntries := nameTree_size m_forwarder;
       getNFibEntries := fib_size m_forwarder;
       getNPitEntries := pit_size m_forwarder;
       getNMeasurementsEntries := measurements_size m_forwarder;
       getNCsEntries := cs_size m_forwarder;
       getNInInterests := nInInterests counters;
       getNOutInterests := nOutInterests counters;
       getNInData := nInData counters;
       getNOutData := nOutData counters;
       getNInNacks := nInNacks counters;
       getNOutNacks := nOutNacks counters;
       getNSatisfiedInterests := nSatisfiedInterests counters;
       getNUnsatisfiedInterests := nUnsatisfiedInterests counters |}
  else
    let locals :=
      {| getNNameTreeEntries := 0%N;
         getNFibEntries := fib_size m_forwarder;
         getNPitEntries := 0%N;
         getNMeasurementsEntries := 0%N;
         getNCsEntries := 0%N;
         getNInInterests := 0%N;
         getNOutInterests := 0%N;
         getNInData := 0%N;
         getNOutData := 0%N;
         getNInNacks := 0%N;
         getNOutNacks := 0%N;
         getNSatisfiedInterests := 0%N;
         getNUnsatisfiedInterests := 0%N |} in
    foldl status_add (status_add locals m_forwarder) workers.

(** The four numbers that [formatCsJson] puts under [nfdStatus.cs]. *)
Record CsJson := mkCsJson {
  capacity : N;
  nEntries : N;
  nHits : N;
  nMisses : N
}.

Definition cs_add (t : CsJson) (worker : ForwarderInfo) : CsJson :=
  {| capacity := size_t_add (capacity t) (cs_limit worker);
     nEntries := size_t_add (nEntries t) (cs_size worker);
     nHits := size_t_add (nHits t) (nCsHits (getCounters worker));
     nMisses := size_t_add (nMisses t) (nCsMisses (getCounters worker)) |}.

Definition formatCsJson (m_forwarder : ForwarderInfo)
    (workers : list ForwarderInfo) : CsJson :=
  let locals := mkCsJson 0 0 0 0 in
  let locals :=
    if length workers =? 0 then locals else foldl cs_add locals workers in
  {| capacity := capacity locals;
     nEntries := size_t_add (nEntries locals) (cs_size m_forwarder);
     nHits := nHits locals;
     nMisses := nMisses locals |}.

(* ===================================================================== *)
(** ** The registry of content store policies (daemon/table/cs-policy.cpp) *)

Section PolicyRegistry.
(** The policy object that a registered constructor makes. *)
Context {PolicyObject : Type}.

(** [Policy::Registry]: [std::map<std::string, CreateFunc>]. *)
Definition PolicyRegistry := gmap string (unit → PolicyObject).

(** [Policy::create]; [None] is the null pointer. *)
Definition Policy_create (registry : PolicyRegistry) (policyName : string)
    : option PolicyObject :=
  match registry !! policyName with
  | None => None
  | Some i_second => Some (i_second ())
  end.

(** [Policy::getPolicyNames]. *)
Definition getPolicyNames (registry : PolicyRegistry) : gset string :=
  dom registry.

End PolicyRegistry.

(** Sample data for the stream transport: a decoder for elements of a
    one-byte type and a one-byte length, and a small packet size. *)
Module SampleStream.

Definition fromBuffer (buffer : list Byte.byte) : option Block :=
  match buffer with
  | t :: l :: value =>
    let n := N.to_nat (Byte.to_N l) in
    if n <=? length value then Some (t :: l :: take n value) else None
  | _ => None
  end.

Definition MAX_NDN_PACKET_SIZE : nat := 8.

Definition element1 : Block := [Byte.x05; Byte.x01; Byte.x61].
Definition element2 : Block := [Byte.x06; Byte.x02; Byte.x62; Byte.x63].

Definition state0 : StreamTransportImpl := mkStreamTransportImpl [] [].

End SampleStream.

(** Sample data for the status: a main forwarder and two workers. *)
Module SampleStatus.

Definition main : ForwarderInfo :=
  mkForwarderInfo 10 4 0 0 1 100 (mkForwarderCounters 1 2 3 4 5 6 7 8 9 10).
Definition worker0 : ForwarderInfo :=
  mkForwarderInfo 20 4 7 2 30 1000 (mkForwarderCounters 10 20 30 40 50 60 70 80 90 100).
Definition worker1 : ForwarderInfo :=
  mkForwarderInfo 21 4 8 3 31 1000 (mkForwarderCounters 11 21 31 41 51 61 71 81 91 101).

End SampleStatus.

(* ===================================================================== *)
(** * Part II: theorems                                                   *)
(* ===================================================================== *)

(** ** The canonical order on names *)

Section NameOrder.
Context {C : Type} `{NC : NameComponent C}.
Implicit Types a b c k p : Name C.

Lemma comp_compare_refl (x : C) : comp_compare x x = Eq.
Proof. by apply comp_compare_eq. Qed.

Lemma comp_compare_gt_lt (x y : C) :
  comp_compare x y = Gt ↔ comp_compare y x = Lt.
Proof.
  rewrite (comp_compare_antisym x y).
  destruct (comp_compare x y); simpl; split; congruence.
Qed.

Lemma comp_eqb_eq (x y : C) : comp_eqb x y = true ↔ x = y.
Proof.
  unfold comp_eqb. rewrite <- comp_compare_eq.
  destruct (comp_compare x y); split; congruence.
Qed.

Lemma name_compare_refl a : name_compare a a = Eq.
Proof. induction a as [|x a IH]; simpl; [done|]. by rewrite comp_compare_refl. Qed.

Lemma name_compare_eq a b : name_compare a b = Eq ↔ a = b.
Proof.
  split; [|intros ->; apply name_compare_refl].
  revert b. induction a as [|x a IH]; intros [|y b]; simpl; try done.
  destruct (comp_compare x y) eqn:E; try done.
  apply comp_compare_eq in E as ->. intros ?%IH. by subst.
Qed.

Lemma name_compare_antisym a b :
  name_compare b a = CompOpp (name_compare a b).
Proof.
  revert b. induction a as [|x a IH]; intros [|y b]; simpl; try done.
  rewrite (comp_compare_antisym x y).
  destruct (comp_compare x y); simpl; auto.
Qed.

Lemma name_lt_trans a b c : name_lt a b → name_lt b c → name_lt a c.
Proof.
  unfold name_lt. revert b c.
  induction a as [|x a IH]; intros [|y b] [|z c]; simpl; try done.
  destruct (comp_compare x y) eqn:Exy; try done.
  - apply comp_compare_eq in Exy as ->.
    destruct (comp_compare y z); try done. apply IH.
  - destruct (comp_compare y z) eqn:Eyz; try done.
    + apply comp_compare_eq in Eyz as ->. by rewrite Exy.
    + by rewrite (comp_compare_trans _ _ _ Exy Eyz).
Qed.

Lemma name_le_lt_or_eq a b : name_le a b ↔ name_lt a b ∨ a = b.
Proof.
  unfold name_le, name_lt. rewrite <- name_compare_eq.
  destruct (name_compare a b); split; try done; auto; by intros [|].
Qed.

Lemma name_le_refl a : name_le a a.
Proof. apply name_le_lt_or_eq. by right. Qed.

Lemma name_lt_irrefl a : ¬ name_lt a a.
Proof. unfold name_lt. by rewrite name_compare_refl. Qed.

Lemma name_le_not_lt a b : name_le a b ↔ ¬ name_lt b a.
Proof.
  unfold name_le, name_lt. rewrite (name_compare_antisym a b).
  destruct (name_compare a b); simpl; split; congruence.
Qed.

Lemma name_lt_le_trans a b c : name_lt a b → name_le b c → name_lt a c.
Proof.
  intros Hab [Hbc| ->]%name_le_lt_or_eq; [|done]. by eapply name_lt_trans.
Qed.

Lemma name_le_lt_trans a b c : name_le a b → name_lt b c → name_lt a c.
Proof.
  intros [Hab| ->]%name_le_lt_or_eq Hbc; [|done]. by eapply name_lt_trans.
Qed.

Lemma name_le_trans a b c : name_le a b → name_le b c → name_le a c.
Proof.
  intros [Hab| ->]%name_le_lt_or_eq Hbc; [|done].
  apply name_le_lt_or_eq. left. by eapply name_lt_le_trans.
Qed.

Lemma name_le_antisym a b : name_le a b → name_le b a → a = b.
Proof.
  intros [Hab| ->]%name_le_lt_or_eq Hba; [|done].
  by apply name_le_not_lt in Hba.
Qed.

Lemma name_ltb_lt a b : name_ltb a b = true ↔ name_lt a b.
Proof.
  unfold name_ltb, name_lt. destruct (name_compare a b); split; congruence.
Qed.

Lemma name_ltb_le a b : name_ltb a b = false ↔ name_le b a.
Proof.
  rewrite name_le_not_lt, <- name_ltb_lt. destruct (name_ltb a b); split; congruence.
Qed.

(** *** Prefixes *)

Lemma isPrefixOf_spec a b : isPrefixOf a b = true ↔ ∃ r, b = a ++ r.
Proof.
  revert b. induction a as [|x a IH]; intros b; simpl.
  - split; eauto.
  - destruct b as [|y b].
    + split; [done|]. by intros [r ?].
    + rewrite andb_true_iff, comp_eqb_eq, IH. split.
      * intros [-> [r ->]]. eauto.
      * intros [r Hr]. simplify_eq. eauto.
Qed.

Lemma isPrefixOf_app a r : isPrefixOf a (a ++ r) = true.
Proof. apply isPrefixOf_spec. eauto. Qed.

Lemma name_compare_app p a b :
  name_compare (p ++ a) (p ++ b) = name_compare a b.
Proof. induction p as [|x p IH]; simpl; [done|]. by rewrite comp_compare_refl. Qed.

Lemma name_le_nil a : name_le [] a.
Proof. unfold name_le. by destruct a. Qed.

Lemma name_le_app a r : name_le a (a ++ r).
Proof.
  unfold name_le. rewrite <- (app_nil_r a) at 1. rewrite name_compare_app.
  apply name_le_nil.
Qed.

(** The names under a prefix form an interval of the canonical order. *)
Lemma isPrefixOf_convex p a b c :
  isPrefixOf p a = true → isPrefixOf p c = true →
  name_le a b → name_le b c → isPrefixOf p b = true.
Proof.
  revert a b c. induction p as [|x p IH]; intros a b c; simpl; [done|].
  destruct a as [|xa a]; [done|]. destruct c as [|xc c]; [done|].
  rewrite !andb_true_iff, !comp_eqb_eq.
  intros [<- Ha] [<- Hc]. unfold name_le.
  destruct b as [|xb b]; [done|]. simpl.
  rewrite (comp_compare_antisym x xb).
  destruct (comp_compare x xb) eqn:E; simpl; try done.
  apply comp_compare_eq in E as <-. intros Hab Hbc.
  rewrite andb_true_iff, comp_eqb_eq. split; [done|]. by apply (IH a b c).
Qed.

End NameOrder.

(** ** Instance names *)

Section InstanceNames.
Context {C : Type} `{NC : NameComponent C}.
Implicit Types input : Name C.

Lemma parseInstanceName_from_S input i :
  parseInstanceName_from input (S i)
  = match input !! S i with
    | Some c =>
        if isVersion c
        then mkParsed (getPrefix (S i + 1) input) (Some (toVersion c))
                      (getSubName (S i + 1) input)
        else parseInstanceName_from input i
    | None => parseInstanceName_from input i
    end.
Proof. done. Qed.

Lemma parseInstanceName_from_none input i :
  (∀ j c, 1 ≤ j ≤ i → input !! j = Some c → isVersion c = false) →
  parseInstanceName_from input i = mkParsed input None [].
Proof.
  induction i as [|i IH]; intros Hno; simpl; [done|].
  destruct (input !! S i) as [c|] eqn:Hc.
  - rewrite (Hno (S i) c) by (done || lia). apply IH.
    intros j d ?. apply Hno. lia.
  - apply IH. intros j d ?. apply Hno. lia.
Qed.

Lemma parseInstanceName_from_last input i i0 c :
  1 ≤ i0 ≤ i → input !! i0 = Some c → isVersion c = true →
  (∀ j d, i0 < j ≤ i → input !! j = Some d → isVersion d = false) →
  parseInstanceName_from input i
  = mkParsed (getPrefix (i0 + 1) input) (Some (toVersion c))
             (getSubName (i0 + 1) input).
Proof.
  induction i as [|i IH]; intros Hi Hc Hv Hno; [lia|].
  destruct (decide (i0 = S i)) as [->|Hne].
  - simpl. rewrite Hc, Hv. done.
  - assert (parseInstanceName_from input (S i) = parseInstanceName_from input i) as ->.
    { simpl. destruct (input !! S i) as [d|] eqn:Hd; [|done].
      rewrite (Hno (S i) d) by (done || lia). done. }
    apply IH; [lia|done|done|]. intros j d ?. apply Hno. lia.
Qed.

Lemma parseInstanceName_from_some input n i c :
  1 ≤ i ≤ n → input !! i = Some c → isVersion c = true →
  ∃ j d, i ≤ j ≤ n ∧ input !! j = Some d ∧ isVersion d = true
         ∧ (∀ k e, j < k ≤ n → input !! k = Some e → isVersion e = false)
         ∧ parseInstanceName_from input n
           = mkParsed (getPrefix (j + 1) input) (Some (toVersion d))
                      (getSubName (j + 1) input).
Proof.
  induction n as [|n IH]; intros Hi Hc Hv; [lia|].
  rewrite parseInstanceName_from_S.
  destruct (input !! S n) as [e|] eqn:He.
  - destruct (isVersion e) eqn:Hve.
    + exists (S n), e. split_and!; done || (try intros k e' ?; lia).
    + assert (i ≠ S n) as Hne by (intros ->; congruence).
      destruct IH as (j & d & Hj & Hd & Hvd & Hlater & Hparse); [lia|done|done|].
      exists j, d. split_and!; try done; try lia.
      intros k e' Hk He'. destruct (decide (k = S n)) as [->|?].
      * congruence.
      * apply (Hlater k e'); [lia|done].
  - assert (i ≠ S n) as Hne by (intros ->; congruence).
    destruct IH as (j & d & Hj & Hd & Hvd & Hlater & Hparse); [lia|done|done|].
    exists j, d. split_and!; try done; try lia.
    intros k e' Hk He'. destruct (decide (k = S n)) as [->|?].
    * congruence.
    * apply (Hlater k e'); [lia|done].
Qed.

Lemma parseInstanceName_version_None input :
  version (parseInstanceName input) = None →
  strategyName (parseInstanceName input) = input.
Proof.
  unfold parseInstanceName. generalize (length input - 1). intros i.
  induction i as [|i IH]; simpl; [done|].
  destruct (input !! S i) as [c|]; [|done]. by destruct (isVersion c).
Qed.

(** A parsed name with a version: the strategy name has at least two
    components and ends in the version component that was found. *)
Lemma parseInstanceName_version_Some input v :
  version (parseInstanceName input) = Some v →
  ∃ base c, strategyName (parseInstanceName input) = base ++ [c]
            ∧ base ≠ [] ∧ isVersion c = true ∧ toVersion c = v
            ∧ isPrefixOf (base ++ [c]) input = true.
Proof.
  unfold parseInstanceName. generalize (length input - 1). intros i.
  induction i as [|i IH]; [done|]. rewrite parseInstanceName_from_S.
  destruct (input !! S i) as [c|] eqn:Hc; [|done].
  destruct (isVersion c) eqn:Hv; [|done].
  cbn [version strategyName]. intros [= <-].
  exists (take (S i) input), c. unfold getPrefix.
  replace (S i + 1) with (S (S i)) by lia.
  rewrite (take_S_r _ _ _ Hc). split_and!; try done.
  - destruct input; [done|]. done.
  - apply isPrefixOf_spec. exists (drop (S (S i)) input).
    rewrite <- (take_S_r _ _ _ Hc). by rewrite take_drop.
Qed.

Lemma hasVersion_false input :
  hasVersion input = false ↔ ∀ c, c ∈ input → isVersion c = false.
Proof.
  unfold hasVersion. rewrite <- not_true_iff_false, existsb_exists. split.
  - intros Hno c Hc. apply not_true_iff_false. intros Hv. apply Hno.
    exists c. split; [|done]. apply in_rev. rewrite rev_involutive.
    by apply list_elem_of_In.
  - intros Hno (c & Hc & Hv). apply in_rev, list_elem_of_In in Hc.
    rewrite (Hno c Hc) in Hv. done.
Qed.

Lemma hasVersion_true input :
  hasVersion input = true ↔ ∃ c, c ∈ input ∧ isVersion c = true.
Proof.
  unfold hasVersion. rewrite existsb_exists. split.
  - intros (c & Hc & Hv). exists c. split; [|done].
    by apply in_rev, list_elem_of_In in Hc.
  - intros (c & Hc & Hv). exists c. split; [|done].
    apply in_rev. rewrite rev_involutive. by apply list_elem_of_In.
Qed.

(** C9.  [parseInstanceName] never takes the first component for a version.
    When no component at a position from 1 on is a version component (which
    covers the empty name and a name whose only version component is the
    first one), the whole input is the strategy name, there is no version
    and the parameters are empty.  Otherwise the name is split at its last
    version component at a position from 1 on: the strategy name is the
    prefix through that component, the version is that component's number,
    the parameters are the components after it.  The third part says that
    such a last position exists as soon as some component at a position from
    1 on is a version component. *)
Theorem parseInstanceName_spec input :
  ((∀ i c, 1 ≤ i → input !! i = Some c → isVersion c = false) →
     parseInstanceName input = mkParsed input None [])
  ∧ (∀ i c, 1 ≤ i → input !! i = Some c → isVersion c = true →
       (∀ j d, i < j → input !! j = Some d → isVersion d = false) →
       parseInstanceName input
       = mkParsed (getPrefix (i + 1) input) (Some (toVersion c))
                  (getSubName (i + 1) input))
  ∧ (∀ i c, 1 ≤ i → input !! i = Some c → isVersion c = true →
       ∃ j d, i ≤ j ∧ input !! j = Some d ∧ isVersion d = true
              ∧ (∀ k e, j < k → input !! k = Some e → isVersion e = false)
              ∧ parseInstanceName input
                = mkParsed (getPrefix (j + 1) input) (Some (toVersion d))
                           (getSubName (j + 1) input)).
Proof.
  split_and!.
  - intros Hno. apply parseInstanceName_from_none.
    intros j c [? _]. by apply Hno.
  - intros i c Hi Hc Hv Hlast. apply parseInstanceName_from_last; try done.
    + apply lookup_lt_Some in Hc. lia.
    + intros j d [? _]. by apply Hlast.
  - intros i c Hi Hc Hv.
    destruct (parseInstanceName_from_some input (length input - 1) i c)
      as (j & d & Hj & Hd & Hvd & Hlater & Hparse); try done.
    { apply lookup_lt_Some in Hc. lia. }
    exists j, d. split_and!; try done; try lia.
    intros k e Hk He. apply (Hlater k e); [|done].
    apply lookup_lt_Some in He. lia.
Qed.

(** C10 (amended).  For a strategy name ending in a version component [v]:
    on an input without any version component [makeInstanceName] appends
    [v], and when that input is not empty [parseInstanceName] of the result
    reports the version of [v]; on an input that has a version component
    anywhere it returns the input unchanged; and applying it again to its
    result changes nothing. *)
Theorem makeInstanceName_spec input (sn : Name C) v :
  atMinus1 sn = Some v → isVersion v = true →
  ((∀ c, c ∈ input → isVersion c = false) →
      makeInstanceName input sn = Some (input ++ [v])
      ∧ (input ≠ [] →
         parseInstanceName (input ++ [v])
         = mkParsed (input ++ [v]) (Some (toVersion v)) []))
  ∧ ((∃ c, c ∈ input ∧ isVersion c = true) →
      makeInstanceName input sn = Some input)
  ∧ (∀ r, makeInstanceName input sn = Some r →
          makeInstanceName r sn = Some r).
Proof.
  intros Hlast Hv. unfold makeInstanceName. rewrite Hlast, Hv.
  split_and!.
  - intros Hno. rewrite (proj2 (hasVersion_false input) Hno). split; [done|].
    intros Hne.
    assert ((input ++ [v]) !! length input = Some v) as Hlk.
    { rewrite lookup_app_r by lia. by rewrite Nat.sub_diag. }
    unfold parseInstanceName.
    rewrite (parseInstanceName_from_last _ _ (length input) v); try done.
    + unfold getPrefix, getSubName.
      rewrite take_ge, drop_ge by (rewrite length_app; simpl; lia). done.
    + rewrite length_app. simpl. destruct input; [done|simpl; lia].
    + intros j d Hj Hd. apply lookup_lt_Some in Hd.
      rewrite length_app in Hd. simpl in Hd. lia.
  - intros Hsome. by rewrite (proj2 (hasVersion_true input) Hsome).
  - intros r [= <-]. destruct (hasVersion input) eqn:Hhas.
    + by rewrite Hhas.
    + assert (hasVersion (input ++ [v]) = true) as ->; [|done].
      apply hasVersion_true. exists v. split; [|done].
      apply elem_of_app. right. by apply list_elem_of_singleton.
Qed.

End InstanceNames.

(** ** Lookups in the registry *)

Section RegistryLookup.
Context {C : Type} `{NC : NameComponent C} {Forwarder : Type}.
Implicit Types registry : Registry C (Forwarder := Forwarder).
Implicit Types k sn : Name C.

Lemma getSuccessor_interval sn k :
  sn ≠ [] →
  isPrefixOf sn k = true ↔ name_le sn k ∧ name_lt k (getSuccessor sn).
Proof.
  revert k. induction sn as [|x [|x2 r] IH]; intros k Hne; [done| |].
  - clear IH. destruct k as [|y k]; unfold name_le, name_lt; simpl.
    { split; [done|]. by intros [? _]. }
    rewrite andb_true_r, comp_eqb_eq, <- comp_compare_eq.
    pose proof (comp_successor_next x y) as Hnext.
    rewrite (comp_compare_antisym x y) in Hnext.
    destruct (comp_compare x y) eqn:Exy; simpl in *.
    + split; [intros _|done]. split; [by destruct k|].
      rewrite (proj2 Hnext); done.
    + split; [done|]. intros [_ Hlt].
      destruct (comp_compare y (comp_successor x)) eqn:E; try done.
      * by destruct k.
      * destruct Hnext as [Hn _]. by destruct Hn.
    + split; [done|]. by intros [? _].
  - specialize (IH).
    destruct k as [|y k].
    { unfold name_le. simpl. split; [done|]. by intros [? _]. }
    change (isPrefixOf (x :: x2 :: r) (y :: k))
      with (comp_eqb x y && isPrefixOf (x2 :: r) k).
    change (getSuccessor (x :: x2 :: r)) with (x :: getSuccessor (x2 :: r)).
    rewrite andb_true_iff, comp_eqb_eq, (IH k) by done.
    unfold name_le, name_lt.
    change (name_compare (x :: x2 :: r) (y :: k))
      with (match comp_compare x y with
            | Eq => name_compare (x2 :: r) k | o => o end).
    change (name_compare (y :: k) (x :: getSuccessor (x2 :: r)))
      with (match comp_compare y x with
            | Eq => name_compare k (getSuccessor (x2 :: r)) | o => o end).
    rewrite (comp_compare_antisym x y).
    destruct (comp_compare x y) eqn:Exy; simpl.
    + apply comp_compare_eq in Exy as ->. tauto.
    + split; [|by intros [_ ?]]. intros [-> _].
      by rewrite comp_compare_refl in Exy.
    + split; [|by intros [? _]]. intros [-> _].
      by rewrite comp_compare_refl in Exy.
Qed.

Lemma lookup_registry_keys registry i k :
  registry_keys registry !! i = Some k ↔ ∃ f, registry !! i = Some (k, f).
Proof.
  unfold registry_keys. rewrite list_lookup_fmap, fmap_Some. split.
  - intros ([k' f] & Hlk & ->). eauto.
  - intros [f Hlk]. by exists (k, f).
Qed.

Lemma key_at_lookup registry i k :
  registry_keys registry !! i = Some k → key_at registry i = k.
Proof. intros [f Hf]%lookup_registry_keys. unfold key_at. by rewrite Hf. Qed.

Lemma lower_bound_le_end registry k :
  lower_bound registry k ≤ registry_end registry.
Proof.
  unfold registry_end. induction registry as [|[k' f] rest IH]; simpl; [lia|].
  destruct (name_ltb k' k); simpl; lia.
Qed.

(** [lower_bound] on a sorted registry: the position of the least key that
    is not less than [k], or [end()] when every key is less. *)
Lemma lower_bound_spec registry k :
  registry_sorted registry →
  (lower_bound registry k = registry_end registry
   ∧ ∀ k', k' ∈ registry_keys registry → name_lt k' k)
  ∨ (∃ ki, registry_keys registry !! lower_bound registry k = Some ki
           ∧ name_le k ki
           ∧ ∀ k', k' ∈ registry_keys registry → name_le k k' → name_le ki k').
Proof.
  unfold registry_sorted, registry_end, registry_keys.
  induction registry as [|[k1 f] rest IH]; intros Hs.
  { left. split; [done|]. intros k' Hk'. by apply elem_of_nil in Hk'. }
  simpl in *. apply StronglySorted_inv in Hs as [Hs Hall].
  rewrite Forall_forall in Hall.
  destruct (name_ltb k1 k) eqn:E.
  - apply name_ltb_lt in E. destruct (IH Hs) as [[Hend Hlt]|(ki & Hki & Hle & Hmin)].
    + left. split; [by rewrite Hend|].
      intros k' [->|Hk']%elem_of_cons; auto.
    + right. exists ki. split_and!; try done.
      intros k' [->|Hk']%elem_of_cons Hkk'; [|by apply Hmin].
      apply name_le_not_lt in Hkk'. done.
  - apply name_ltb_le in E. right. exists k1. split_and!; try done.
    intros k' [->|Hk']%elem_of_cons _; [apply name_le_refl|].
    apply name_le_lt_or_eq. left. by apply Hall.
Qed.

(** The position before [lower_bound], when there is one, holds the
    greatest key that is less than [k]. *)
Lemma lower_bound_pred_spec registry k :
  registry_sorted registry →
  (lower_bound registry k = 0
   ∧ ∀ k', k' ∈ registry_keys registry → name_le k k')
  ∨ (∃ i ki, lower_bound registry k = S i
             ∧ registry_keys registry !! i = Some ki
             ∧ name_lt ki k
             ∧ ∀ k', k' ∈ registry_keys registry → name_lt k' k → name_le k' ki).
Proof.
  unfold registry_sorted, registry_keys.
  induction registry as [|[k1 f] rest IH]; intros Hs.
  { left. split; [done|]. intros k' Hk'. by apply elem_of_nil in Hk'. }
  simpl in *. apply StronglySorted_inv in Hs as [Hs Hall].
  rewrite Forall_forall in Hall.
  destruct (name_ltb k1 k) eqn:E.
  - apply name_ltb_lt in E. right.
    destruct (IH Hs) as [[Hzero Hge]|(i & ki & Hi & Hki & Hlt & Hmax)].
    + exists 0, k1. rewrite Hzero. split_and!; try done.
      intros k' [->|Hk']%elem_of_cons Hk'k; [apply name_le_refl|].
      apply Hge, name_le_not_lt in Hk'. done.
    + exists (S i), ki. rewrite Hi. split_and!; try done.
      intros k' [->|Hk']%elem_of_cons Hk'k; [|by apply Hmax].
      apply name_le_lt_or_eq. left. apply Hall.
      apply list_elem_of_lookup. eauto.
  - apply name_ltb_le in E. left. split; [done|].
    intros k' [->|Hk']%elem_of_cons; [done|].
    eapply name_le_trans; [done|]. apply name_le_lt_or_eq. left.
    by apply Hall.
Qed.

Lemma find_le_end registry input :
  find registry input ≤ registry_end registry.
Proof.
  unfold find. destruct (version _).
  - destruct (_ && _); [|done]. apply lower_bound_le_end.
  - destruct (strategyName _) as [|x r]; [done|].
    pose proof (lower_bound_le_end registry (getSuccessor (x :: r))).
    destruct (lower_bound _ _) as [|i]; [done|].
    destruct (isPrefixOf _ _); lia.
Qed.

Lemma found_name_Some registry input k :
  found_name registry input = Some k ↔
  find registry input < registry_end registry
  ∧ key_at registry (find registry input) = k.
Proof.
  unfold found_name. pose proof (find_le_end registry input).
  destruct (Nat.eqb_spec (find registry input) (registry_end registry)).
  - split; [done|]. lia.
  - split; [intros [= <-]; split; [lia|done] | by intros [_ ->]].
Qed.

Lemma found_name_None registry input :
  found_name registry input = None ↔
  find registry input = registry_end registry.
Proof.
  unfold found_name.
  destruct (Nat.eqb_spec (find registry input) (registry_end registry)); done.
Qed.

End RegistryLookup.

(** ** Resolution of instance names: [Strategy::find] *)

Section FindResolution.
Context {C : Type} `{NC : NameComponent C} {Forwarder : Type}.
Implicit Types registry : Registry C (Forwarder := Forwarder).
Implicit Types k sn base input : Name C.

Lemma getPrefixMinus1_snoc base (c : C) : getPrefixMinus1 (base ++ [c]) = base.
Proof.
  unfold getPrefixMinus1. rewrite length_app. simpl.
  replace (length base + 1 - 1) with (length base) by lia.
  by rewrite take_app_length.
Qed.

Lemma name_le_snoc_version base (c1 c2 : C) :
  isVersion c1 = true → isVersion c2 = true →
  name_le (base ++ [c1]) (base ++ [c2]) ↔ (toVersion c1 ≤ toVersion c2)%N.
Proof.
  intros H1 H2. unfold name_le. rewrite name_compare_app. simpl.
  rewrite (comp_version_order c1 c2 H1 H2). unfold N.le.
  destruct (toVersion c1 ?= toVersion c2)%N; done.
Qed.

Lemma find_versioned registry input v :
  registry_sorted registry →
  version (parseInstanceName input) = Some v →
  let sn := strategyName (parseInstanceName input) in
  (∀ k, found_name registry input = Some k →
      k ∈ registry_keys registry
      ∧ isPrefixOf (getPrefixMinus1 sn) k = true
      ∧ name_le sn k
      ∧ ∀ k', k' ∈ registry_keys registry → name_le sn k' → name_le k k')
  ∧ (found_name registry input = None ↔
     ¬ ∃ k, k ∈ registry_keys registry
            ∧ isPrefixOf (getPrefixMinus1 sn) k = true ∧ name_le sn k).
Proof.
  intros Hs Hv sn.
  destruct (parseInstanceName_version_Some input v Hv)
    as (base & cv & Hsn & _ & _ & _ & _).
  fold sn in Hsn.
  assert (isPrefixOf (getPrefixMinus1 sn) sn = true) as Hbase.
  { rewrite Hsn, getPrefixMinus1_snoc. apply isPrefixOf_app. }
  setoid_rewrite found_name_Some. rewrite found_name_None.
  unfold find. rewrite Hv. fold sn.
  destruct (lower_bound_spec registry sn Hs)
    as [[Hend Hlt]|(ki & Hki & Hle & Hmin)].
  - rewrite Hend, Nat.eqb_refl. simpl. split; [lia|].
    split; [intros _|done]. intros (k & Hk & _ & Hge).
    apply name_le_not_lt in Hge. auto.
  - pose proof (lookup_lt_Some _ _ _ Hki) as Hlen.
    unfold registry_keys in Hlen. rewrite length_fmap in Hlen.
    fold (registry_end registry) in Hlen.
    rewrite (key_at_lookup _ _ _ Hki).
    destruct (Nat.eqb_spec (lower_bound registry sn) (registry_end registry));
      [lia|]. simpl.
    assert (ki ∈ registry_keys registry) as Hin.
    { apply list_elem_of_lookup. eauto. }
    destruct (isPrefixOf (getPrefixMinus1 sn) ki) eqn:Hpre.
    + rewrite (key_at_lookup _ _ _ Hki). split.
      * intros k [_ <-]. done.
      * split; [lia|]. intros Hno. exfalso. apply Hno. eauto.
    + split; [lia|]. split; [intros _|done].
      intros (k & Hk & Hkpre & Hge).
      assert (isPrefixOf (getPrefixMinus1 sn) ki = true) as Hcontra;
        [|congruence].
      apply (isPrefixOf_convex _ sn ki k); auto.
Qed.

Lemma find_unversioned registry input :
  registry_sorted registry →
  version (parseInstanceName input) = None →
  (∀ k, found_name registry input = Some k →
      k ∈ registry_keys registry
      ∧ isPrefixOf input k = true
      ∧ ∀ k', k' ∈ registry_keys registry → isPrefixOf input k' = true →
              name_le k' k)
  ∧ (found_name registry input = None ↔
     input = [] ∨ ¬ ∃ k, k ∈ registry_keys registry
                         ∧ isPrefixOf input k = true).
Proof.
  intros Hs Hv.
  setoid_rewrite found_name_Some. rewrite found_name_None.
  unfold find. rewrite Hv, (parseInstanceName_version_None input Hv).
  destruct input as [|x r] eqn:Hinput; [split; [lia|tauto]|].
  rewrite <- Hinput. assert (input ≠ []) as Hne by (by subst).
  clear Hinput Hv x r.
  destruct (lower_bound_pred_spec registry (getSuccessor input) Hs)
    as [[Hzero Hge]|(i & ki & Hi & Hki & Hlt & Hmax)].
  - rewrite Hzero. split; [lia|]. split; [intros _|done]. right.
    intros (k & Hk & Hpre). apply getSuccessor_interval in Hpre as [_ Hk'];
      [|done]. apply Hge, name_le_not_lt in Hk. done.
  - rewrite Hi, (key_at_lookup _ _ _ Hki).
    pose proof (lookup_lt_Some _ _ _ Hki) as Hlen.
    unfold registry_keys in Hlen. rewrite length_fmap in Hlen.
    fold (registry_end registry) in Hlen.
    assert (ki ∈ registry_keys registry) as Hin.
    { apply list_elem_of_lookup. eauto. }
    destruct (isPrefixOf input ki) eqn:Hpre.
    + rewrite (key_at_lookup _ _ _ Hki). split.
      * intros k [_ <-]. split_and!; try done.
        intros k' Hk' Hpre'. apply Hmax; [done|].
        by apply getSuccessor_interval in Hpre' as [_ ?].
      * split; [lia|]. intros [?|Hno]; [done|]. exfalso. apply Hno. eauto.
    + split; [lia|]. split; [intros _|done]. right.
      intros (k & Hk & Hkpre).
      apply getSuccessor_interval in Hkpre as [Hge Hk']; [|done].
      assert (isPrefixOf input ki = true) as Hcontra; [|congruence].
      apply getSuccessor_interval; [done|]. split; [|done].
      eapply name_le_trans; [done|]. by apply Hmax.
Qed.

End FindResolution.

Section FindTheorems.
Context {C : Type} `{NC : NameComponent C} {Forwarder : Type}.
Implicit Types registry : Registry C (Forwarder := Forwarder).
Implicit Types k sn base input : Name C.

(** C1 (amended).  On a registry with its keys in ascending order:
    - for an instance name with a version component (at a position from 1
      on), [find] resolves to the first registered name, in canonical
      order, that is not below the requested strategy name, provided it
      lies under the strategy name without its version; when that name is a
      version of the requested strategy it is the lowest registered version
      that is at least the requested one (the exact or the next higher
      version);
    - for an instance name without such a version component, [find]
      resolves to the last registered name under the instance name; when
      that name is a version of the instance name it is the highest
      registered version;
    - [find] returns [end()] exactly when no registered name qualifies in
      this sense, or when the instance name is empty. *)
Theorem find_resolution registry input :
  registry_sorted registry →
  let parsed := parseInstanceName input in
  let sn := strategyName parsed in
  let keys := registry_keys registry in
  match version parsed with
  | Some v =>
      let base := getPrefixMinus1 sn in
      (∀ k, found_name registry input = Some k →
         k ∈ keys ∧ isPrefixOf base k = true ∧ name_le sn k
         ∧ (∀ k', k' ∈ keys → name_le sn k' → name_le k k')
         ∧ (∀ c, k = base ++ [c] → isVersion c = true →
              (v ≤ toVersion c)%N
              ∧ ∀ c', base ++ [c'] ∈ keys → isVersion c' = true →
                      (v ≤ toVersion c')%N →
                      (toVersion c ≤ toVersion c')%N))
      ∧ (found_name registry input = None ↔
         ¬ ∃ k, k ∈ keys ∧ isPrefixOf base k = true ∧ name_le sn k)
  | None =>
      (∀ k, found_name registry input = Some k →
         k ∈ keys ∧ isPrefixOf input k = true
         ∧ (∀ k', k' ∈ keys → isPrefixOf input k' = true → name_le k' k)
         ∧ (∀ c, k = input ++ [c] → isVersion c = true →
              ∀ c', input ++ [c'] ∈ keys → isVersion c' = true →
                    (toVersion c' ≤ toVersion c)%N))
      ∧ (found_name registry input = None ↔
         input = [] ∨ ¬ ∃ k, k ∈ keys ∧ isPrefixOf input k = true)
  end.
Proof.
  intros Hs. cbv zeta.
  destruct (version (parseInstanceName input)) as [v|] eqn:Hv.
  - destruct (find_versioned registry input v Hs Hv) as [Hfound Hnone].
    split; [|exact Hnone]. intros k Hk.
    destruct (Hfound k Hk) as (Hin & Hpre & Hle & Hmin).
    split_and!; try done.
    destruct (parseInstanceName_version_Some input v Hv)
      as (base & cv & Hsn & _ & Hcv & Htv & _).
    rewrite Hsn in Hle, Hmin |- *. rewrite getPrefixMinus1_snoc.
    intros c -> Hc. rewrite <- Htv. split.
    + by apply (name_le_snoc_version base cv c).
    + intros c' Hin' Hc' Hvc'.
      apply (name_le_snoc_version base c c'); try done.
      apply Hmin; [done|]. by apply name_le_snoc_version.
  - destruct (find_unversioned registry input Hs Hv) as [Hfound Hnone].
    split; [|exact Hnone]. intros k Hk.
    destruct (Hfound k Hk) as (Hin & Hpre & Hmax).
    split_and!; try done. intros c -> Hc c' Hin' Hc'.
    apply (name_le_snoc_version input c' c); try done.
    apply Hmax; [done|]. apply isPrefixOf_app.
Qed.

(** C7.  [create] returns null exactly when [canCreate] is false, that is
    when [find] fails; for such a name it does not throw; and an instance it
    returns has a non-empty instance name. *)
Theorem create_spec registry input (forwarder : Forwarder) :
  (create registry input forwarder = create_nullptr
     ↔ canCreate registry input = false)
  ∧ (canCreate registry input = false →
     create registry input forwarder ≠ create_throws)
  ∧ (∀ s, create registry input forwarder = create_instance s →
          m_name s ≠ []).
Proof.
  unfold create, canCreate. cbv zeta.
  pose proof (find_le_end registry input) as Hle.
  destruct (Nat.eqb_spec (find registry input) (registry_end registry))
    as [Heq|Hne].
  { split_and!; done. }
  destruct (registry !! find registry input) as [[k ctor]|] eqn:Hlk; last first.
  { apply lookup_ge_None in Hlk.
    change (registry_end registry ≤ find registry input) in Hlk. lia. }
  destruct (ctor forwarder input) as [|s]; [split_and!; done|].
  destruct (m_name s) eqn:Hname; split_and!; try done.
  intros s' [= <-]. by rewrite Hname.
Qed.

End FindTheorems.

(** ** The registry and instance names on the sample data *)

Section SampleRegistry.
Import Sample.

Example sample_registry_keys : registry_keys registry = [s_v1; s_v3].
Proof. reflexivity. Qed.

Lemma sample_registry_sorted : registry_sorted registry.
Proof. repeat constructor. Qed.

Example find_exact : found_name registry [G 1; V 3; G 5] = Some s_v3.
Proof. reflexivity. Qed.

Example find_next_higher : found_name registry [G 1; V 2] = Some s_v3.
Proof. reflexivity. Qed.

Example find_above_all : found_name registry [G 1; V 4] = None.
Proof. reflexivity. Qed.

Example find_unversioned_highest : found_name registry [G 1] = Some s_v3.
Proof. reflexivity. Qed.

(** C1 as stated fails: with versions 1 and 3 registered, a request for
    version 2 resolves to version 3, while the highest registered version
    that is at most 2 is version 1. *)
Lemma find_highest_at_most_counterexample :
  ¬ (∀ (registry : Registry TlvComponent (Forwarder := unit)) input v k,
       registry_sorted registry →
       version (parseInstanceName input) = Some v →
       found_name registry input = Some k →
       highest_version_at_most (registry_keys registry)
         (getPrefixMinus1 (strategyName (parseInstanceName input))) v k).
Proof.
  intros Hclaim.
  destruct (Hclaim registry [G 1; V 2] 2%N s_v3 sample_registry_sorted
              eq_refl eq_refl) as (c & Hk & _ & Hle & _).
  injection Hk as <-. simpl in Hle. lia.
Qed.

Lemma find_resolution_witness :
  registry_sorted registry
  ∧ ∀ k, found_name registry [G 1; V 2] = Some k →
         ∀ c, k = [G 1] ++ [c] → isVersion c = true → (2 ≤ toVersion c)%N.
Proof.
  split; [exact sample_registry_sorted|]. intros k Hk c Hc Hv.
  pose proof (find_resolution registry [G 1; V 2] sample_registry_sorted) as H.
  cbv zeta in H. destruct H as [H _].
  destruct (H k Hk) as (_ & _ & _ & _ & Hver).
  exact (proj1 (Hver c Hc Hv)).
Defined.

Lemma create_spec_witness :
  canCreate registry [G 7] = false ∧ create registry [G 7] () = create_nullptr.
Proof.
  split; [reflexivity|].
  apply (proj1 (create_spec registry [G 7] ())). reflexivity.
Defined.

Example create_unversioned :
  create registry [G 1] () = create_instance (mkStrategy [G 1; V 3]).
Proof. reflexivity. Qed.

Example parse_first_component_is_no_version :
  parseInstanceName [V 9; G 2] = mkParsed [V 9; G 2] None [].
Proof. reflexivity. Qed.

Lemma parseInstanceName_spec_witness :
  parseInstanceName [G 1; V 2; V 5; G 3] = mkParsed [G 1; V 2; V 5] (Some 5%N) [G 3].
Proof.
  rewrite (proj1 (proj2 (parseInstanceName_spec [G 1; V 2; V 5; G 3])) 2 (V 5));
    [reflexivity | lia | reflexivity | reflexivity |].
  intros j d Hj Hd. destruct j as [|[|[|[|j]]]]; try lia; simpl in Hd.
  - injection Hd as <-. reflexivity.
  - discriminate Hd.
Defined.

(** C10 as stated fails on the empty input: the version component is
    appended, but it is then the first component of the result, which
    [parseInstanceName] does not take for a version. *)
Lemma makeInstanceName_parse_counterexample :
  ¬ (∀ (input sn : Name TlvComponent) v,
       (∀ c, c ∈ input → isVersion c = false) →
       atMinus1 sn = Some v → isVersion v = true →
       makeInstanceName input sn = Some (input ++ [v])
       ∧ version (parseInstanceName (input ++ [v])) = Some (toVersion v)).
Proof.
  intros Hclaim.
  destruct (Hclaim [] s_v1 (V 1)) as [_ Hparse]; [|done|done|done].
  intros c Hc. by apply elem_of_nil in Hc.
Qed.

Lemma makeInstanceName_spec_witness :
  makeInstanceName [G 1] s_v3 = Some [G 1; V 3]
  ∧ parseInstanceName [G 1; V 3] = mkParsed [G 1; V 3] (Some 3%N) [].
Proof.
  destruct (makeInstanceName_spec [G 1] s_v3 (V 3))
    as (Hnone & _ & _); [reflexivity|reflexivity|].
  destruct Hnone as [Hmake Hparse].
  - intros c Hc. apply list_elem_of_singleton in Hc as ->. reflexivity.
  - split; [exact Hmake|]. apply Hparse. discriminate.
Defined.

End SampleRegistry.

(** ** FIB lookup: [Strategy::lookupFib] *)

Section LookupFib.
Context {C : Type} `{NC : NameComponent C}.
Implicit Types fib : Fib C.
Implicit Types name : Name C.
Implicit Types e : FibEntry C.

Lemma name_eqb_eq (a b : Name C) : name_eqb a b = true ↔ a = b.
Proof.
  unfold name_eqb. rewrite <- name_compare_eq.
  destruct (name_compare a b); split; congruence.
Qed.

Lemma fib_findExactMatch_Some fib name e :
  fib_findExactMatch fib name = Some e → e ∈ fib ∧ fib_getPrefix e = name.
Proof.
  unfold fib_findExactMatch. intros [Hin Heq]%find_some.
  split; [by apply list_elem_of_In|by apply name_eqb_eq].
Qed.

Lemma fib_findExactMatch_None fib name e :
  fib_findExactMatch fib name = None → e ∈ fib → fib_getPrefix e ≠ name.
Proof.
  unfold fib_findExactMatch. intros Hnone Hin Heq.
  apply list_elem_of_In in Hin.
  pose proof (find_none _ _ Hnone e Hin) as Hf. simpl in Hf.
  apply name_eqb_eq in Heq. congruence.
Qed.

Lemma isPrefixOf_take (p name : Name C) :
  isPrefixOf p name = true ↔ length p ≤ length name ∧ p = take (length p) name.
Proof.
  rewrite isPrefixOf_spec. split.
  - intros [r ->]. rewrite length_app, take_app_length. split; [lia|done].
  - intros [_ Hp]. exists (drop (length p) name).
    rewrite Hp at 1. by rewrite take_drop.
Qed.

Lemma fib_walkUp_unfold fib name n :
  fib_walkUp fib name n
  = match fib_findExactMatch fib (getPrefix n name) with
    | Some e => e
    | None => match n with
              | 0 => s_emptyEntry
              | S n' => fib_walkUp fib name n'
              end
    end.
Proof. by destruct n. Qed.

(** The walk returns the entry of the longest prefix of [name], among the
    prefixes of at most [n] components, that has an entry. *)
Lemma fib_walkUp_spec fib name n :
  n ≤ length name →
  let e := fib_walkUp fib name n in
  (e ∈ fib
   ∧ length (fib_getPrefix e) ≤ n
   ∧ isPrefixOf (fib_getPrefix e) name = true
   ∧ ∀ e', e' ∈ fib → isPrefixOf (fib_getPrefix e') name = true →
           length (fib_getPrefix e') ≤ n →
           length (fib_getPrefix e') ≤ length (fib_getPrefix e))
  ∨ (e = s_emptyEntry
     ∧ ∀ e', e' ∈ fib → isPrefixOf (fib_getPrefix e') name = true →
             n < length (fib_getPrefix e')).
Proof.
  induction n as [|n IH]; intros Hn; cbv zeta; rewrite fib_walkUp_unfold.
  - destruct (fib_findExactMatch fib (getPrefix 0 name)) as [e|] eqn:Hf.
    + apply fib_findExactMatch_Some in Hf as [Hin Hpre]. left.
      unfold getPrefix in Hpre. rewrite take_0 in Hpre.
      rewrite Hpre. simpl. split_and!; done || (intros; lia).
    + right. split; [done|]. intros e' Hin' Hpre'.
      pose proof (fib_findExactMatch_None _ _ _ Hf Hin') as Hne.
      unfold getPrefix in Hne. rewrite take_0 in Hne.
      destruct (fib_getPrefix e'); [done|simpl; lia].
  - destruct (fib_findExactMatch fib (getPrefix (S n) name)) as [e|] eqn:Hf.
    + apply fib_findExactMatch_Some in Hf as [Hin Hpre]. left.
      unfold getPrefix in Hpre.
      assert (length (fib_getPrefix e) = S n) as Hlen.
      { rewrite Hpre, length_take. lia. }
      split_and!;
        [done | lia | apply isPrefixOf_take; rewrite Hlen; split; [lia|done]
        | intros; lia].
    + assert (∀ e', e' ∈ fib → isPrefixOf (fib_getPrefix e') name = true →
                    length (fib_getPrefix e') ≠ S n) as Hskip.
      { intros e' Hin' [_ Hpre']%isPrefixOf_take Hlen.
        apply (fib_findExactMatch_None _ _ _ Hf Hin').
        unfold getPrefix. by rewrite <- Hlen. }
      destruct IH as [(Hin & Hle & Hpre & Hmax)|[Hempty Hnone]]; [lia| |].
      * left. split_and!; try done; try lia.
        intros e' Hin' Hpre' Hlen'. apply Hmax; try done.
        specialize (Hskip e' Hin' Hpre'). lia.
      * right. split; [done|]. intros e' Hin' Hpre'.
        specialize (Hskip e' Hin' Hpre'). specialize (Hnone e' Hin' Hpre'). lia.
Qed.

(** [findLongestPrefixMatch] is the longest prefix match. *)
Lemma findLongestPrefixMatch_spec fib name :
  let e := findLongestPrefixMatch fib name in
  isPrefixOf (fib_getPrefix e) name = true
  ∧ (∀ e', e' ∈ fib → isPrefixOf (fib_getPrefix e') name = true →
           e ∈ fib ∧ length (fib_getPrefix e') ≤ length (fib_getPrefix e))
  ∧ ((∀ e', e' ∈ fib → isPrefixOf (fib_getPrefix e') name = false) →
     e = s_emptyEntry)
  ∧ (e ∈ fib ∨ e = s_emptyEntry).
Proof.
  unfold findLongestPrefixMatch.
  destruct (fib_walkUp_spec fib name (length name))
    as [(Hin & Hle & Hpre & Hmax)|[Hempty Hnone]]; [done| |]; cbv zeta.
  - split_and!.
    + done.
    + intros e' Hin' Hpre'. split; [done|]. apply Hmax; try done.
      by apply isPrefixOf_take in Hpre' as [? _].
    + intros Hno. by rewrite (Hno _ Hin) in Hpre.
    + by left.
  - rewrite Hempty. split_and!.
    + done.
    + intros e' Hin' Hpre'. specialize (Hnone e' Hin' Hpre').
      apply isPrefixOf_take in Hpre' as [? _]. lia.
    + done.
    + by right.
Qed.

Lemma findLongestPrefixMatch_no_nexthops fib name :
  fib_wf fib →
  hasNextHops (findLongestPrefixMatch fib name) = false →
  length (fib_getPrefix (findLongestPrefixMatch fib name)) = 0.
Proof.
  intros Hwf Hno.
  destruct (findLongestPrefixMatch_spec fib name) as (_ & _ & _ & [Hin| ->]);
    [|done].
  destruct (fib_getPrefix (findLongestPrefixMatch fib name)) eqn:Hp; [done|].
  rewrite Hwf in Hno; [done|done|]. by rewrite Hp.
Qed.

Lemma lookupFib_delegations_first fib pre del post fibEntry :
  fib_wf fib →
  (∀ d, d ∈ pre → hasNextHops (findLongestPrefixMatch fib (del_name d)) = false) →
  hasNextHops (findLongestPrefixMatch fib (del_name del)) = true →
  lookupFib_delegations fib (pre ++ del :: post) fibEntry
  = lookup_entry (findLongestPrefixMatch fib (del_name del)).
Proof.
  intros Hwf. revert fibEntry.
  induction pre as [|d pre IH]; intros fibEntry Hpre Hdel; simpl.
  - by rewrite Hdel.
  - assert (hasNextHops (findLongestPrefixMatch fib (del_name d)) = false)
      as Hd by (apply Hpre; left).
    rewrite Hd, (findLongestPrefixMatch_no_nexthops _ _ Hwf Hd). simpl.
    apply IH; [|done]. intros d' Hd'. apply Hpre. by right.
Qed.

Lemma lookupFib_delegations_none fib fh fibEntry :
  fib_wf fib →
  (∀ d, d ∈ fh → hasNextHops (findLongestPrefixMatch fib (del_name d)) = false) →
  (fh ≠ [] ∨ ∃ e0, fibEntry = Some e0 ∧ fib_getPrefix e0 = []
                   ∧ hasNextHops e0 = false) →
  ∃ e, lookupFib_delegations fib fh fibEntry = lookup_entry e
       ∧ fib_getPrefix e = [] ∧ hasNextHops e = false.
Proof.
  intros Hwf. revert fibEntry.
  induction fh as [|d fh IH]; intros fibEntry Hall Hstart; simpl.
  - destruct Hstart as [?|(e0 & -> & Hp & Hn)]; [done|].
    rewrite Hp. simpl. eauto.
  - assert (hasNextHops (findLongestPrefixMatch fib (del_name d)) = false)
      as Hd by (apply Hall; left).
    pose proof (findLongestPrefixMatch_no_nexthops _ _ Hwf Hd) as Hlen.
    rewrite Hd, Hlen. simpl. apply IH.
    + intros d' Hd'. apply Hall. by right.
    + right. eexists. split_and!; try done.
      by destruct (fib_getPrefix (findLongestPrefixMatch fib (del_name d))).
Qed.

(** C2.  On a FIB in which only the entry of the empty prefix may lack
    next hops: without a forwarding hint [lookupFib] returns the longest
    prefix match for the Interest's name; with a forwarding hint (and the
    router not in the producer region) it looks up the delegation names in
    list order and returns the first longest prefix match that has next
    hops; when no delegation finds next hops it returns an entry of the
    empty prefix.  The first three parts say what a longest prefix match
    is. *)
Theorem lookupFib_spec fib (isInProducerRegion : bool) (pitEntry : PitEntry C) :
  fib_wf fib →
  let interest := pit_interest pitEntry in
  let lpm := findLongestPrefixMatch fib in
  (∀ name,
     isPrefixOf (fib_getPrefix (lpm name)) name = true
     ∧ (∀ e', e' ∈ fib → isPrefixOf (fib_getPrefix e') name = true →
          lpm name ∈ fib
          ∧ length (fib_getPrefix e') ≤ length (fib_getPrefix (lpm name)))
     ∧ ((∀ e', e' ∈ fib → isPrefixOf (fib_getPrefix e') name = false) →
        lpm name = s_emptyEntry))
  ∧ (i_forwardingHint interest = [] →
     lookupFib fib isInProducerRegion pitEntry
     = lookup_entry (lpm (i_name interest)))
  ∧ (i_forwardingHint interest ≠ [] → isInProducerRegion = false →
     (∀ pre del post,
        i_forwardingHint interest = pre ++ del :: post →
        (∀ d, d ∈ pre → hasNextHops (lpm (del_name d)) = false) →
        hasNextHops (lpm (del_name del)) = true →
        lookupFib fib isInProducerRegion pitEntry
        = lookup_entry (lpm (del_name del)))
     ∧ ((∀ d, d ∈ i_forwardingHint interest →
              hasNextHops (lpm (del_name d)) = false) →
        ∃ e, lookupFib fib isInProducerRegion pitEntry = lookup_entry e
             ∧ fib_getPrefix e = [] ∧ hasNextHops e = false)).
Proof.
  intros Hwf interest lpm. split_and!.
  - intros name.
    destruct (findLongestPrefixMatch_spec fib name) as (? & ? & ? & _).
    done.
  - intros Hfh. unfold lookupFib. fold interest. by rewrite Hfh.
  - intros Hfh ->. unfold lookupFib. fold interest.
    destruct (i_forwardingHint interest) as [|d0 fh] eqn:Heq; [done|].
    split.
    + intros pre del post -> Hpre Hdel.
      by apply lookupFib_delegations_first.
    + intros Hall. apply lookupFib_delegations_none; try done. by left.
Qed.

End LookupFib.

(** ** Sending Data: [sendData], [sendDataToAll], [afterReceiveData] *)

Section SendData.
Context {C : Type} `{NC : NameComponent C}.
Implicit Types st : FwState C.
Implicit Types rs : list (InRecord C).
Implicit Types pending faces : list Face.

(** The tag that [sendData] reads from the in-record of the egress face. *)
Definition inRecord_token (pitEntry : PitEntry C) (egress : Face)
  : option PitToken :=
  match getInRecord pitEntry egress with
  | Some inRecord => i_pitToken (in_interest inRecord)
  | None => None
  end.

Lemma sendData_run egress st :
  sendData egress st
  = (face_isUp egress,
     mkFwState (deleteInRecord egress (st_pit st))
               (data_setTag (inRecord_token (st_pit st) egress) (st_data st))
               (st_trace st
                ++ [ev_onOutgoingData
                      (data_setTag (inRecord_token (st_pit st) egress)
                                   (st_data st)) egress])).
Proof.
  unfold sendData, inRecord_token, bind, gets. simpl.
  destruct (getInRecord (st_pit st) egress) as [r|]; [|done].
  by destruct (i_pitToken (in_interest r)).
Qed.

Lemma same_face_id (f : Face) (r : InRecord C) :
  same_face f r = true ↔ face_getId (in_face r) = face_getId f.
Proof. unfold same_face. apply N.eqb_eq. Qed.

Lemma erase_first_gone (f : Face) rs :
  NoDup (map (λ r, face_getId (in_face r)) rs) →
  List.find (same_face f) (erase_first f rs) = None.
Proof.
  induction rs as [|r rs IH]; simpl; [done|].
  intros [Hnotin Hnd]%NoDup_cons.
  destruct (same_face f r) eqn:Hsame.
  - apply same_face_id in Hsame.
    destruct (List.find (same_face f) rs) as [r'|] eqn:Hfind; [|done].
    apply find_some in Hfind as [Hin Hsame'%same_face_id].
    exfalso. apply Hnotin. rewrite Hsame, <- Hsame'.
    apply list_elem_of_In, in_map_iff. eauto.
  - simpl. rewrite Hsame. by apply IH.
Qed.

Lemma erase_first_other (f g : Face) rs :
  face_getId g ≠ face_getId f →
  List.find (same_face g) (erase_first f rs) = List.find (same_face g) rs.
Proof.
  intros Hne. induction rs as [|r rs IH]; simpl; [done|].
  destruct (same_face f r) eqn:Hf.
  - apply same_face_id in Hf.
    destruct (same_face g r) eqn:Hg; [|done].
    apply same_face_id in Hg. congruence.
  - simpl. by rewrite IH.
Qed.

(** C4.  [sendData] reads the PitToken tag from the Interest of the
    in-record of the egress face, removes that in-record, and hands the
    Data to the outgoing pipeline in the state reached by then: the
    pipeline runs on a PIT entry without an in-record for the egress face
    (at most one in-record per face being the PIT invariant), and the Data
    carries the token read when there was one and no PitToken tag
    otherwise. *)
Theorem sendData_spec egress st :
  pit_one_inRecord_per_face (st_pit st) →
  ∃ outgoing : Data C,
    let handed := mkFwState (deleteInRecord egress (st_pit st)) outgoing
                            (st_trace st) in
    sendData egress st = onOutgoingData egress handed
    ∧ getInRecord (st_pit handed) egress = None
    ∧ st_trace (sendData egress st).2
      = st_trace st ++ [ev_onOutgoingData outgoing egress]
    ∧ d_name outgoing = d_name (st_data st)
    ∧ (∀ inRecord t,
         getInRecord (st_pit st) egress = Some inRecord →
         i_pitToken (in_interest inRecord) = Some t →
         d_pitToken outgoing = Some t)
    ∧ (∀ inRecord,
         getInRecord (st_pit st) egress = Some inRecord →
         i_pitToken (in_interest inRecord) = None →
         d_pitToken outgoing = None)
    ∧ (getInRecord (st_pit st) egress = None → d_pitToken outgoing = None)
    ∧ getInRecord (st_pit (sendData egress st).2) egress = None
    ∧ (∀ face, face_getId face ≠ face_getId egress →
         getInRecord (st_pit (sendData egress st).2) face
         = getInRecord (st_pit st) face).
Proof.
  intros Hone.
  exists (data_setTag (inRecord_token (st_pit st) egress) (st_data st)).
  cbv zeta. rewrite sendData_run. simpl. unfold inRecord_token.
  split_and!; try done.
  - by apply erase_first_gone.
  - by intros r t -> ->.
  - by intros r -> ->.
  - by intros ->.
  - by apply erase_first_gone.
  - intros face Hne. by apply erase_first_other.
Qed.

(** *** The pending downstreams *)

Definition ids (faces : list Face) : list FaceId := map face_getId faces.

(** An in-record whose face [sendDataToAll] remembers as pending. *)
Definition pending_inRecord (now : Z) (inFace : Face) (r : InRecord C) : Prop :=
  (now < in_expiry r)%Z
  ∧ ¬ (face_getId (in_face r) = face_getId inFace
       ∧ face_getLinkType (in_face r) ≠ LINK_TYPE_AD_HOC).

Lemma set_emplace_elem (f : Face) faces (g : Face) :
  g ∈ set_emplace f faces ↔ g ∈ faces ∨ (g = f ∧ face_getId f ∉ ids faces).
Proof.
  unfold set_emplace.
  destruct (existsb _ faces) eqn:Hex.
  - apply existsb_exists in Hex as (h & Hin & Heq%N.eqb_eq).
    split; [by left|]. intros [?|[_ Hnot]]; [done|]. exfalso. apply Hnot.
    rewrite <- Heq. apply list_elem_of_In, in_map, Hin.
  - rewrite elem_of_app, list_elem_of_singleton.
    split; [|tauto]. intros [?| ->]; [by left|]. right. split; [done|].
    intros (h & Heq & Hin)%list_elem_of_In%in_map_iff.
    apply not_true_iff_false in Hex. apply Hex, existsb_exists.
    exists h. split; [done|]. by apply N.eqb_eq.
Qed.

Lemma set_emplace_ids (f : Face) faces (i : FaceId) :
  i ∈ ids (set_emplace f faces) ↔ i ∈ ids faces ∨ i = face_getId f.
Proof.
  unfold ids. rewrite !list_elem_of_fmap. setoid_rewrite set_emplace_elem.
  split.
  - intros (g & -> & [?|[-> _]]); eauto.
  - intros [(g & -> & ?)| ->]; [eauto|].
    destruct (decide (face_getId f ∈ ids faces)) as [Hin|Hnot].
    + apply list_elem_of_fmap in Hin as (g & Hg & Hin). eauto.
    + exists f. eauto.
Qed.

Lemma set_emplace_NoDup (f : Face) faces :
  NoDup (ids faces) → NoDup (ids (set_emplace f faces)).
Proof.
  intros Hnd. unfold set_emplace.
  destruct (existsb _ faces) eqn:Hex; [done|].
  unfold ids. rewrite map_app. simpl. apply NoDup_app. split_and!.
  - done.
  - intros i Hi ->%list_elem_of_singleton.
    apply not_true_iff_false in Hex. apply Hex, existsb_exists.
    apply list_elem_of_In, in_map_iff in Hi as (h & Heq & Hin).
    exists h. split; [done|]. by apply N.eqb_eq.
  - apply NoDup_singleton.
Qed.

Lemma pendingDownstreams_spec now inFace rs pending :
  NoDup (ids pending) →
  let result := pendingDownstreams now inFace rs pending in
  NoDup (ids result)
  ∧ (∀ f, f ∈ result →
       f ∈ pending ∨ ∃ r, r ∈ rs ∧ in_face r = f ∧ pending_inRecord now inFace r)
  ∧ (∀ i, i ∈ ids pending → i ∈ ids result)
  ∧ (∀ r, r ∈ rs → pending_inRecord now inFace r →
       face_getId (in_face r) ∈ ids result).
Proof.
  revert pending. induction rs as [|r rs IH]; intros pending Hnd; simpl.
  { split_and!; try done; [by left|]. intros r Hr. by apply elem_of_nil in Hr. }
  assert (∀ pending', NoDup (ids pending') →
            (∀ f, f ∈ pending' → f ∈ pending ∨ in_face r = f ∧ pending_inRecord now inFace r) →
            (∀ i, i ∈ ids pending → i ∈ ids pending') →
            (pending_inRecord now inFace r → face_getId (in_face r) ∈ ids pending') →
            let result := pendingDownstreams now inFace rs pending' in
            NoDup (ids result)
            ∧ (∀ f, f ∈ result →
                 f ∈ pending ∨ ∃ r', r' ∈ r :: rs ∧ in_face r' = f
                                     ∧ pending_inRecord now inFace r')
            ∧ (∀ i, i ∈ ids pending → i ∈ ids result)
            ∧ (∀ r', r' ∈ r :: rs → pending_inRecord now inFace r' →
                 face_getId (in_face r') ∈ ids result)) as Hstep.
  { intros pending' Hnd' Hfrom Hkeep Hr.
    destruct (IH pending' Hnd') as (Hnd'' & Hfrom' & Hkeep' & Hall).
    split_and!; try done.
    - intros f [Hf|(r' & Hin & Heq & Hp)]%Hfrom'.
      + destruct (Hfrom f Hf) as [?|[? ?]]; [by left|].
        right. exists r. split; [by left|done].
      + right. exists r'. split; [by right|done].
    - intros i Hi. by apply Hkeep', Hkeep.
    - intros r' [->|Hin]%elem_of_cons Hp; [|by apply Hall].
      by apply Hkeep', Hr. }
  unfold pending_inRecord in *.
  destruct (Z.ltb_spec now (in_expiry r)) as [Hlt|Hge].
  - destruct (N.eqb_spec (face_getId (in_face r)) (face_getId inFace))
      as [Heq|Hne]; simpl.
    + destruct (bool_decide_reflect
                  (face_getLinkType (in_face r) = LINK_TYPE_AD_HOC))
        as [Hadhoc|Hnot]; simpl.
      * apply Hstep.
        -- by apply set_emplace_NoDup.
        -- intros f [?|[-> _]]%set_emplace_elem; [by left|].
           right. split_and!; try done. by intros [_ ?].
        -- intros i Hi. apply set_emplace_ids. by left.
        -- intros _. apply set_emplace_ids. by right.
      * apply Hstep; try done; [by left|]. intros [_ Hp]. exfalso. by apply Hp.
    + apply Hstep.
      * by apply set_emplace_NoDup.
      * intros f [?|[-> _]]%set_emplace_elem; [by left|].
        right. split_and!; try done. by intros [? _].
      * intros i Hi. apply set_emplace_ids. by left.
      * intros _. apply set_emplace_ids. by right.
  - apply Hstep; try done; [by left|]. intros [? _]. lia.
Qed.

Lemma sendData_each_trace pending st :
  ∃ sends,
    st_trace (sendData_each pending st).2 = st_trace st ++ sends
    ∧ Forall2 (λ ev f, ∃ d, ev = ev_onOutgoingData d f) sends pending.
Proof.
  revert st. induction pending as [|f pending IH]; intros st; simpl.
  - exists []. rewrite app_nil_r. by split.
  - unfold bind. rewrite sendData_run.
    match goal with |- context [sendData_each pending ?s] =>
      destruct (IH s) as (sends & -> & Hall) end.
    simpl. eexists (_ :: sends). rewrite <- app_assoc. split; [done|].
    constructor; eauto.
Qed.

(** The Data that [sendData] hands to the outgoing pipeline for a
    downstream: the Data of the call, carrying the PitToken tag of the
    Interest of that face's in-record (no PitToken tag when that Interest
    has none). *)
Definition outgoing_data st (downstream : Face) : Data C :=
  data_setTag (inRecord_token (st_pit st) downstream) (st_data st).

Lemma inRecord_token_deleteInRecord (f g : Face) (pitEntry : PitEntry C) :
  face_getId g ≠ face_getId f →
  inRecord_token (deleteInRecord f pitEntry) g = inRecord_token pitEntry g.
Proof.
  intros Hne. unfold inRecord_token, getInRecord, deleteInRecord. simpl.
  by rewrite erase_first_other.
Qed.

(** The second loop of [sendDataToAll] is one [sendData] after the other,
    and each hands on the Data of the call with the tag of its own
    downstream: serving one face changes neither the in-record of another
    face nor the name of the Data. *)
Lemma sendData_each_events pending st :
  NoDup (ids pending) →
  (sendData_each pending st).2 = foldl (λ s f, (sendData f s).2) st pending
  ∧ st_trace (sendData_each pending st).2
    = st_trace st
      ++ map (λ f, ev_onOutgoingData (outgoing_data st f) f) pending.
Proof.
  revert st. induction pending as [|f pending IH]; intros st Hnd.
  { simpl. by rewrite app_nil_r. }
  apply NoDup_cons in Hnd as [Hnotin Hnd].
  cbn [sendData_each foldl map]. unfold bind. rewrite sendData_run.
  cbv beta iota zeta. cbn [snd].
  set (st1 := mkFwState _ _ _).
  destruct (IH st1 Hnd) as [Hfold Htrace].
  split; [exact Hfold|].
  rewrite Htrace.
  assert (map (λ g, ev_onOutgoingData (outgoing_data st1 g) g) pending
          = map (λ g, ev_onOutgoingData (outgoing_data st g) g) pending) as ->.
  { apply map_ext_in. intros g Hg. f_equal.
    unfold outgoing_data, st1. simpl.
    rewrite inRecord_token_deleteInRecord; [done|].
    intros Heq. apply Hnotin. rewrite <- Heq.
    apply list_elem_of_fmap. exists g. split; [done|].
    by apply list_elem_of_In. }
  unfold st1. simpl. by rewrite <- app_assoc.
Qed.

(** C3 (amended).  The default [afterReceiveData] first invokes
    [beforeSatisfyInterest] and then calls [sendData] once for each pending
    downstream and for nothing else: the rest of the trigger is that
    sequence of [sendData] calls, and what each call hands to the outgoing
    pipeline is the Data of the trigger, with the PitToken tag of the
    downstream's own in-record.  The pending downstreams are the faces of
    the in-records that have not expired at the time of the call, the
    ingress face left out unless its link type is ad hoc; no face is
    served twice. *)
Theorem afterReceiveData_spec (now : Z) (ingress : Face) st :
  ∃ faces,
    (afterReceiveData now ingress st).2
    = foldl (λ s f, (sendData f s).2) (beforeSatisfyInterest ingress st).2 faces
    ∧ st_trace (afterReceiveData now ingress st).2
      = st_trace st
        ++ ev_beforeSatisfyInterest ingress
           :: map (λ f, ev_onOutgoingData (outgoing_data st f) f) faces
    ∧ (∀ f, d_name (outgoing_data st f) = d_name (st_data st)
            ∧ d_pitToken (outgoing_data st f) = inRecord_token (st_pit st) f)
    ∧ NoDup (ids faces)
    ∧ (∀ f, f ∈ faces →
         ∃ r, r ∈ pit_inRecords (st_pit st) ∧ in_face r = f
              ∧ pending_inRecord now ingress r)
    ∧ (∀ r, r ∈ pit_inRecords (st_pit st) → pending_inRecord now ingress r →
         face_getId (in_face r) ∈ ids faces).
Proof.
  unfold afterReceiveData, sendDataToAll, beforeSatisfyInterest, emit,
    modify, bind, gets. simpl.
  set (faces := pendingDownstreams now ingress (pit_inRecords (st_pit st)) []).
  destruct (pendingDownstreams_spec now ingress (pit_inRecords (st_pit st)) [])
    as (Hnd & Hfrom & _ & Hall'); [constructor|].
  fold faces in Hnd, Hfrom, Hall'.
  match goal with |- context [sendData_each faces ?s] =>
    destruct (sendData_each_events faces s Hnd) as [Hfold Htrace] end.
  exists faces. rewrite Htrace, Hfold. simpl. rewrite <- app_assoc.
  split_and!; try done.
  intros f [Hf|?]%Hfrom; [|done]. by apply elem_of_nil in Hf.
Qed.

End SendData.

(** ** Sending an Interest: [sendInterest] *)

Section SendInterest.
Context {C : Type} `{NC : NameComponent C}.
Implicit Types st : FwState C.
Implicit Types interest : Interest C.

(** The switch under which the copy of a tagged Interest gets the new
    token, and the one under which an untagged Interest gets it. *)
Definition tags_copy (cfg : BuildConfig) : bool :=
  negb (ETRI_NFD_ORG_ARCH cfg) || ETRI_DUAL_CS cfg || ETRI_PITTOKEN_HASH cfg.
Definition tags_original (cfg : BuildConfig) : bool :=
  ETRI_DUAL_CS cfg || ETRI_PITTOKEN_HASH cfg.

(** C5 (amended).  [sendInterest] hands exactly one Interest to the
    outgoing pipeline; it differs from the input at most in its PitToken
    tag.  The new token holds the PIT entry's worker id (in every build
    that attaches it).
    - When the input carries a PitToken tag, the Interest handed on is a
      copy and the caller's Interest is left as it was; the copy carries
      the new token in builds without [ETRI_NFD_ORG_ARCH] or with
      [ETRI_DUAL_CS] or [ETRI_PITTOKEN_HASH], and no PitToken otherwise.
    - When the input carries no PitToken tag, the caller's Interest itself
      is handed on; it is given the new token in builds with
      [ETRI_DUAL_CS] or [ETRI_PITTOKEN_HASH] and stays without a PitToken
      otherwise. *)
Theorem sendInterest_spec (cfg : BuildConfig) (egress : Face) interest st :
  let token := new_token cfg (st_pit st) interest in
  let result := sendInterest cfg egress interest st in
  let original := result.1.2 in
  ∃ sent,
    st_trace result.2 = st_trace st ++ [ev_onOutgoingInterest egress sent]
    ∧ st_pit result.2 = st_pit st
    ∧ (∃ tag, sent = interest_setTag tag interest)
    ∧ (tags_copy cfg = true → workerId token = m_workerId (st_pit st))
    ∧ (tags_original cfg = true → tags_copy cfg = true)
    ∧ (is_Some (i_pitToken interest) →
         original = interest
         ∧ i_pitToken sent = if tags_copy cfg then Some token else None)
    ∧ (i_pitToken interest = None →
         original = sent
         ∧ i_pitToken sent = if tags_original cfg then Some token else None).
Proof.
  cbv zeta. unfold sendInterest, onOutgoingInterest, emit, modify, bind,
    gets, ret. simpl.
  fold (tags_copy cfg). fold (tags_original cfg).
  assert (tags_copy cfg = true →
          workerId (new_token cfg (st_pit st) interest) = m_workerId (st_pit st))
    as Hworker.
  { unfold tags_copy, new_token. simpl. by intros ->. }
  assert (tags_original cfg = true → tags_copy cfg = true) as Himp.
  { unfold tags_original, tags_copy.
    destruct (ETRI_NFD_ORG_ARCH cfg), (ETRI_DUAL_CS cfg),
      (ETRI_PITTOKEN_HASH cfg); done. }
  destruct (i_pitToken interest) as [t|] eqn:Htag.
  - destruct (tags_copy cfg); simpl;
      (eexists; split_and!;
       [done | done | eauto | done | done | intros _; split; done
       | intros [=] ]).
  - destruct (tags_original cfg); simpl.
    + eexists; split_and!;
        [done | done | eauto | done | done | by intros [? [=]] |done].
    + eexists; split_and!; [done | done | | done | done | by intros [? [=]] |].
      * exists None. destruct interest; simpl in *; by subst.
      * split; [done|]. done.
Qed.

End SendInterest.

(** ** The actions on the sample data *)

Section SampleActions.
Import Sample SampleFw.

Example lookupFib_plain :
  lookupFib fib false pitEntry = lookup_entry (mkFibEntry [G 1] [mkNextHop 5%N 10]).
Proof. reflexivity. Qed.

Example lookupFib_hinted :
  lookupFib fib false pitEntry_hinted
  = lookup_entry (mkFibEntry [G 2; G 3] [mkNextHop 6%N 1]).
Proof. reflexivity. Qed.

Lemma sample_fib_wf : fib_wf fib.
Proof.
  intros e He _. unfold fib in He.
  repeat (apply elem_of_cons in He as [->|He]; [reflexivity|]).
  by apply elem_of_nil in He.
Qed.

Lemma lookupFib_spec_witness :
  fib_wf fib
  ∧ lookupFib fib false pitEntry_hinted
    = lookup_entry (findLongestPrefixMatch fib [G 2; G 3; G 4]).
Proof.
  split; [exact sample_fib_wf|].
  destruct (lookupFib_spec fib false pitEntry_hinted sample_fib_wf)
    as (_ & _ & Hhint).
  destruct Hhint as [Hfirst _]; [discriminate|reflexivity|].
  apply (Hfirst [mkDelegation 1 [G 8]] (mkDelegation 2 [G 2; G 3; G 4]) []);
    [reflexivity| |reflexivity].
  intros d Hd. apply list_elem_of_singleton in Hd as ->. reflexivity.
Defined.

Example afterReceiveData_sample :
  st_trace (afterReceiveData 10 face3 state).2
  = [ev_beforeSatisfyInterest face3;
     ev_onOutgoingData (mkData [G 1; G 2] (Some downstream_token)) face1].
Proof. reflexivity. Qed.

(** C3 as stated fails: face 2 holds an in-record and is not the ingress
    face, but its in-record has expired (expiry 5, clock 10), and
    [afterReceiveData] sends it nothing. *)
Lemma afterReceiveData_expired_counterexample :
  ¬ (∀ (now : Z) (ingress : Face) (st : FwState TlvComponent) r,
       r ∈ pit_inRecords (st_pit st) →
       face_getId (in_face r) ≠ face_getId ingress →
       ∃ d, ev_onOutgoingData d (in_face r)
            ∈ st_trace (afterReceiveData now ingress st).2).
Proof.
  intros Hclaim.
  destruct (Hclaim 10%Z face3 state (mkInRecord face2 interest_plain 5))
    as [d Hd].
  - right. left.
  - discriminate.
  - change (st_trace (afterReceiveData 10 face3 state).2)
      with [ev_beforeSatisfyInterest (C := TlvComponent) face3;
            ev_onOutgoingData (mkData [G 1; G 2] (Some downstream_token)) face1]
      in Hd.
    apply elem_of_cons in Hd as [Hd|Hd]; [discriminate|].
    apply list_elem_of_singleton in Hd. discriminate.
Qed.

Lemma afterReceiveData_spec_witness :
  ∃ faces,
    st_trace (afterReceiveData 10 face3 state).2
    = st_trace state
      ++ ev_beforeSatisfyInterest face3
         :: map (λ f, ev_onOutgoingData (outgoing_data state f) f) faces
    ∧ outgoing_data state face1 = mkData [G 1; G 2] (Some downstream_token)
    ∧ face_getId face1 ∈ ids faces.
Proof.
  destruct (afterReceiveData_spec 10 face3 state)
    as (faces & _ & Htrace & _ & _ & _ & Hall).
  exists faces. split_and!; [exact Htrace|reflexivity|].
  apply (Hall (mkInRecord face1 interest_tagged 100)).
  - left.
  - split; [reflexivity|]. intros [Hid _]. discriminate Hid.
Defined.

Lemma sample_pit_one_inRecord_per_face : pit_one_inRecord_per_face pitEntry.
Proof.
  unfold pit_one_inRecord_per_face. simpl.
  apply NoDup_cons. split; [|apply NoDup_singleton].
  intros Hin. apply list_elem_of_singleton in Hin. discriminate.
Qed.

Lemma sendData_spec_witness :
  pit_one_inRecord_per_face pitEntry
  ∧ ∃ outgoing,
      st_trace (sendData face1 state).2 = [ev_onOutgoingData outgoing face1]
      ∧ d_pitToken outgoing = Some downstream_token
      ∧ getInRecord (st_pit (sendData face1 state).2) face1 = None.
Proof.
  split; [exact sample_pit_one_inRecord_per_face|].
  destruct (sendData_spec face1 state sample_pit_one_inRecord_per_face)
    as (outgoing & _ & _ & Htrace & _ & Htag & _ & _ & Hgone & _).
  exists outgoing. split_and!; [exact Htrace| |exact Hgone].
  apply (Htag (mkInRecord face1 interest_tagged 100)); reflexivity.
Defined.

(** C5 as stated fails: in a build without [ETRI_DUAL_CS] and without
    [ETRI_PITTOKEN_HASH], an Interest that arrives without a PitToken is
    handed to the outgoing pipeline without one. *)
Lemma sendInterest_untagged_counterexample :
  ¬ (∀ (cfg : BuildConfig) (egress : Face)
       (interest : Interest TlvComponent) (st : FwState TlvComponent),
       ∃ sent t,
         st_trace (sendInterest cfg egress interest st).2
         = st_trace st ++ [ev_onOutgoingInterest egress sent]
         ∧ i_pitToken sent = Some t
         ∧ workerId t = m_workerId (st_pit st)).
Proof.
  intros Hclaim.
  destruct (Hclaim build_plain face3 interest_plain state)
    as (sent & t & Htrace & Htag & _).
  injection Htrace as <-. discriminate Htag.
Qed.

Lemma sendInterest_spec_witness :
  is_Some (i_pitToken interest_tagged)
  ∧ (sendInterest build_dual_cs face3 interest_tagged state).1.2
    = interest_tagged
  ∧ ∃ sent,
      st_trace (sendInterest build_dual_cs face3 interest_tagged state).2
      = [ev_onOutgoingInterest face3 sent]
      ∧ i_pitToken sent = Some (mkToken 4 false 0).
Proof.
  assert (is_Some (i_pitToken interest_tagged)) as Htagged by (by eexists).
  split; [exact Htagged|].
  destruct (sendInterest_spec build_dual_cs face3 interest_tagged state)
    as (sent & Htrace & _ & _ & _ & _ & Hcopy & _).
  destruct (Hcopy Htagged) as [Horiginal Htoken].
  split; [exact Horiginal|]. exists sent. split; [exact Htrace|exact Htoken].
Defined.

End SampleActions.

(** ** The CS policy limit: [Policy::setLimit] *)

Section CsPolicyLimit.
Context {EntryRef EntryRefExact : Type}.
Implicit Types p : Policy EntryRef EntryRefExact.




End CsPolicyLimit.

Section SamplePolicyLimit.
Import SamplePolicy.

Example setLimit_smaller :
  m_queue (setLimit SampleFw.build_plain 2 policy) = [12; 13].
Proof. reflexivity. Qed.

Example setLimit_larger :
  m_queue (setLimit SampleFw.build_plain 9 policy) = [10; 11; 12; 13].
Proof. reflexivity. Qed.

Example setLimit_dual_cs :
  setLimit SampleFw.build_dual_cs 2 policy_dual
  = mkPolicy 2 3 3 [11; 12; 13] [11; 12; 13].
Proof. reflexivity. Qed.



End SamplePolicyLimit.

(** ** The internal transport pair *)

Section InternalTransport.
Implicit Types w : World.
Implicit Types f g : ForwarderRef.
Implicit Types c : ClientRef.

(** What is read of the store: the peer and the state of a forwarder-side
    transport, the forwarder of a client transport. *)
Definition peer_of w f : option (option ClientRef) :=
  m_peer <$> forwarders w !! f.
Definition state_of w f : option TransportState :=
  m_state <$> forwarders w !! f.
Definition forwarder_of w c : option (option ForwarderRef) :=
  m_forwarder <$> clients w !! c.

Lemma setPeer_peer f peer w g :
  peer_of (setPeer f peer w) g
  = if decide (f = g) then (λ _, peer) <$> peer_of w g else peer_of w g.
Proof.
  unfold peer_of, setPeer. simpl. rewrite lookup_alter.
  case_decide; [subst|done]. by destruct (forwarders w !! g).
Qed.

Lemma setPeer_state f peer w g :
  state_of (setPeer f peer w) g = state_of w g.
Proof.
  unfold state_of, setPeer. simpl. rewrite lookup_alter.
  case_decide; [subst|done]. by destruct (forwarders w !! g).
Qed.

Lemma conn_disconnect_peer c w g :
  peer_of (conn_disconnect c w) g = peer_of w g.
Proof.
  unfold peer_of, conn_disconnect.
  destruct (clients w !! c) as [this|]; [|done].
  destruct (m_fwTransportStateConn this); [|done]. simpl.
  rewrite lookup_alter. case_decide; [subst|done]. by destruct (forwarders w !! g).
Qed.

Lemma conn_disconnect_state c w g :
  state_of (conn_disconnect c w) g = state_of w g.
Proof.
  unfold state_of, conn_disconnect.
  destruct (clients w !! c) as [this|]; [|done].
  destruct (m_fwTransportStateConn this); [|done]. simpl.
  rewrite lookup_alter. case_decide; [subst|done]. by destruct (forwarders w !! g).
Qed.

Lemma conn_disconnect_forwarder c w c' :
  forwarder_of (conn_disconnect c w) c' = forwarder_of w c'.
Proof.
  unfold forwarder_of, conn_disconnect.
  destruct (clients w !! c) as [this|] eqn:Hc; [|done].
  destruct (m_fwTransportStateConn this); [|done]. simpl.
  rewrite lookup_insert. case_decide; [|done]. subst. by rewrite Hc.
Qed.

Lemma set_m_forwarder_forwarder c x w c' :
  forwarder_of (set_m_forwarder c x w) c'
  = if decide (c = c') then (λ _, x) <$> forwarder_of w c'
    else forwarder_of w c'.
Proof.
  unfold forwarder_of, set_m_forwarder. simpl. rewrite lookup_alter.
  case_decide; [subst|done]. by destruct (clients w !! c').
Qed.

(** [connectToForwarder(nullptr)] as seen through the three readings. *)
Lemma disconnect_state c w g :
  state_of (connectToForwarder c None w) g = state_of w g.
Proof.
  unfold connectToForwarder.
  destruct (clients w !! c) as [this|]; [|done].
  destruct (m_forwarder this); [|done].
  change (state_of (conn_disconnect c (setPeer f None w)) g = state_of w g).
  by rewrite conn_disconnect_state, setPeer_state.
Qed.

Lemma disconnect_forwarder c w c' :
  forwarder_of (connectToForwarder c None w) c'
  = if decide (c = c') then (λ _, None) <$> forwarder_of w c'
    else forwarder_of w c'.
Proof.
  unfold connectToForwarder.
  destruct (clients w !! c) as [this|] eqn:Hc.
  - rewrite set_m_forwarder_forwarder.
    destruct (m_forwarder this); [|done].
    by rewrite conn_disconnect_forwarder.
  - case_decide; [|done]. subst. unfold forwarder_of. by rewrite Hc.
Qed.

Lemma disconnect_peer c w g :
  peer_of (connectToForwarder c None w) g
  = match forwarder_of w c with
    | Some (Some old) =>
        if decide (old = g) then (λ _, None) <$> peer_of w g else peer_of w g
    | _ => peer_of w g
    end.
Proof.
  unfold connectToForwarder, forwarder_of at 1.
  destruct (clients w !! c) as [this|]; [|done]. simpl.
  destruct (m_forwarder this) as [old|]; [|done].
  change (peer_of (conn_disconnect c (setPeer old None w)) g
          = if decide (old = g) then (λ _, None) <$> peer_of w g
            else peer_of w g).
  by rewrite conn_disconnect_peer, setPeer_peer.
Qed.

(** Running the handlers of a signal that announces [CLOSED]: a client
    that points at the forwarder and whose handler is still to run, or has
    run, ends up disconnected. *)
Lemma handlers_closed f c (old : TransportState) handlers w :
  state_of w f = Some CLOSED →
  (forwarder_of w c = Some None ∧ peer_of w f = Some None)
  ∨ (forwarder_of w c = Some (Some f) ∧ c ∈ handlers) →
  let w' := foldl (λ w c, stateChangeHandler c old CLOSED w) w handlers in
  state_of w' f = Some CLOSED
  ∧ forwarder_of w' c = Some None
  ∧ peer_of w' f = Some None.
Proof.
  revert w. induction handlers as [|c' handlers IH]; intros w Hstate Hinv.
  { destruct Hinv as [[? ?]|[_ Hin]]; [done|]. by apply elem_of_nil in Hin. }
  simpl. apply IH.
  - unfold stateChangeHandler. simpl. by rewrite disconnect_state.
  - unfold stateChangeHandler. simpl.
    rewrite disconnect_forwarder, disconnect_peer.
    assert (is_Some (peer_of w f)) as [peer Hpeer].
    { unfold peer_of, state_of in *.
      destruct (forwarders w !! f); [by eexists|done]. }
    destruct Hinv as [[Hfwd Hnone]|[Hfwd Hin]].
    + left. split.
      * case_decide; [|done]. by rewrite Hfwd.
      * destruct (forwarder_of w c') as [[old'|]|]; try done.
        case_decide; [|done]. by rewrite Hnone.
    + apply elem_of_cons in Hin as [->|Hin].
      * left. rewrite Hfwd. repeat case_decide; try done. by rewrite Hpeer.
      * destruct (decide (c' = c)) as [->|Hne].
        -- left. rewrite Hfwd. repeat case_decide; try done. by rewrite Hpeer.
        -- right. done.
Qed.

(** C8.  [doSend] delivers a packet by calling [receivePacket] of the
    connected peer, and does nothing when no peer is connected.  When the
    state of the forwarder-side transport changes to [CLOSED], a client
    transport that is connected to it (it points at the forwarder and its
    handler is connected to the forwarder's signal) ends up with its
    forwarder pointer cleared, and the forwarder's peer pointer is cleared
    as well. *)
Theorem internal_transport_spec w f this :
  forwarders w !! f = Some this →
  (∀ packet,
     (∀ peer, m_peer this = Some peer →
        doSend f packet w = client_receivePacket peer packet w)
     ∧ (m_peer this = None → doSend f packet w = w))
  ∧ (∀ c client,
       m_state this ≠ CLOSED →
       clients w !! c = Some client →
       m_forwarder client = Some f →
       c ∈ afterStateChange this →
       let w' := setState f CLOSED w in
       (∃ this', forwarders w' !! f = Some this'
                 ∧ m_state this' = CLOSED ∧ m_peer this' = None)
       ∧ (∃ client', clients w' !! c = Some client'
                     ∧ m_forwarder client' = None)).
Proof.
  intros Hf. split.
  - intros packet. unfold doSend. rewrite Hf. split.
    + by intros peer ->.
    + by intros ->.
  - intros c client Hopen Hc Hfwd Hin. unfold setState. rewrite Hf.
    rewrite decide_False by done. cbv zeta.
    match goal with |- context [foldl _ ?w0 _] => set (w1 := w0) end.
    destruct (handlers_closed f c (m_state this) (afterStateChange this) w1)
      as (Hstate & Hforwarder & Hpeer).
    { unfold state_of, w1. simpl. by rewrite lookup_insert_eq. }
    { right. split; [|done]. unfold forwarder_of, w1. simpl.
      rewrite Hc. simpl. by rewrite Hfwd. }
    unfold state_of, peer_of, forwarder_of in *.
    match goal with |- context [foldl ?h w1 ?l] =>
      destruct (forwarders (foldl h w1 l) !! f) as [this'|]; [|done];
      destruct (clients (foldl h w1 l) !! c) as [client'|]; [|done] end.
    simpl in *. split; [exists this'|exists client']; split_and!; congruence.
Qed.

End InternalTransport.

Section SampleInternalTransport.
Import SampleTransport.

Example connected_pointers :
  peer_of connected 0 = Some (Some 0)
  ∧ forwarder_of connected 0 = Some (Some 0)
  ∧ afterStateChange <$> forwarders connected !! 0 = Some [0].
Proof. by vm_compute. Qed.

Example doSend_delivers :
  ioService (doSend 0 packet connected) = [task_client_receive 0 packet].
Proof. by vm_compute. Qed.

Example doSend_drops : doSend 0 packet world0 = world0.
Proof. by vm_compute. Qed.

Example doClose_disconnects :
  peer_of (doClose 0 connected) 0 = Some None
  ∧ forwarder_of (doClose 0 connected) 0 = Some None.
Proof. by vm_compute. Qed.

Lemma internal_transport_spec_witness :
  forwarders connected !! 0 = Some (mkForwarderTransport (Some 0) UP [0])
  ∧ clients connected !! 0 = Some (mkClientTransport (Some 0) (Some 0))
  ∧ doSend 0 packet connected = client_receivePacket 0 packet connected
  ∧ ∃ client', clients (setState 0 CLOSED connected) !! 0 = Some client'
               ∧ m_forwarder client' = None.
Proof.
  assert (forwarders connected !! 0 = Some (mkForwarderTransport (Some 0) UP [0]))
    as Hf by (by vm_compute).
  assert (clients connected !! 0 = Some (mkClientTransport (Some 0) (Some 0)))
    as Hc by (by vm_compute).
  destruct (internal_transport_spec connected 0 _ Hf) as [Hsend Hclose].
  split_and!; [exact Hf|exact Hc| |].
  - apply (proj1 (Hsend packet) 0). reflexivity.
  - destruct (Hclose 0 (mkClientTransport (Some 0) (Some 0)))
      as [_ Hclient]; [discriminate|exact Hc|reflexivity|simpl; left|].
    exact Hclient.
Defined.

End SampleInternalTransport.

(* ===================================================================== *)
(** * Part III: further properties of the embedded code                   *)
(* ===================================================================== *)

(** ** Instance names: what parsing keeps *)

Section ParseRoundTrip.
Context {C : Type} `{NC : NameComponent C}.
Implicit Types input sn params : Name C.

Lemma versioned_name_snoc sn :
  versioned_name sn →
  ∃ base v, sn = base ++ [v] ∧ base ≠ [] ∧ isVersion v = true.
Proof.
  intros [Hlen (v & Hlast & Hv)]. unfold atMinus1 in Hlast.
  apply last_Some in Hlast as [base ->]. exists base, v.
  split_and!; try done. intros ->. simpl in Hlen. lia.
Qed.

Lemma parseInstanceName_from_reassemble input i :
  strategyName (parseInstanceName_from input i)
  ++ parameters (parseInstanceName_from input i) = input.
Proof.
  induction i as [|i IH]; [apply app_nil_r|].
  rewrite parseInstanceName_from_S.
  destruct (input !! S i) as [c|]; [|done].
  destruct (isVersion c); [|done]. apply take_drop.
Qed.

Lemma parseInstanceName_compose (base : Name C) (v : C) params :
  base ≠ [] → isVersion v = true →
  (∀ c, c ∈ params → isVersion c = false) →
  parseInstanceName (base ++ [v] ++ params)
  = mkParsed (base ++ [v]) (Some (toVersion v)) params.
Proof.
  intros Hbase Hv Hparams. unfold parseInstanceName.
  rewrite (parseInstanceName_from_last _ _ (length base) v).
  - unfold getPrefix, getSubName.
    replace (length base + 1) with (length (base ++ [v]))
      by (rewrite length_app; simpl; lia).
    rewrite app_assoc, take_app_length, drop_app_length. done.
  - rewrite !length_app. simpl. destruct base; [done|simpl; lia].
  - rewrite lookup_app_r by lia. by rewrite Nat.sub_diag.
  - done.
  - intros j d [Hj _] Hd. apply Hparams.
    rewrite lookup_app_r in Hd by lia.
    destruct (j - length base) as [|n] eqn:E; [lia|]. simpl in Hd.
    apply list_elem_of_lookup. eauto.
Qed.

(** X1.  Parsing loses nothing: the strategy name followed by the parameters
    is the input again.  And parsing undoes composition: a strategy name of
    at least two components that ends in a version component, followed by
    parameters without version components, is parsed back into that strategy
    name, the number of its version component and those parameters. *)
Theorem parseInstanceName_roundtrip input :
  strategyName (parseInstanceName input) ++ parameters (parseInstanceName input)
  = input
  ∧ (∀ base v params,
       input = base ++ [v] ++ params → base ≠ [] → isVersion v = true →
       (∀ c, c ∈ params → isVersion c = false) →
       parseInstanceName input
       = mkParsed (base ++ [v]) (Some (toVersion v)) params).
Proof.
  split; [apply parseInstanceName_from_reassemble|].
  intros base v params -> Hbase Hv Hparams.
  by apply parseInstanceName_compose.
Qed.

End ParseRoundTrip.

(** ** Registration and lookup *)

Section Registration.
Context {C : Type} `{NC : NameComponent C} {Forwarder : Type}.
Implicit Types registry : Registry C (Forwarder := Forwarder).
Implicit Types k sn : Name C.
Implicit Types f g : CreateFunc C (Forwarder := Forwarder).

Lemma registry_insert_keys k f registry k0 :
  k0 ∈ registry_keys (registry_insert k f registry)
  ↔ k0 = k ∨ k0 ∈ registry_keys registry.
Proof.
  unfold registry_keys.
  induction registry as [|[k' f'] rest IH]; simpl.
  - rewrite list_elem_of_singleton, elem_of_nil. tauto.
  - destruct (name_compare k k') eqn:E; simpl.
    + apply name_compare_eq in E as ->. rewrite !elem_of_cons. tauto.
    + rewrite !elem_of_cons. tauto.
    + rewrite !elem_of_cons, IH. tauto.
Qed.

Lemma registry_insert_sorted k f registry :
  registry_sorted registry → registry_sorted (registry_insert k f registry).
Proof.
  unfold registry_sorted.
  induction registry as [|[k' f'] rest IH]; intros Hs.
  - repeat constructor.
  - cbn [registry_insert]. cbn in Hs.
    apply StronglySorted_inv in Hs as [Hs Hall].
    destruct (name_compare k k') eqn:E.
    + apply name_compare_eq in E as ->. by constructor.
    + cbn. constructor; [by constructor|]. constructor; [done|].
      eapply Forall_impl; [exact Hall|]. intros x Hx.
      by eapply name_lt_trans.
    + change (registry_keys ((k', f') :: registry_insert k f rest))
        with (k' :: registry_keys (registry_insert k f rest)).
      constructor; [by apply IH|].
      apply Forall_forall. intros x [->|Hx]%registry_insert_keys.
      * unfold name_lt. rewrite (name_compare_antisym k k'), E. done.
      * rewrite Forall_forall in Hall. by apply Hall.
Qed.

Lemma registry_insert_elem k f registry :
  (k, f) ∈ registry_insert k f registry.
Proof.
  induction registry as [|[k' f'] rest IH]; simpl; [by left|].
  destruct (name_compare k k'); [by left|by left|by right].
Qed.

Lemma registry_insert_others k f registry k0 g :
  k0 ≠ k → (k0, g) ∈ registry → (k0, g) ∈ registry_insert k f registry.
Proof.
  intros Hne. induction registry as [|[k' f'] rest IH]; simpl.
  - by intros ?%elem_of_nil.
  - destruct (name_compare k k') eqn:E.
    + apply name_compare_eq in E as <-.
      intros [[=]|?]%elem_of_cons; [done|by right].
    + intros ?. by right.
    + intros [->|?]%elem_of_cons; [by left|]. right. by apply IH.
Qed.

Lemma registered_existsb registry sn :
  existsb (λ e, match name_compare e.1 sn with Eq => true | _ => false end)
          registry = true
  ↔ sn ∈ registry_keys registry.
Proof.
  rewrite existsb_exists. unfold registry_keys. rewrite list_elem_of_fmap.
  split.
  - intros ([k f] & Hin & Heq). simpl in Heq.
    destruct (name_compare k sn) eqn:E; try done.
    apply name_compare_eq in E as ->. exists (sn, f).
    split; [done|]. by apply list_elem_of_In.
  - intros ([k f] & -> & Hin). exists (k, f).
    split; [by apply list_elem_of_In|]. simpl. by rewrite name_compare_refl.
Qed.

(** On a sorted registry [lower_bound] of a registered name is the position
    of its entry. *)
Lemma lower_bound_at registry i k :
  registry_sorted registry →
  registry_keys registry !! i = Some k → lower_bound registry k = i.
Proof.
  unfold registry_sorted, registry_keys. revert i.
  induction registry as [|[k1 f1] rest IH]; intros i Hs Hi; [done|].
  cbn in Hs, Hi. apply StronglySorted_inv in Hs as [Hs Hall].
  destruct i as [|i]; simpl in *.
  - injection Hi as ->. unfold name_ltb. by rewrite name_compare_refl.
  - rewrite Forall_forall in Hall.
    assert (name_lt k1 k) as Hlt.
    { apply Hall, list_elem_of_lookup. eauto. }
    apply name_ltb_lt in Hlt. rewrite Hlt. f_equal. by apply IH.
Qed.

Lemma parseInstanceName_versioned_name sn :
  versioned_name sn →
  ∃ v, parseInstanceName sn = mkParsed sn (Some v) [].
Proof.
  intros (base & v & -> & Hbase & Hv)%versioned_name_snoc.
  exists (toVersion v). unfold parseInstanceName.
  rewrite (parseInstanceName_from_last _ _ (length base) v).
  - unfold getPrefix, getSubName.
    rewrite take_ge, drop_ge by (rewrite length_app; simpl; lia). done.
  - rewrite length_app. simpl. destruct base; [done|simpl; lia].
  - rewrite lookup_app_r by lia. by rewrite Nat.sub_diag.
  - done.
  - intros j d [Hj Hj'] _. rewrite length_app in Hj'. simpl in Hj'. lia.
Qed.

Lemma find_at registry i k :
  registry_sorted registry → versioned_name k →
  registry_keys registry !! i = Some k → find registry k = i.
Proof.
  intros Hs Hk Hi. unfold find.
  destruct (parseInstanceName_versioned_name k Hk) as [v ->]. simpl.
  rewrite (lower_bound_at _ _ _ Hs Hi), (key_at_lookup _ _ _ Hi).
  pose proof (lookup_lt_Some _ _ _ Hi) as Hlt.
  unfold registry_keys in Hlt. rewrite length_fmap in Hlt.
  fold (registry_end registry) in Hlt.
  destruct (Nat.eqb_spec i (registry_end registry)); [lia|]. simpl.
  assert (isPrefixOf (getPrefixMinus1 k) k = true) as ->; [|done].
  apply isPrefixOf_spec. exists (drop (length k - 1) k).
  unfold getPrefixMinus1. by rewrite take_drop.
Qed.

(** X2.  A registered name is found at its own entry: on a registry in key
    order, for an entry whose name passed the assertions of [registerType],
    [find] of that name returns the iterator to that very entry, [canCreate]
    holds, and [create] runs the constructor of the entry on the name. *)
Theorem find_registered_entry registry i k f (forwarder : Forwarder) :
  registry_sorted registry → versioned_name k →
  registry !! i = Some (k, f) →
  find registry k = i
  ∧ canCreate registry k = true
  ∧ create registry k forwarder
    = match f forwarder k with
      | ctor_throws => create_throws
      | ctor_instance instance =>
          match m_name instance with
          | [] => create_assert_fails
          | _ :: _ => create_instance instance
          end
      end.
Proof.
  intros Hs Hk Hi.
  assert (registry_keys registry !! i = Some k) as Hkey.
  { apply lookup_registry_keys. eauto. }
  pose proof (find_at registry i k Hs Hk Hkey) as Hfind.
  pose proof (lookup_lt_Some _ _ _ Hi) as Hlt.
  change (i < registry_end registry) in Hlt.
  unfold canCreate, create. cbv zeta. rewrite Hfind.
  destruct (Nat.eqb_spec i (registry_end registry)); [lia|].
  split_and!; try done.
  destruct (registry !! i) as [[k' f']|]; [|done].
  by injection Hi as -> ->.
Qed.

(** X3.  [registerType] keeps the registry well formed and adds exactly the
    registered name: it is refused exactly when the name has fewer than two
    components, does not end in a version component or is registered
    already; otherwise the keys stay in order and pass the assertions, the
    registered names are the old ones and the new one, the entries of the
    other names are kept, and [find] of the new name returns the iterator to
    the new entry. *)
Theorem registerType_spec registry sn f :
  registry_wf registry →
  (registerType sn f registry = None
   ↔ ¬ versioned_name sn ∨ sn ∈ listRegistered registry)
  ∧ (∀ registry',
       registerType sn f registry = Some registry' →
       registry_wf registry'
       ∧ (∀ k, k ∈ listRegistered registry'
               ↔ k = sn ∨ k ∈ listRegistered registry)
       ∧ (∀ k g, (k, g) ∈ registry → (k, g) ∈ registry')
       ∧ ∃ i, registry' !! i = Some (sn, f) ∧ find registry' sn = i).
Proof.
  intros [Hs Hwf]. unfold registerType, listRegistered, versioned_name.
  destruct (Nat.ltb_spec 1 (length sn)) as [Hlen|Hlen]; simpl; last first.
  { split; [|done]. split; [intros _|done]. left. intros [? _]. lia. }
  destruct (atMinus1 sn) as [v|] eqn:Hlast; last first.
  { split; [|done]. split; [intros _|done]. left. by intros [_ (? & ? & _)]. }
  destruct (isVersion v) eqn:Hv; simpl; last first.
  { split; [|done]. split; [intros _|done]. left.
    intros [_ (v' & [= <-] & ?)]. congruence. }
  destruct (existsb _ registry) eqn:Hex.
  { apply registered_existsb in Hex. split; [|done].
    split; [intros _; by right|done]. }
  assert (sn ∉ registry_keys registry) as Hfresh.
  { intros Hin%registered_existsb. congruence. }
  split.
  { split; [done|]. intros [Hno|?]; [|done]. exfalso. apply Hno. eauto. }
  intros registry' [= <-].
  assert (versioned_name sn) as Hsn by (split; eauto).
  pose proof (registry_insert_sorted sn f registry Hs) as Hs'.
  split_and!.
  - split; [done|]. intros k [->|?]%registry_insert_keys; auto.
  - intros k. apply registry_insert_keys.
  - intros k g Hin. apply registry_insert_others; [|done]. intros ->.
    apply Hfresh. unfold registry_keys. apply list_elem_of_fmap.
    by exists (sn, g).
  - pose proof (registry_insert_elem sn f registry) as Hin.
    apply list_elem_of_lookup in Hin as [i Hi]. exists i. split; [done|].
    apply find_at; try done. apply lookup_registry_keys. eauto.
Qed.

(** X4.  [areSameType] compares what [find] resolves to.  Parameters after
    the version component do not matter (when they hold no version
    component).  Two names that are the same type can both be created or
    both not, and resolve to the same registered name.  Two names that
    cannot be created count as the same type. *)
Theorem areSameType_spec registry (a b : Name C) :
  (∀ base v params,
     a = base ++ [v] → b = a ++ params → base ≠ [] → isVersion v = true →
     (∀ c, c ∈ params → isVersion c = false) →
     areSameType registry a b = true)
  ∧ (areSameType registry a b = true →
     canCreate registry a = canCreate registry b
     ∧ found_name registry a = found_name registry b)
  ∧ (canCreate registry a = false → canCreate registry b = false →
     areSameType registry a b = true).
Proof.
  unfold areSameType, canCreate, found_name. split_and!.
  - intros base v params -> -> Hbase Hv Hparams. apply Nat.eqb_eq.
    unfold find. rewrite <- app_assoc.
    rewrite (parseInstanceName_compose base v params) by done.
    pose proof (parseInstanceName_compose base v [] Hbase Hv) as Hparse.
    rewrite app_nil_r in Hparse. rewrite Hparse; [done|].
    intros c Hc. by apply elem_of_nil in Hc.
  - intros ->%Nat.eqb_eq. done.
  - intros Ha Hb. apply Nat.eqb_eq.
    apply negb_false_iff, Nat.eqb_eq in Ha, Hb. congruence.
Qed.

End Registration.

(** ** Sending Data: what is left in the PIT entry *)

Section SendDataMore.
Context {C : Type} `{NC : NameComponent C}.
Implicit Types st : FwState C.
Implicit Types rs : list (InRecord C).
Implicit Types faces pending : list Face.

Definition face_id_of (r : InRecord C) : FaceId := face_getId (in_face r).

(** The test of the first loop of [sendDataToAll] as a boolean. *)
Definition is_pending (now : Z) (inFace : Face) (r : InRecord C) : bool :=
  (now <? in_expiry r)%Z
  && negb ((face_getId (in_face r) =? face_getId inFace)%N
           && negb (bool_decide
                      (face_getLinkType (in_face r) = LINK_TYPE_AD_HOC))).

Lemma is_pending_spec now inFace r :
  is_pending now inFace r = true ↔ pending_inRecord now inFace r.
Proof.
  unfold is_pending, pending_inRecord.
  rewrite andb_true_iff, negb_true_iff, andb_false_iff, negb_false_iff,
    Z.ltb_lt, N.eqb_neq, bool_decide_eq_true.
  split; intros [? H]; (split; [done|]).
  - intros [? ?]. by destruct H.
  - destruct (decide (face_getId (in_face r) = face_getId inFace)); [|by left].
    right. destruct (decide (face_getLinkType (in_face r) = LINK_TYPE_AD_HOC));
      [done|]. exfalso. by apply H.
Qed.

Lemma filter_all_true {A} (p : A → bool) (l : list A) :
  (∀ x, x ∈ l → p x = true) → List.filter p l = l.
Proof.
  induction l as [|x l IH]; intros Hall; simpl; [done|].
  rewrite (Hall x) by left. f_equal. apply IH. intros y Hy. apply Hall. by right.
Qed.

Lemma filter_both {A} (p q : A → bool) (l : list A) :
  List.filter q (List.filter p l) = List.filter (λ x, p x && q x) l.
Proof.
  induction l as [|x l IH]; simpl; [done|].
  destruct (p x); simpl; [|done]. destruct (q x); by rewrite IH.
Qed.

Lemma filter_same_on {A} (p q : A → bool) (l : list A) :
  (∀ x, x ∈ l → p x = q x) → List.filter p l = List.filter q l.
Proof.
  intros H. apply filter_ext_in. intros x Hx. apply H. by apply list_elem_of_In.
Qed.

Lemma elem_of_filter_bool {A} (p : A → bool) (l : list A) (x : A) :
  x ∈ List.filter p l ↔ x ∈ l ∧ p x = true.
Proof. rewrite !list_elem_of_In. apply filter_In. Qed.

Lemma NoDup_map_filter {A B} (g : A → B) (p : A → bool) (l : list A) :
  NoDup (map g l) → NoDup (map g (List.filter p l)).
Proof.
  induction l as [|x l IH]; simpl; [done|].
  intros [Hnotin Hnd]%NoDup_cons. destruct (p x); simpl; [|by apply IH].
  apply NoDup_cons. split; [|by apply IH].
  intros (y & Hy & [Hin _]%elem_of_filter_bool)%list_elem_of_fmap.
  apply Hnotin, list_elem_of_fmap. eauto.
Qed.

Lemma NoDup_map_inj_on {A B} (g : A → B) (l : list A) (x y : A) :
  NoDup (map g l) → x ∈ l → y ∈ l → g x = g y → x = y.
Proof.
  induction l as [|z l IH]; simpl; [by intros _ ?%elem_of_nil|].
  intros [Hnotin Hnd]%NoDup_cons [->|Hx]%elem_of_cons [->|Hy]%elem_of_cons Heq;
    try done.
  - exfalso. apply Hnotin. rewrite Heq. apply list_elem_of_fmap. eauto.
  - exfalso. apply Hnotin. rewrite <- Heq. apply list_elem_of_fmap. eauto.
  - by apply IH.
Qed.

(** With one in-record per face, deleting the in-record of a face leaves
    the in-records of the other faces. *)
Lemma erase_first_filter (f : Face) rs :
  NoDup (map face_id_of rs) →
  erase_first f rs = List.filter (λ r, negb (same_face f r)) rs.
Proof.
  induction rs as [|r rs IH]; simpl; [done|].
  intros [Hnotin Hnd]%NoDup_cons.
  destruct (same_face f r) eqn:Hsame; simpl; [|by rewrite IH].
  symmetry. apply filter_all_true. intros r' Hr'.
  apply negb_true_iff, not_true_iff_false. intros Hsame'.
  apply same_face_id in Hsame, Hsame'. apply Hnotin.
  apply list_elem_of_fmap. exists r'. split; [|done].
  unfold face_id_of. congruence.
Qed.

Lemma sendData_each_pit faces st :
  pit_one_inRecord_per_face (st_pit st) →
  pit_inRecords (st_pit (sendData_each faces st).2)
  = List.filter (λ r, negb (existsb (λ f, same_face f r) faces))
                (pit_inRecords (st_pit st))
  ∧ pit_interest (st_pit (sendData_each faces st).2) = pit_interest (st_pit st)
  ∧ m_workerId (st_pit (sendData_each faces st).2) = m_workerId (st_pit st)
  ∧ pit_nodeHash (st_pit (sendData_each faces st).2) = pit_nodeHash (st_pit st).
Proof.
  unfold pit_one_inRecord_per_face. revert st.
  induction faces as [|f faces IH]; intros st Hone; simpl.
  - split; [|done]. symmetry. by apply filter_all_true.
  - unfold bind. rewrite sendData_run.
    match goal with |- context [sendData_each faces ?s] =>
      destruct (IH s) as (-> & -> & -> & ->) end.
    + simpl. rewrite erase_first_filter by done.
      by apply (NoDup_map_filter face_id_of).
    + simpl. rewrite erase_first_filter by done. split; [|done].
      rewrite filter_both. apply filter_same_on. intros r _.
      by rewrite negb_orb.
Qed.

Lemma pendingDownstreams_keep now inFace rs pending :
  (∀ r, r ∈ rs → is_pending now inFace r = false) →
  pendingDownstreams now inFace rs pending = pending.
Proof.
  revert pending. induction rs as [|r rs IH]; intros pending Hnone; [done|].
  assert (is_pending now inFace r = false) as Hr by (apply Hnone; left).
  assert (∀ r', r' ∈ rs → is_pending now inFace r' = false) as Hrs.
  { intros r' ?. apply Hnone. by right. }
  simpl. unfold is_pending in Hr.
  destruct (now <? in_expiry r)%Z; simpl in Hr; [|by apply IH].
  apply negb_false_iff in Hr. rewrite Hr. by apply IH.
Qed.

(** The faces served by [sendDataToAll] are those of the pending
    in-records. *)
Lemma pendingDownstreams_served now inFace (pitEntry : PitEntry C) r :
  pit_one_inRecord_per_face pitEntry →
  r ∈ pit_inRecords pitEntry →
  existsb (λ f, same_face f r)
          (pendingDownstreams now inFace (pit_inRecords pitEntry) [])
  = is_pending now inFace r.
Proof.
  intros Hone Hr.
  destruct (pendingDownstreams_spec now inFace (pit_inRecords pitEntry) [])
    as (_ & Hfrom & _ & Hall); [constructor|].
  apply eq_true_iff_eq. rewrite existsb_exists, is_pending_spec. split.
  - intros (f & Hf & Hsame). apply list_elem_of_In, Hfrom in Hf.
    destruct Hf as [Hf|(r' & Hr' & <- & Hpending)]; [by apply elem_of_nil in Hf|].
    apply same_face_id in Hsame.
    by rewrite (NoDup_map_inj_on _ _ r r' Hone Hr Hr' Hsame).
  - intros Hpending. specialize (Hall r Hr Hpending).
    apply list_elem_of_fmap in Hall as (f & Hid & Hf).
    exists f. split; [by apply list_elem_of_In|]. by apply same_face_id.
Qed.

(** X5.  With at most one in-record per face, [sendDataToAll] removes from
    the PIT entry exactly the in-records it serves: what is left are the
    in-records that were not pending (expired, or of the ingress face when
    that is not ad hoc), in their order; the rest of the PIT entry is as
    before, and there is still at most one in-record per face. *)
Theorem sendDataToAll_inRecords (now : Z) (inFace : Face) st :
  pit_one_inRecord_per_face (st_pit st) →
  let pitEntry' := st_pit (sendDataToAll now inFace st).2 in
  pit_inRecords pitEntry'
  = List.filter (λ r, negb (is_pending now inFace r))
                (pit_inRecords (st_pit st))
  ∧ pit_one_inRecord_per_face pitEntry'
  ∧ pit_interest pitEntry' = pit_interest (st_pit st)
  ∧ m_workerId pitEntry' = m_workerId (st_pit st)
  ∧ pit_nodeHash pitEntry' = pit_nodeHash (st_pit st).
Proof.
  intros Hone. unfold sendDataToAll, bind, gets. cbv zeta.
  match goal with |- context [sendData_each ?fs st] =>
    destruct (sendData_each_pit fs st Hone) as (Hrs & Hi & Hw & Hh) end.
  assert (pit_inRecords (st_pit (sendData_each
            (pendingDownstreams now inFace (pit_inRecords (st_pit st)) []) st).2)
          = List.filter (λ r, negb (is_pending now inFace r))
                        (pit_inRecords (st_pit st))) as Hleft.
  { rewrite Hrs. apply filter_same_on. intros r Hr.
    by rewrite pendingDownstreams_served. }
  split_and!; try done.
  unfold pit_one_inRecord_per_face. rewrite Hleft.
  by apply (NoDup_map_filter face_id_of).
Qed.

(** X6.  Serving is not repeated: with at most one in-record per face,
    after [sendDataToAll] a further [sendDataToAll] for the same ingress
    face at the same or a later clock reading finds no pending downstream;
    it sends nothing and leaves the state as it is. *)
Theorem sendDataToAll_again (now now' : Z) (inFace : Face) st :
  pit_one_inRecord_per_face (st_pit st) → (now ≤ now')%Z →
  let st' := (sendDataToAll now inFace st).2 in
  sendDataToAll now' inFace st' = ((), st').
Proof.
  intros Hone Hle. cbv zeta.
  unfold sendDataToAll at 1. unfold bind, gets.
  rewrite pendingDownstreams_keep; [done|].
  intros r Hr.
  assert (pit_inRecords (st_pit (sendDataToAll now inFace st).2)
          = List.filter (λ r, negb (is_pending now inFace r))
                        (pit_inRecords (st_pit st))) as Hleft.
  { unfold sendDataToAll, bind, gets.
    match goal with |- context [sendData_each ?fs st] =>
      destruct (sendData_each_pit fs st Hone) as (-> & _) end.
    apply filter_same_on. intros r0 Hr0. by rewrite pendingDownstreams_served. }
  rewrite Hleft in Hr. apply elem_of_filter_bool in Hr as [_ Hnot].
  apply negb_true_iff in Hnot. unfold is_pending in *.
  destruct (Z.ltb_spec now' (in_expiry r)); [|done].
  destruct (Z.ltb_spec now (in_expiry r)); [|lia]. done.
Qed.

(** X7.  A downstream that was answered from the content store is not
    answered again: with at most one in-record per face, after
    [afterContentStoreHit] has sent the Data to the ingress face, a later
    [afterReceiveData] (from whatever face) hands no Data to that face. *)
Theorem afterContentStoreHit_then_afterReceiveData
    (now : Z) (ingress upstream : Face) st :
  pit_one_inRecord_per_face (st_pit st) →
  let st1 := (afterContentStoreHit ingress st).2 in
  let st2 := (afterReceiveData now upstream st1).2 in
  ∃ d sends,
    st_trace st1 = st_trace st ++ [ev_onOutgoingData d ingress]
    ∧ st_trace st2
      = st_trace st1 ++ ev_beforeSatisfyInterest upstream :: sends
    ∧ ∀ d' f, ev_onOutgoingData d' f ∈ sends →
              face_getId f ≠ face_getId ingress.
Proof.
  intros Hone. cbv zeta. unfold afterContentStoreHit.
  rewrite sendData_run. cbn [snd st_trace].
  set (st1 := mkFwState _ _ _).
  unfold afterReceiveData, sendDataToAll, beforeSatisfyInterest, emit, modify,
    bind, gets. cbn [snd fst].
  match goal with |- context [sendData_each ?fs ?s] =>
    destruct (sendData_each_trace fs s) as (sends & Htrace & Hsends);
    set (faces := fs) in * end.
  eexists _, sends. split; [done|]. split.
  { rewrite Htrace. cbn [st_trace]. by rewrite <- app_assoc. }
  intros d' f Hin Hid.
  assert (f ∈ faces) as Hf.
  { clear -Hsends Hin. induction Hsends as [|ev g evs gs [d ->] _ IH].
    - by apply elem_of_nil in Hin.
    - apply elem_of_cons in Hin as [[= _ ->]|Hin]; [by left|].
      right. by apply IH. }
  destruct (pendingDownstreams_spec now upstream (pit_inRecords (st_pit st1)) [])
    as (_ & Hfrom & _); [constructor|].
  apply Hfrom in Hf as [Hf|(r & Hr & <- & _)]; [by apply elem_of_nil in Hf|].
  pose proof (erase_first_gone ingress (pit_inRecords (st_pit st)) Hone) as Hgone.
  apply list_elem_of_In in Hr.
  pose proof (find_none _ _ Hgone r Hr) as Hno.
  apply not_true_iff_false in Hno. apply Hno. by apply same_face_id.
Qed.

End SendDataMore.

(** ** Sending an Interest to several upstreams, and sending Nacks *)

Section SendMore.
Context {C : Type} `{NC : NameComponent C}.
Implicit Types st : FwState C.
Implicit Types interest : Interest C.


(** *** [sendNacks] *)

Variable onOutgoingNack : PitEntry C → Face → NackHeader → bool * PitEntry C.

Lemma set_erase_ids (g : Face) (s : list Face) (i : FaceId) :
  i ∈ ids (set_erase g s) ↔ i ∈ ids s ∧ i ≠ face_getId g.
Proof.
  unfold ids, set_erase. rewrite !list_elem_of_fmap. split.
  - intros (f & -> & [Hf Hne]%elem_of_filter_bool).
    apply negb_true_iff, N.eqb_neq in Hne. eauto.
  - intros [(f & -> & Hf) Hne]. exists f. split; [done|].
    apply elem_of_filter_bool. split; [done|].
    by apply negb_true_iff, N.eqb_neq.
Qed.

Lemma set_erase_all_spec (exceptFaces s : list Face) :
  NoDup (ids s) →
  let s' := foldl (λ s exceptFace, set_erase exceptFace s) s exceptFaces in
  NoDup (ids s')
  ∧ (∀ f, f ∈ s' → f ∈ s)
  ∧ (∀ i, i ∈ ids s' ↔ i ∈ ids s ∧ i ∉ ids exceptFaces).
Proof.
  revert s. induction exceptFaces as [|g rest IH]; intros s Hnd; simpl.
  - split_and!; try done. intros i. split; [|tauto]. intros ?. split; [done|].
    by intros ?%elem_of_nil.
  - destruct (IH (set_erase g s)) as (Hnd' & Hsub & Hids).
    { by apply (NoDup_map_filter face_getId). }
    split_and!; try done.
    + intros f Hf%Hsub. unfold set_erase in Hf.
      by apply elem_of_filter_bool in Hf as [? _].
    + intros i. rewrite Hids, set_erase_ids.
      change (ids (g :: rest)) with (face_getId g :: ids rest).
      rewrite elem_of_cons. tauto.
Qed.

Lemma downstreams_spec (rs : list (InRecord C)) (s : list Face) :
  NoDup (ids s) →
  let s' := foldl (λ s inR, set_emplace (in_face inR) s) s rs in
  NoDup (ids s')
  ∧ (∀ f, f ∈ s' → f ∈ s ∨ ∃ r, r ∈ rs ∧ in_face r = f)
  ∧ (∀ i, i ∈ ids s' ↔ i ∈ ids s ∨ ∃ r, r ∈ rs ∧ face_getId (in_face r) = i).
Proof.
  revert s. induction rs as [|r rs IH]; intros s Hnd; simpl.
  - split_and!; try done; [by left|]. intros i. split; [by left|].
    intros [?|(r & Hr & _)]; [done|]. by apply elem_of_nil in Hr.
  - destruct (IH (set_emplace (in_face r) s)) as (Hnd' & Hfrom & Hids).
    { by apply set_emplace_NoDup. }
    split_and!; try done.
    + intros f [Hf|(r' & Hr' & Heq)]%Hfrom.
      * apply set_emplace_elem in Hf as [?|[-> _]]; [by left|].
        right. exists r. split; [by left|done].
      * right. exists r'. split; [by right|done].
    + intros i. rewrite Hids, set_emplace_ids. split.
      * intros [[?| ->]|(r' & Hr' & Heq)]; [by left| |].
        -- right. exists r. split; [by left|done].
        -- right. exists r'. split; [by right|done].
      * intros [?|(r' & [->|Hr']%elem_of_cons & Heq)]; [by left; left| |].
        -- left. by right.
        -- right. eauto.
Qed.

Lemma sendNack_each_calls (downstreams : list Face) (header : NackHeader)
    (st : NackState C) :
  ns_calls (sendNack_each onOutgoingNack downstreams header st)
  = ns_calls st ++ map (λ f, call_sendNack f header) downstreams.
Proof.
  revert st. induction downstreams as [|f rest IH]; intros st; simpl.
  - by rewrite app_nil_r.
  - rewrite IH. unfold sendNack.
    destruct (onOutgoingNack (ns_pit st) f header) as [sent pitEntry]. simpl.
    by rewrite <- app_assoc.
Qed.

(** X9.  [sendNacks] calls [sendNack], with the given header, once for
    every face that has an in-record at the time of the call and is not
    among the excluded faces, and for no other face, whatever the outgoing
    Nack pipeline does to the PIT entry in between. *)
Theorem sendNacks_spec (header : NackHeader) (exceptFaces : list Face)
    (st : NackState C) :
  ∃ downstreams,
    ns_calls (sendNacks onOutgoingNack header exceptFaces st)
    = ns_calls st ++ map (λ f, call_sendNack f header) downstreams
    ∧ NoDup (ids downstreams)
    ∧ (∀ f, f ∈ downstreams →
         (∃ r, r ∈ pit_inRecords (ns_pit st) ∧ in_face r = f)
         ∧ face_getId f ∉ ids exceptFaces)
    ∧ (∀ r, r ∈ pit_inRecords (ns_pit st) →
         face_getId (in_face r) ∉ ids exceptFaces →
         face_getId (in_face r) ∈ ids downstreams).
Proof.
  unfold sendNacks. cbv zeta.
  destruct (downstreams_spec (pit_inRecords (ns_pit st)) [])
    as (Hnd & Hfrom & Hids); [constructor|].
  match goal with |- context [foldl _ ?s exceptFaces] =>
    destruct (set_erase_all_spec exceptFaces s Hnd) as (Hnd' & Hsub & Hids') end.
  eexists. split; [apply sendNack_each_calls|]. split_and!; try done.
  - intros f Hf. split.
    + apply Hsub, Hfrom in Hf as [Hf|?]; [|done]. by apply elem_of_nil in Hf.
    + assert (face_getId f ∈ ids (foldl (λ s exceptFace, set_erase exceptFace s)
                (foldl (λ s inR, set_emplace (in_face inR) s) []
                   (pit_inRecords (ns_pit st))) exceptFaces)) as Hi.
      { apply list_elem_of_fmap. eauto. }
      by apply Hids' in Hi as [_ ?].
  - intros r Hr Hnot. apply Hids'. split; [|done]. apply Hids. right. eauto.
Qed.

End SendMore.

(** ** The internal transport pair: the invariant of the pointers *)

Section TransportInvariant.
Implicit Types w : World.
Implicit Types f g : ForwarderRef.
Implicit Types c : ClientRef.

Definition handlers_of w f : option (list ClientRef) :=
  afterStateChange <$> forwarders w !! f.
Definition conn_of w c : option (option ForwarderRef) :=
  m_fwTransportStateConn <$> clients w !! c.

(** The pointers of a store are consistent when, for every client, the
    connection is to the forwarder it points at; the handlers connected to a
    forwarder's signal are those of the clients that point at it; and the
    peer of a forwarder points at it. *)
Definition world_wf w : Prop :=
  (∀ c, conn_of w c = forwarder_of w c)
  ∧ (∀ f hs c, handlers_of w f = Some hs → c ∈ hs →
       forwarder_of w c = Some (Some f))
  ∧ (∀ f hs c, handlers_of w f = Some hs →
       forwarder_of w c = Some (Some f) → c ∈ hs)
  ∧ (∀ f c, peer_of w f = Some (Some c) → forwarder_of w c = Some (Some f)).

(** *** The primitives, through the readings *)

Lemma setPeer_handlers f peer w g :
  handlers_of (setPeer f peer w) g = handlers_of w g.
Proof.
  unfold handlers_of, setPeer. simpl. rewrite lookup_alter.
  case_decide; [subst|done]. by destruct (forwarders w !! g).
Qed.

Lemma conn_disconnect_handlers c w g :
  handlers_of (conn_disconnect c w) g
  = match conn_of w c with
    | Some (Some f0) =>
        if decide (f0 = g) then filter (λ h, h ≠ c) <$> handlers_of w g
        else handlers_of w g
    | _ => handlers_of w g
    end.
Proof.
  unfold handlers_of, conn_of, conn_disconnect.
  destruct (clients w !! c) as [this|]; [|done]. simpl.
  destruct (m_fwTransportStateConn this) as [f0|]; [|done]. simpl.
  rewrite lookup_alter. case_decide; [subst|done].
  by destruct (forwarders w !! g).
Qed.

Lemma conn_disconnect_conn c w c' :
  conn_of (conn_disconnect c w) c'
  = if decide (c = c') then (λ _, None) <$> conn_of w c' else conn_of w c'.
Proof.
  unfold conn_of, conn_disconnect.
  destruct (clients w !! c) as [this|] eqn:Hc.
  - destruct (m_fwTransportStateConn this) as [f0|] eqn:Hconn; simpl.
    + rewrite lookup_insert. case_decide; [subst|done]. by rewrite Hc.
    + case_decide; [subst|done]. rewrite Hc. simpl. by rewrite Hconn.
  - case_decide; [subst|done]. by rewrite Hc.
Qed.

Lemma conn_connect_peer c f w g :
  peer_of (conn_connect c f w) g = peer_of w g.
Proof.
  unfold conn_connect. unfold peer_of at 1. simpl. rewrite lookup_alter.
  rewrite <- (conn_disconnect_peer c w g).
  unfold peer_of. case_decide; [subst|done].
  by destruct (forwarders (conn_disconnect c w) !! g).
Qed.

Lemma conn_connect_state c f w g :
  state_of (conn_connect c f w) g = state_of w g.
Proof.
  unfold conn_connect. unfold state_of at 1. simpl. rewrite lookup_alter.
  rewrite <- (conn_disconnect_state c w g).
  unfold state_of. case_decide; [subst|done].
  by destruct (forwarders (conn_disconnect c w) !! g).
Qed.

Lemma conn_connect_forwarder c f w c' :
  forwarder_of (conn_connect c f w) c' = forwarder_of w c'.
Proof.
  unfold conn_connect. unfold forwarder_of at 1. simpl. rewrite lookup_alter.
  rewrite <- (conn_disconnect_forwarder c w c').
  unfold forwarder_of. case_decide; [subst c'|done].
  by destruct (clients (conn_disconnect c w) !! c).
Qed.

Lemma conn_connect_handlers c f w g :
  handlers_of (conn_connect c f w) g
  = if decide (f = g)
    then (λ hs, hs ++ [c]) <$> handlers_of (conn_disconnect c w) g
    else handlers_of (conn_disconnect c w) g.
Proof.
  unfold conn_connect. unfold handlers_of at 1. simpl. rewrite lookup_alter.
  unfold handlers_of. case_decide; [subst|done].
  by destruct (forwarders (conn_disconnect c w) !! g).
Qed.

Lemma conn_connect_conn c f w c' :
  conn_of (conn_connect c f w) c'
  = if decide (c = c') then (λ _, Some f) <$> conn_of w c' else conn_of w c'.
Proof.
  unfold conn_connect. unfold conn_of at 1. simpl. rewrite lookup_alter.
  pose proof (conn_disconnect_conn c w c') as Hd. unfold conn_of in *.
  revert Hd. destruct (decide (c = c')) as [<-|Hne]; intros Hd; [|done].
  destruct (clients (conn_disconnect c w) !! c), (clients w !! c);
    simpl in *; congruence.
Qed.

Lemma set_m_forwarder_conn c x w c' :
  conn_of (set_m_forwarder c x w) c' = conn_of w c'.
Proof.
  unfold conn_of, set_m_forwarder. simpl. rewrite lookup_alter.
  case_decide; [subst|done]. by destruct (clients w !! c').
Qed.

(** *** [connectToForwarder], through the readings *)

Lemma connect_absent c fwd w :
  forwarder_of w c = None → connectToForwarder c fwd w = w.
Proof.
  unfold forwarder_of, connectToForwarder.
  by destruct (clients w !! c).
Qed.

Lemma connect_forwarder c fwd w c' :
  forwarder_of (connectToForwarder c fwd w) c'
  = if decide (c = c') then (λ _, fwd) <$> forwarder_of w c'
    else forwarder_of w c'.
Proof.
  unfold connectToForwarder.
  destruct (clients w !! c) as [this|] eqn:Hc; last first.
  { case_decide; [subst|done]. unfold forwarder_of. by rewrite Hc. }
  assert (∀ w0, forwarder_of w0 c' = forwarder_of w c' →
    forwarder_of
      (match fwd with
       | Some f => conn_connect c f (setPeer f (Some c) (set_m_forwarder c fwd w0))
       | None => set_m_forwarder c fwd w0
       end) c'
    = if decide (c = c') then (λ _, fwd) <$> forwarder_of w c'
      else forwarder_of w c') as Hrest.
  { intros w0 Hw0. destruct fwd as [f|].
    - rewrite conn_connect_forwarder.
      change (forwarder_of (setPeer f (Some c) (set_m_forwarder c (Some f) w0)) c')
        with (forwarder_of (set_m_forwarder c (Some f) w0) c').
      by rewrite set_m_forwarder_forwarder, Hw0.
    - by rewrite set_m_forwarder_forwarder, Hw0. }
  destruct (m_forwarder this) as [old|]; apply Hrest; [|done].
  by rewrite conn_disconnect_forwarder.
Qed.

Lemma connect_state c fwd w g :
  state_of (connectToForwarder c fwd w) g = state_of w g.
Proof.
  unfold connectToForwarder.
  destruct (clients w !! c) as [this|]; [|done].
  assert (∀ w0, state_of w0 g = state_of w g →
    state_of
      (match fwd with
       | Some f => conn_connect c f (setPeer f (Some c) (set_m_forwarder c fwd w0))
       | None => set_m_forwarder c fwd w0
       end) g = state_of w g) as Hrest.
  { intros w0 Hw0. destruct fwd as [f|]; [|done].
    by rewrite conn_connect_state, setPeer_state. }
  destruct (m_forwarder this) as [old|]; apply Hrest; [|done].
  by rewrite conn_disconnect_state, setPeer_state.
Qed.

Lemma connect_peer c fwd w g old :
  forwarder_of w c = Some old →
  peer_of (connectToForwarder c fwd w) g
  = (if decide (fwd = Some g) then fmap (λ _, Some c) else id)
      ((if decide (old = Some g) then fmap (λ _, None) else id) (peer_of w g)).
Proof.
  unfold connectToForwarder, forwarder_of.
  destruct (clients w !! c) as [this|]; [|done]. simpl. intros [= <-].
  assert (∀ w0 p, peer_of w0 g = p →
    peer_of
      (match fwd with
       | Some f => conn_connect c f (setPeer f (Some c) (set_m_forwarder c fwd w0))
       | None => set_m_forwarder c fwd w0
       end) g
    = (if decide (fwd = Some g) then fmap (λ _, Some c) else id) p) as Hrest.
  { intros w0 p <-. destruct fwd as [f|].
    - rewrite conn_connect_peer, setPeer_peer.
      change (peer_of (set_m_forwarder c (Some f) w0) g) with (peer_of w0 g).
      destruct (decide (f = g)) as [->|Hne].
      + by rewrite decide_True.
      + rewrite decide_False; [done|congruence].
    - by rewrite decide_False. }
  destruct (m_forwarder this) as [old|]; apply Hrest.
  - rewrite conn_disconnect_peer, setPeer_peer.
    destruct (decide (old = g)) as [->|Hne].
    + by rewrite decide_True.
    + rewrite decide_False; [done|congruence].
  - by rewrite decide_False.
Qed.

Lemma connect_handlers c fwd w g old :
  forwarder_of w c = Some old → conn_of w c = Some old →
  handlers_of (connectToForwarder c fwd w) g
  = (if decide (fwd = Some g) then fmap (λ hs, hs ++ [c]) else id)
      ((if decide (old = Some g) then fmap (filter (λ h, h ≠ c)) else id)
         (handlers_of w g)).
Proof.
  intros Hfwd Hconn. unfold connectToForwarder.
  unfold forwarder_of in Hfwd.
  destruct (clients w !! c) as [this|] eqn:Hc; [|done].
  simpl in Hfwd. injection Hfwd as Hold.
  assert (∀ w0 hs, handlers_of w0 g = hs → conn_of w0 c = Some None →
    handlers_of
      (match fwd with
       | Some f => conn_connect c f (setPeer f (Some c) (set_m_forwarder c fwd w0))
       | None => set_m_forwarder c fwd w0
       end) g
    = (if decide (fwd = Some g) then fmap (λ hs, hs ++ [c]) else id) hs)
    as Hrest.
  { intros w0 hs <- Hnone. destruct fwd as [f|].
    - rewrite conn_connect_handlers, conn_disconnect_handlers.
      assert (conn_of (setPeer f (Some c) (set_m_forwarder c (Some f) w0)) c
              = Some None) as ->.
      { change (conn_of (setPeer f (Some c) (set_m_forwarder c (Some f) w0)) c)
          with (conn_of (set_m_forwarder c (Some f) w0) c).
        by rewrite set_m_forwarder_conn. }
      rewrite setPeer_handlers.
      change (handlers_of (set_m_forwarder c (Some f) w0) g)
        with (handlers_of w0 g).
      destruct (decide (f = g)) as [->|Hne].
      + by rewrite decide_True.
      + rewrite decide_False; [done|congruence].
    - by rewrite decide_False. }
  rewrite Hold. destruct old as [old|]; apply Hrest.
  - rewrite conn_disconnect_handlers.
    change (conn_of (setPeer old None w) c) with (conn_of w c).
    rewrite Hconn, setPeer_handlers.
    destruct (decide (old = g)) as [->|Hne].
    + by rewrite decide_True.
    + rewrite decide_False; [done|congruence].
  - rewrite conn_disconnect_conn, decide_True by done.
    change (conn_of (setPeer old None w) c) with (conn_of w c).
    by rewrite Hconn.
  - by rewrite decide_False.
  - done.
Qed.

Lemma connect_conn c fwd w c' old :
  forwarder_of w c = Some old → conn_of w c = Some old →
  conn_of (connectToForwarder c fwd w) c'
  = if decide (c = c') then Some fwd else conn_of w c'.
Proof.
  intros Hfwd Hconn. unfold connectToForwarder.
  unfold forwarder_of in Hfwd.
  destruct (clients w !! c) as [this|] eqn:Hc; [|done].
  simpl in Hfwd. injection Hfwd as Hold.
  assert (∀ w0, conn_of w0 c = Some None →
                (c ≠ c' → conn_of w0 c' = conn_of w c') →
    conn_of
      (match fwd with
       | Some f => conn_connect c f (setPeer f (Some c) (set_m_forwarder c fwd w0))
       | None => set_m_forwarder c fwd w0
       end) c'
    = if decide (c = c') then Some fwd else conn_of w c') as Hrest.
  { intros w0 Hnone Hother. destruct fwd as [f|].
    - rewrite conn_connect_conn.
      change (conn_of (setPeer f (Some c) (set_m_forwarder c (Some f) w0)) c')
        with (conn_of (set_m_forwarder c (Some f) w0) c').
      rewrite set_m_forwarder_conn.
      case_decide; [subst; by rewrite Hnone|by apply Hother].
    - rewrite set_m_forwarder_conn.
      case_decide; [subst; by rewrite Hnone|by apply Hother]. }
  rewrite Hold. destruct old as [old|]; apply Hrest.
  - rewrite conn_disconnect_conn, decide_True by done.
    change (conn_of (setPeer old None w) c) with (conn_of w c).
    by rewrite Hconn.
  - intros Hne. by rewrite conn_disconnect_conn, decide_False.
  - done.
  - done.
Qed.

End TransportInvariant.

Section TransportInvariantProofs.
Implicit Types w : World.
Implicit Types f g : ForwarderRef.
Implicit Types c : ClientRef.

Lemma world_wf_readings w w' :
  (∀ c, conn_of w' c = conn_of w c) →
  (∀ c, forwarder_of w' c = forwarder_of w c) →
  (∀ g, handlers_of w' g = handlers_of w g) →
  (∀ g, peer_of w' g = peer_of w g) →
  world_wf w → world_wf w'.
Proof.
  intros Hc Hf Hh Hp (H1 & H2 & H3 & H4). unfold world_wf.
  setoid_rewrite Hc. setoid_rewrite Hf. setoid_rewrite Hh. setoid_rewrite Hp.
  done.
Qed.

Lemma new_handlers_elem c (fwd old : option ForwarderRef) g
    (H : option (list ClientRef)) hs' :
  (if decide (fwd = Some g) then fmap (λ hs, hs ++ [c]) else id)
    ((if decide (old = Some g) then fmap (filter (λ h, h ≠ c)) else id) H)
  = Some hs' →
  ∃ hs, H = Some hs
        ∧ ∀ c', c' ∈ hs' ↔ (fwd = Some g ∧ c' = c)
                           ∨ (c' ∈ hs ∧ ¬ (old = Some g ∧ c' = c)).
Proof.
  destruct H as [hs|]; last first.
  { by repeat case_decide. }
  intros Heq. exists hs. split; [done|]. intros c'.
  repeat case_decide; simpl in Heq; injection Heq as <-;
    rewrite ?elem_of_app, ?list_elem_of_filter, ?list_elem_of_singleton;
    intuition congruence.
Qed.

Lemma new_peer_elem c (fwd old : option ForwarderRef) g
    (P : option (option ClientRef)) c' :
  (if decide (fwd = Some g) then fmap (λ _, Some c) else id)
    ((if decide (old = Some g) then fmap (λ _, None) else id) P)
  = Some (Some c') →
  (fwd = Some g ∧ c' = c)
  ∨ (fwd ≠ Some g ∧ old ≠ Some g ∧ P = Some (Some c')).
Proof.
  destruct P as [p|]; repeat case_decide; simpl; intros [=]; subst; auto.
Qed.

(** [connectToForwarder] keeps the pointers consistent. *)
Lemma connect_wf c fwd w :
  world_wf w → world_wf (connectToForwarder c fwd w).
Proof.
  intros Hwf. destruct (forwarder_of w c) as [old|] eqn:Hold; last first.
  { by rewrite connect_absent. }
  destruct Hwf as (H1 & H2 & H3 & H4).
  assert (conn_of w c = Some old) as Hconn by (by rewrite H1).
  unfold world_wf. split_and!.
  - intros c'. rewrite (connect_conn _ _ _ _ old), connect_forwarder by done.
    case_decide; [subst c'|done]. by rewrite Hold.
  - intros g hs' c'. rewrite (connect_handlers _ _ _ _ old) by done.
    intros (hs & Hhs & Hiff)%new_handlers_elem [[-> ->]|[Hin Hnot]]%Hiff.
    + rewrite connect_forwarder, decide_True by done. by rewrite Hold.
    + pose proof (H2 g hs c' Hhs Hin) as Hc'.
      rewrite connect_forwarder. case_decide; [subst c'|done].
      exfalso. apply Hnot. split; [|done]. congruence.
  - intros g hs' c'. rewrite (connect_handlers _ _ _ _ old) by done.
    intros (hs & Hhs & Hiff)%new_handlers_elem. rewrite connect_forwarder.
    case_decide; [subst c'|].
    + rewrite Hold. simpl. intros [= ->]. apply Hiff. by left.
    + intros Hc'. apply Hiff. right. split; [by eapply H3|]. by intros [_ ?].
  - intros g c'. rewrite (connect_peer _ _ _ _ old) by done.
    intros [[-> ->]|(Hne1 & Hne2 & HP)]%new_peer_elem.
    + rewrite connect_forwarder, decide_True by done. by rewrite Hold.
    + pose proof (H4 g c' HP) as Hc'.
      rewrite connect_forwarder. case_decide; [subst c'|done]. congruence.
Qed.

Lemma handlers_fold_wf (old new : TransportState) (hs : list ClientRef) w :
  world_wf w →
  world_wf (foldl (λ w c, stateChangeHandler c old new w) w hs).
Proof.
  revert w. induction hs as [|c hs IH]; intros w Hwf; simpl; [done|].
  apply IH. unfold stateChangeHandler. case_decide; [|done]. by apply connect_wf.
Qed.

(** Changing only the state of a forwarder-side transport changes none of
    the pointer readings. *)
Lemma state_update_readings w f this (new : TransportState) :
  forwarders w !! f = Some this →
  let w1 := mkWorld
              (<[f := mkForwarderTransport (m_peer this) new
                        (afterStateChange this)]> (forwarders w))
              (clients w) (ioService w) in
  (∀ c, conn_of w1 c = conn_of w c)
  ∧ (∀ c, forwarder_of w1 c = forwarder_of w c)
  ∧ (∀ g, handlers_of w1 g = handlers_of w g)
  ∧ (∀ g, peer_of w1 g = peer_of w g)
  ∧ (∀ g, state_of w1 g = if decide (f = g) then Some new else state_of w g).
Proof.
  intros Hf. cbv zeta. unfold handlers_of, peer_of, state_of. simpl.
  split_and!; try done; intros g; rewrite lookup_insert;
    case_decide; try done; subst g; by rewrite Hf.
Qed.

(** The handlers of a [CLOSED] announcement disconnect the clients they
    belong to and nobody else. *)
Lemma handlers_fold_closed (old : TransportState) (hs : list ClientRef) w :
  let w' := foldl (λ w c, stateChangeHandler c old CLOSED w) w hs in
  (∀ c, forwarder_of w' c
        = if decide (c ∈ hs) then (λ _, None) <$> forwarder_of w c
          else forwarder_of w c)
  ∧ (∀ g, state_of w' g = state_of w g).
Proof.
  revert w. induction hs as [|c0 hs IH]; intros w; cbn [foldl]; cbv zeta.
  { split; [|done]. intros c.
    case_decide as Hin; [by apply elem_of_nil in Hin|done]. }
  destruct (IH (stateChangeHandler c0 old CLOSED w)) as [Hfwd Hstate].
  assert (stateChangeHandler c0 old CLOSED w = connectToForwarder c0 None w)
    as Hrun by done.
  rewrite Hrun in *. split.
  - intros c. rewrite Hfwd, disconnect_forwarder.
    destruct (decide (c ∈ hs)) as [Hin|Hnotin];
      destruct (decide (c0 = c)) as [->|Hne];
      destruct (decide (c ∈ _ :: hs)) as [Hin'|Hnotin'];
      try done; try (by destruct (forwarder_of w c));
      try (exfalso; apply Hnotin'; by right);
      try (exfalso; apply Hnotin'; by left);
      try (apply elem_of_cons in Hin' as [?|?]; congruence).
  - intros g. by rewrite Hstate, disconnect_state.
Qed.

Lemma handlers_fold_peer (old : TransportState) (hs : list ClientRef) w f g :
  g ≠ f →
  (∀ c g', c ∈ hs → forwarder_of w c = Some (Some g') → g' = f) →
  peer_of (foldl (λ w c, stateChangeHandler c old CLOSED w) w hs) g
  = peer_of w g.
Proof.
  intros Hne. revert w. induction hs as [|c0 hs IH]; intros w Hall; [done|].
  simpl. rewrite IH.
  - unfold stateChangeHandler. simpl. rewrite disconnect_peer.
    destruct (forwarder_of w c0) as [[g'|]|] eqn:Hc0; try done.
    case_decide; [|done]. subst g'. exfalso. apply Hne.
    apply (Hall c0 g); [by left|done].
  - intros c g' Hc. unfold stateChangeHandler. simpl.
    rewrite disconnect_forwarder. case_decide.
    + by destruct (forwarder_of w c).
    + apply Hall. by right.
Qed.

End TransportInvariantProofs.

(** ** The internal transport pair: connecting, closing, destroying *)

Section TransportLifecycle.
Implicit Types w : World.
Implicit Types f g : ForwarderRef.
Implicit Types c : ClientRef.

(** X10.  [connectToForwarder] keeps the pointers of the store consistent,
    whatever it is asked to connect to; connecting an existing client to an
    existing forwarder makes each the peer of the other and connects the
    client's handler to the forwarder's signal; and a forwarder the client
    pointed at before is let go: its peer is cleared and the client's
    handler is no longer connected to its signal. *)
Theorem connectToForwarder_invariant c (fwd : option ForwarderRef) w :
  world_wf w →
  let w' := connectToForwarder c fwd w in
  world_wf w'
  ∧ (∀ f old, fwd = Some f → forwarder_of w c = Some old →
       is_Some (forwarders w !! f) →
       peer_of w' f = Some (Some c)
       ∧ forwarder_of w' c = Some (Some f)
       ∧ ∃ hs, handlers_of w' f = Some hs ∧ c ∈ hs)
  ∧ (∀ f, forwarder_of w c = Some (Some f) → fwd ≠ Some f →
       is_Some (forwarders w !! f) →
       peer_of w' f = Some None
       ∧ ∃ hs, handlers_of w' f = Some hs ∧ c ∉ hs).
Proof.
  intros Hwf. cbv zeta. split; [by apply connect_wf|].
  destruct Hwf as (H1 & _). split.
  - intros f old -> Hold [this Hf].
    assert (conn_of w c = Some old) as Hconn by (by rewrite H1).
    rewrite (connect_peer _ _ _ _ old), connect_forwarder,
      (connect_handlers _ _ _ _ old) by done.
    rewrite Hold. unfold peer_of, handlers_of. rewrite Hf. simpl.
    repeat case_decide; try done; simpl; (split_and!; [done|done|]);
      eexists; (split; [done|]); apply elem_of_app; right; by left.
  - intros f Hold Hne [this Hf].
    assert (conn_of w c = Some (Some f)) as Hconn by (by rewrite H1).
    rewrite (connect_peer _ _ _ _ (Some f)),
      (connect_handlers _ _ _ _ (Some f)) by done.
    unfold peer_of, handlers_of. rewrite Hf. simpl.
    repeat case_decide; try done; simpl. split; [done|].
    eexists. split; [done|]. rewrite list_elem_of_filter. by intros [? _].
Qed.

(** X11.  Connecting pairs the two transports for sending: after an
    existing client has connected to an existing forwarder, what the
    forwarder sends is posted to the client and what the client sends is
    posted to the forwarder; and a different forwarder that the client was
    connected to before drops what it is asked to send. *)
Theorem connect_then_send c f w (packet : Block) :
  is_Some (clients w !! c) → is_Some (forwarders w !! f) →
  let w' := connectToForwarder c (Some f) w in
  doSend f packet w' = client_receivePacket c packet w'
  ∧ client_send c packet w' = forwarder_receivePacket f packet w'
  ∧ (∀ old, forwarder_of w c = Some (Some old) → old ≠ f →
       is_Some (forwarders w !! old) → doSend old packet w' = w').
Proof.
  intros [this Hc] [that Hf]. cbv zeta.
  assert (forwarder_of w c = Some (m_forwarder this)) as Hold.
  { unfold forwarder_of. by rewrite Hc. }
  pose proof (connect_peer c (Some f) w f _ Hold) as Hpeer.
  pose proof (connect_forwarder c (Some f) w c) as Hfwd.
  rewrite decide_True in Hpeer by done. rewrite decide_True in Hfwd by done.
  rewrite Hold in Hfwd. simpl in Hfwd.
  assert (peer_of (connectToForwarder c (Some f) w) f = Some (Some c)) as Hpeer'.
  { rewrite Hpeer. unfold peer_of. rewrite Hf. by case_decide. }
  clear Hpeer. split_and!.
  - unfold doSend. unfold peer_of in Hpeer'.
    destruct (forwarders (connectToForwarder c (Some f) w) !! f) as [t|];
      [|done].
    simpl in Hpeer'. assert (m_peer t = Some c) as -> by congruence. done.
  - unfold client_send. unfold forwarder_of in Hfwd.
    destruct (clients (connectToForwarder c (Some f) w) !! c) as [t|]; [|done].
    simpl in Hfwd. assert (m_forwarder t = Some f) as -> by congruence. done.
  - intros old Hpointed Hne [other Hother].
    rewrite Hold in Hpointed. injection Hpointed as Hpointed.
    pose proof (connect_peer c (Some f) w old _ Hold) as Hpeer.
    rewrite decide_False in Hpeer by congruence.
    rewrite decide_True in Hpeer by done.
    unfold doSend. unfold peer_of in Hpeer. rewrite Hother in Hpeer.
    destruct (forwarders (connectToForwarder c (Some f) w) !! old) as [t|];
      [|done].
    simpl in Hpeer. assert (m_peer t = None) as -> by congruence. done.
Qed.

(** X12.  Closing disconnects everybody, and nobody else: in a store with
    consistent pointers, after the state of a forwarder-side transport
    changes to [CLOSED] no client points at it any more, its peer is cleared
    and no handler is connected to its signal; the pointers stay
    consistent; and the other forwarder-side transports and the clients
    that pointed elsewhere are as they were. *)
Theorem doClose_disconnects_all f this w :
  world_wf w → forwarders w !! f = Some this → m_state this ≠ CLOSED →
  let w' := doClose f w in
  world_wf w'
  ∧ state_of w' f = Some CLOSED
  ∧ peer_of w' f = Some None
  ∧ handlers_of w' f = Some []
  ∧ (∀ c, forwarder_of w' c ≠ Some (Some f))
  ∧ (∀ g, g ≠ f → peer_of w' g = peer_of w g ∧ state_of w' g = state_of w g)
  ∧ (∀ c, forwarder_of w c ≠ Some (Some f) →
          forwarder_of w' c = forwarder_of w c).
Proof.
  intros Hwf Hf Hopen. cbv zeta. unfold doClose, setState. rewrite Hf.
  rewrite decide_False by done. cbv zeta.
  destruct (state_update_readings w f this CLOSED Hf)
    as (Rc & Rf & Rh & Rp & Rs).
  set (w1 := mkWorld _ _ _) in *.
  assert (world_wf w1) as Hwf1 by (by apply (world_wf_readings w)).
  pose proof (handlers_fold_wf (m_state this) CLOSED (afterStateChange this)
                w1 Hwf1) as Hwf'.
  destruct (handlers_fold_closed (m_state this) (afterStateChange this) w1)
    as [Hfwd Hstate].
  set (w' := foldl _ w1 _) in *.
  destruct Hwf as (H1 & H2 & H3 & H4).
  assert (handlers_of w f = Some (afterStateChange this)) as Hhs.
  { unfold handlers_of. by rewrite Hf. }
  assert (state_of w' f = Some CLOSED) as Hclosed.
  { rewrite Hstate, Rs. by rewrite decide_True. }
  assert (∀ c, forwarder_of w' c ≠ Some (Some f)) as Hnobody.
  { intros c. rewrite Hfwd, Rf. case_decide as Hin.
    - by destruct (forwarder_of w c).
    - intros Hc. apply Hin. by eapply H3. }
  split; [exact Hwf'|].
  destruct Hwf' as (H1' & H2' & H3' & H4').
  split_and!; try done.
  - destruct (peer_of w' f) as [[c|]|] eqn:Hp; [|done|].
    + exfalso. by apply (Hnobody c), H4'.
    + unfold peer_of, state_of in *. by destruct (forwarders w' !! f).
  - destruct (handlers_of w' f) as [[|c hs]|] eqn:Hh; [done| |].
    + exfalso. apply (Hnobody c), (H2' f (c :: hs)); [done|by left].
    + unfold handlers_of, state_of in *. by destruct (forwarders w' !! f).
  - intros g Hne. split.
    + unfold w'. rewrite (handlers_fold_peer _ _ _ f) by
        (done || (intros c g' Hc; rewrite Rf; intros Hg';
                  pose proof (H2 f _ c Hhs Hc); congruence)).
      apply Rp.
    + rewrite Hstate, Rs. by rewrite decide_False.
  - intros c Hc. rewrite Hfwd, Rf. case_decide as Hin; [|done].
    exfalso. apply Hc. by eapply H2.
Qed.

(** X13.  Only [CLOSED] disconnects: a change of the state of a
    forwarder-side transport to any other state changes that state and
    nothing else; the clients, the peers and the connected handlers are as
    before. *)
Theorem setState_not_closed f this (newState : TransportState) w :
  forwarders w !! f = Some this → newState ≠ CLOSED →
  let w' := setState f newState w in
  clients w' = clients w
  ∧ ioService w' = ioService w
  ∧ (∀ g, peer_of w' g = peer_of w g)
  ∧ (∀ g, handlers_of w' g = handlers_of w g)
  ∧ (∀ g, state_of w' g = if decide (f = g) then Some newState
                          else state_of w g).
Proof.
  intros Hf Hnew. cbv zeta. unfold setState. rewrite Hf.
  destruct (decide (m_state this = newState)) as [Heq|Hne].
  { split_and!; try done. intros g. case_decide; [subst g|done].
    unfold state_of. rewrite Hf. simpl. by rewrite Heq. }
  cbv zeta.
  assert (∀ (hs : list ClientRef) w0,
            foldl (λ w c, stateChangeHandler c (m_state this) newState w) w0 hs
            = w0) as ->.
  { induction hs as [|c hs IH]; intros w0; simpl; [done|].
    unfold stateChangeHandler at 2. rewrite decide_False by done. apply IH. }
  destruct (state_update_readings w f this newState Hf)
    as (_ & _ & Rh & Rp & Rs).
  split_and!; done.
Qed.

(** X14.  Nothing points at a destroyed client: in a store with consistent
    pointers, after the destructor of a client transport has run the client
    is gone from the store, no forwarder has it as its peer and its handler
    is connected to no signal; the other clients are as they were. *)
Theorem client_destroy_spec c w :
  world_wf w →
  let w' := client_destroy c w in
  clients w' !! c = None
  ∧ (∀ g, peer_of w' g ≠ Some (Some c))
  ∧ (∀ g hs, handlers_of w' g = Some hs → c ∉ hs)
  ∧ (∀ c', c' ≠ c → clients w' !! c' = clients w !! c').
Proof.
  intros (H1 & H2 & H3 & H4). cbv zeta. unfold client_destroy.
  destruct (clients w !! c) as [this|] eqn:Hc; last first.
  { assert (forwarder_of w c = None) as Hnone.
    { unfold forwarder_of. by rewrite Hc. }
    split_and!; try done.
    - intros g Hg. apply H4 in Hg. congruence.
    - intros g hs Hhs Hin. pose proof (H2 g hs c Hhs Hin). congruence. }
  assert (forwarder_of w c = Some (m_forwarder this)) as Hold.
  { unfold forwarder_of. by rewrite Hc. }
  assert (conn_of w c = Some (m_forwarder this)) as Hconn by (by rewrite H1).
  set (w0 := match m_forwarder this with
             | Some f => setPeer f None w
             | None => w
             end).
  assert (conn_of w0 c = conn_of w c) as Hconn0.
  { unfold w0. by destruct (m_forwarder this). }
  assert (∀ g, handlers_of w0 g = handlers_of w g) as Hh0.
  { intros g. unfold w0. destruct (m_forwarder this); [|done].
    apply setPeer_handlers. }
  assert (∀ g, peer_of w0 g ≠ Some (Some c)) as Hp0.
  { intros g. unfold w0. destruct (m_forwarder this) as [f|] eqn:Hm.
    - rewrite setPeer_peer. case_decide; [by destruct (peer_of w g)|].
      intros Hg. apply H4 in Hg. congruence.
    - intros Hg. apply H4 in Hg. congruence. }
  split_and!.
  - simpl. apply lookup_delete_eq.
  - intros g.
    change (peer_of (conn_disconnect c w0) g ≠ Some (Some c)).
    rewrite conn_disconnect_peer. apply Hp0.
  - intros g hs.
    change (handlers_of (conn_disconnect c w0) g = Some hs → c ∉ hs).
    rewrite conn_disconnect_handlers, Hconn0, Hconn.
    destruct (m_forwarder this) as [f0|] eqn:Hm.
    + case_decide as Hg.
      * subst g. rewrite Hh0. destruct (handlers_of w f0); [|done].
        simpl. intros [= <-]. rewrite list_elem_of_filter. by intros [? _].
      * rewrite Hh0. intros Hhs Hin. pose proof (H2 g hs c Hhs Hin). congruence.
    + rewrite Hh0. intros Hhs Hin. pose proof (H2 g hs c Hhs Hin). congruence.
  - intros c' Hne. simpl. rewrite lookup_delete_ne by done.
    assert (clients w0 = clients w) as Hcl.
    { unfold w0. by destruct (m_forwarder this). }
    unfold conn_disconnect. rewrite Hcl, Hc.
    destruct (m_fwTransportStateConn this); [|by rewrite Hcl].
    simpl. by rewrite lookup_insert_ne.
Qed.

End TransportLifecycle.

(** ** Registration never breaks creation *)

Section RegistrationMonotone.
Context {C : Type} `{NC : NameComponent C} {Forwarder : Type}.
Implicit Types registry : Registry C (Forwarder := Forwarder).

Lemma canCreate_found registry (input : Name C) :
  canCreate registry input = true ↔ is_Some (found_name registry input).
Proof.
  unfold canCreate, found_name.
  destruct (find registry input =? registry_end registry); simpl.
  - split; [done|]. by intros [? ?].
  - split; [eauto|done].
Qed.

Lemma canCreate_more_keys registry registry' (input : Name C) :
  registry_sorted registry → registry_sorted registry' →
  (∀ k, k ∈ registry_keys registry → k ∈ registry_keys registry') →
  canCreate registry input = true → canCreate registry' input = true.
Proof.
  intros Hs Hs' Hsub. rewrite !canCreate_found. intros [k Hk].
  destruct (found_name registry' input) as [k'|] eqn:Hnone; [eauto|].
  exfalso. destruct (version (parseInstanceName input)) as [v|] eqn:Hv.
  - destruct (find_versioned registry input v Hs Hv) as [Hfound _].
    destruct (find_versioned registry' input v Hs' Hv) as [_ Hno].
    apply Hno in Hnone. apply Hnone.
    destruct (Hfound k Hk) as (Hin & Hpre & Hle & _). eauto.
  - destruct (find_unversioned registry input Hs Hv) as [Hfound Hempty].
    destruct (find_unversioned registry' input Hs' Hv) as [_ Hno].
    apply Hno in Hnone as [->|Hnone].
    + assert (found_name registry [] = None) as Hn; [|congruence].
      apply Hempty. by left.
    + apply Hnone. destruct (Hfound k Hk) as (Hin & Hpre & _). eauto.
Qed.

(** X15.  Registering a strategy never takes a name away: an instance name
    that could be created before [registerType] can be created after it,
    and a name that cannot be created after it could not be created before
    (the name it resolves to may change, a newly registered version may be
    the closer one). *)
Theorem registerType_keeps_creatable registry registry' sn f (input : Name C) :
  registry_wf registry →
  registerType sn f registry = Some registry' →
  (canCreate registry input = true → canCreate registry' input = true)
  ∧ (canCreate registry' input = false → canCreate registry input = false).
Proof.
  intros [Hs _] Hreg.
  assert (registry' = registry_insert sn f registry) as ->.
  { unfold registerType in Hreg.
    destruct (negb (1 <? length sn)); [done|].
    destruct (atMinus1 sn) as [v|]; [|done].
    destruct (negb (isVersion v)); [done|].
    destruct (existsb _ registry); [done|]. by injection Hreg. }
  assert (canCreate registry input = true →
          canCreate (registry_insert sn f registry) input = true) as Hmono.
  { apply canCreate_more_keys; [done|by apply registry_insert_sorted|].
    intros k Hk. apply registry_insert_keys. by right. }
  split; [done|]. intros Hnot.
  destruct (canCreate registry input); [|done]. by rewrite Hmono in Hnot.
Qed.

End RegistrationMonotone.

(** ** The receive path of the stream transport *)

Section StreamReceiveProofs.
Variable fromBuffer : list Byte.byte → option Block.
Variable MAX_NDN_PACKET_SIZE : nat.

(** What the receive path needs of [Block::fromBuffer]: the element it
    gives is not empty and its wire is the start of the buffer. *)
Definition fromBuffer_decodes_prefix : Prop :=
  ∀ buffer element, fromBuffer buffer = Some element →
    element ≠ [] ∧ ∃ rest, buffer = element ++ rest.

Hypothesis fromBuffer_ok : fromBuffer_decodes_prefix.

(** [elements] are the elements that [Block::fromBuffer] gives at the
    start of [buffer], one after the other: each is decoded where the one
    before it ends. *)
Fixpoint decoded_from (elements : list Block) (buffer : list Byte.byte) : Prop :=
  match elements with
  | [] => True
  | element :: rest =>
      fromBuffer buffer = Some element
      ∧ decoded_from rest (drop (length element) buffer)
  end.

Lemma processAllReceived_loop_spec fuel buffer offset elements :
  offset ≤ length buffer → length buffer - offset < fuel →
  ∃ ok offset' es,
    processAllReceived_loop fromBuffer fuel buffer offset (length buffer) elements
      = Some (ok, offset', elements ++ es)
    ∧ offset ≤ offset' ≤ length buffer
    ∧ drop offset buffer = concat es ++ drop offset' buffer
    ∧ (offset' = offset → es = [])
    ∧ (if ok then offset' = length buffer
       else offset' < length buffer ∧ fromBuffer (drop offset' buffer) = None)
    ∧ decoded_from es (drop offset buffer).
Proof.
  revert offset elements. induction fuel as [|fuel IH]; intros offset elements Hle Hfuel;
    [lia|].
  cbn [processAllReceived_loop].
  destruct (Nat.ltb_spec offset (length buffer)) as [Hlt|Hge].
  - rewrite take_ge by (rewrite length_drop; lia).
    destruct (fromBuffer (drop offset buffer)) as [element|] eqn:Hfb.
    + destruct (fromBuffer_ok _ _ Hfb) as [Hne [rest Hrest]].
      assert (0 < length element) by (destruct element; [done|simpl; lia]).
      assert (length element ≤ length buffer - offset).
      { rewrite <- (length_drop buffer offset), Hrest, length_app. lia. }
      destruct (IH (offset + length element) (elements ++ [element]))
        as (ok & offset' & es & Hrun & Hbound & Hdrop & Hnil & Hok & Hdec);
        [lia|lia|].
      exists ok, offset', (element :: es). split_and!.
      * rewrite Hrun. by rewrite <- (assoc_L (++)).
      * lia.
      * lia.
      * simpl. rewrite <- (assoc_L (++)), <- Hdrop, <- drop_drop, Hrest.
        by rewrite drop_app_length.
      * lia.
      * done.
      * split; [done|]. by rewrite drop_drop.
    + exists false, offset, []. rewrite app_nil_r. split_and!; (done || lia).
  - exists true, offset, []. rewrite app_nil_r. split_and!; (done || lia).
Qed.

Lemma processAllReceived_spec buffer :
  ∃ ok offset es,
    processAllReceived fromBuffer buffer 0 (length buffer) = Some (ok, offset, es)
    ∧ offset ≤ length buffer
    ∧ buffer = concat es ++ drop offset buffer
    ∧ (offset = 0 → es = [])
    ∧ (if ok then offset = length buffer
       else offset < length buffer ∧ fromBuffer (drop offset buffer) = None)
    ∧ decoded_from es buffer.
Proof.
  destruct (processAllReceived_loop_spec (S (length buffer)) buffer 0 [])
    as (ok & offset & es & Hrun & Hbound & Hdrop & Hnil & Hok & Hdec);
    [lia|lia|].
  exists ok, offset, es. split_and!; [done|lia|done|done|done|done].
Qed.

(** The state that an outcome carries. *)
Definition outcome_state (o : ReceiveOutcome) : StreamTransportImpl :=
  match o with
  | receive_again s | receive_cancelled s | receive_error s => s
  end.

(** X16.  One successful receive, for a decoder that gives non-empty
    prefixes and a socket that stays within the room it was given.  The
    handler returns.  The elements it hands to the receive callback are
    the ones that [Block::fromBuffer] gives one after the other from the
    start of the buffer (the bytes it had followed by the bytes received),
    up to the first place where no complete element starts; the bytes from
    that place on are the bytes it keeps.  It throws exactly when the
    buffer is full and no element is decoded at its start, and then it has
    called nothing; otherwise it asks for more, with room for at least one
    byte. *)
Theorem handleAsyncReceive_spec (bytes : list Byte.byte) (s : StreamTransportImpl) :
  0 < MAX_NDN_PACKET_SIZE →
  m_inputBufferSize s + length bytes ≤ MAX_NDN_PACKET_SIZE →
  let buffer := m_inputBuffer s ++ bytes in
  let full_and_stuck :=
    fromBuffer buffer = None ∧ length buffer = MAX_NDN_PACKET_SIZE in
  ∃ elements rest,
    buffer = concat elements ++ rest
    ∧ decoded_from elements buffer
    ∧ (rest = [] ∨ fromBuffer rest = None)
    ∧ (full_and_stuck →
         handleAsyncReceive fromBuffer MAX_NDN_PACKET_SIZE ec_success bytes s
         = Some (receive_error (mkStreamTransportImpl buffer (receiveCallback s)))
         ∧ elements = [] ∧ rest = buffer)
    ∧ (¬ full_and_stuck →
         handleAsyncReceive fromBuffer MAX_NDN_PACKET_SIZE ec_success bytes s
         = Some (receive_again
                   (mkStreamTransportImpl rest (receiveCallback s ++ elements)))
         ∧ length rest < MAX_NDN_PACKET_SIZE).
Proof.
  unfold m_inputBufferSize. intros Hmax Hroom. cbv zeta.
  assert (length (m_inputBuffer s ++ bytes) ≤ MAX_NDN_PACKET_SIZE) as Hlen
    by (rewrite length_app; lia).
  unfold handleAsyncReceive. cbv zeta.
  destruct (processAllReceived_spec (m_inputBuffer s ++ bytes))
    as (ok & offset & es & -> & Hbound & Hsplit & Hnil & Hok & Hdec).
  set (buffer := m_inputBuffer s ++ bytes) in *.
  exists es, (drop offset buffer). split; [done|]. split; [done|].
  assert (drop offset buffer = [] ∨ fromBuffer (drop offset buffer) = None)
    as Hrest.
  { destruct ok; [left; subst offset; apply drop_all|right; apply Hok]. }
  split; [done|].
  destruct ok; simpl negb; cbn [andb].
  - (* everything was decoded *)
    subst offset. split.
    + intros [Hstuck Hfull]. exfalso.
      destruct es as [|e es]; [|destruct Hdec as [Hdec _]; congruence].
      rewrite drop_all in Hsplit. simpl in Hsplit.
      rewrite Hsplit in Hfull. simpl in Hfull. lia.
    + intros _. rewrite drop_all.
      destruct (Nat.ltb_spec 0 (length buffer)) as [Hpos|Hzero].
      * rewrite Nat.eqb_refl. simpl. split; [done|simpl; lia].
      * assert (buffer = []) as Hb
          by (destruct buffer; [done|simpl in Hzero; lia]).
        assert (es = []) as -> by (apply Hnil; by rewrite Hb).
        rewrite Hb, app_nil_r. split; [|simpl; lia]. by destruct s.
  - (* the loop stopped at an incomplete element *)
    destruct Hok as [Hlt Hnone].
    destruct (Nat.eqb_spec offset 0) as [->|Hoff].
    + rewrite (Hnil eq_refl), app_nil_r, drop_0 in *. rewrite andb_true_r.
      destruct (Nat.eqb_spec (length buffer) MAX_NDN_PACKET_SIZE) as [Hfull|Hnot].
      * split; [done|]. intros Hnotstuck. by destruct Hnotstuck.
      * split; [intros [_ Hfull]; done|]. intros _. simpl. split; [done|lia].
    + rewrite andb_false_r. split.
      * intros [Hstuck _]. exfalso.
        destruct es as [|e es]; [|destruct Hdec as [Hdec _]; congruence].
        simpl in Hsplit.
        assert (length buffer = length (drop offset buffer)) as Hl
          by (by rewrite <- Hsplit).
        rewrite length_drop in Hl. lia.
      * intros _.
        destruct (Nat.ltb_spec 0 offset) as [_|?]; [|lia].
        destruct (Nat.eqb_spec offset (length buffer)) as [?|_]; [lia|].
        simpl. split; [done|]. rewrite length_drop. lia.
Qed.

Lemma receive_run_step (bytes : list Byte.byte) (s : StreamTransportImpl) :
  ∃ o, handleAsyncReceive fromBuffer MAX_NDN_PACKET_SIZE ec_success bytes s = Some o
    ∧ (∀ s', o ≠ receive_cancelled s')
    ∧ concat (receiveCallback (outcome_state o)) ++ m_inputBuffer (outcome_state o)
      = concat (receiveCallback s) ++ m_inputBuffer s ++ bytes
    ∧ m_inputBufferSize (outcome_state o) ≤ m_inputBufferSize s + length bytes.
Proof.
  unfold handleAsyncReceive, m_inputBufferSize. cbv zeta.
  destruct (processAllReceived_spec (m_inputBuffer s ++ bytes))
    as (ok & offset & es & -> & Hbound & Hsplit & Hnil & Hok & _).
  rewrite <- (length_app (m_inputBuffer s) bytes).
  set (buffer := m_inputBuffer s ++ bytes) in *.
  assert (concat (receiveCallback s ++ es) ++ drop offset buffer
          = concat (receiveCallback s) ++ buffer) as Hcat.
  { rewrite concat_app, <- (assoc_L (++)). by rewrite <- Hsplit. }
  destruct (negb ok && (length buffer =? MAX_NDN_PACKET_SIZE) && (offset =? 0)) eqn:Herr.
  { eexists. split; [done|]. split; [done|]. simpl.
    apply andb_true_iff in Herr as [_ Hoff]. apply Nat.eqb_eq in Hoff as ->.
    rewrite drop_0 in Hcat. done. }
  destruct (Nat.ltb_spec 0 offset) as [Hpos|Hzero].
  - destruct (Nat.eqb_spec offset (length buffer)) as [Hall|Hpart]; simpl.
    + eexists. split; [done|]. split; [done|]. simpl.
      rewrite Hall, drop_all in Hcat. split; [done|lia].
    + eexists. split; [done|]. split; [done|]. simpl.
      split; [done|]. rewrite length_drop. lia.
  - eexists. split; [done|]. split; [done|]. simpl.
    assert (offset = 0) as -> by lia. rewrite drop_0 in Hcat. done.
Qed.

(** X17.  A run of receives on a stream, for a decoder that gives non-empty
    prefixes.  The run ends, and not as cancelled; whether it ends asking
    for more or with an error, no byte is lost, doubled or reordered: the
    elements handed to the receive callback, then the bytes kept in the
    buffer, then the rest of the stream are what they were at the start.
    The buffer never holds more than [MAX_NDN_PACKET_SIZE] bytes. *)
Theorem receive_run_spec (ready : list nat) (stream : list Byte.byte)
    (s : StreamTransportImpl) :
  m_inputBufferSize s ≤ MAX_NDN_PACKET_SIZE →
  ∃ o stream',
    receive_run fromBuffer MAX_NDN_PACKET_SIZE ready stream s = Some (o, stream')
    ∧ (∀ s', o ≠ receive_cancelled s')
    ∧ concat (receiveCallback (outcome_state o)) ++ m_inputBuffer (outcome_state o)
        ++ stream'
      = concat (receiveCallback s) ++ m_inputBuffer s ++ stream
    ∧ m_inputBufferSize (outcome_state o) ≤ MAX_NDN_PACKET_SIZE.
Proof.
  revert stream s. induction ready as [|n ready IH]; intros stream s Hsize.
  { exists (receive_again s), stream. by split_and!. }
  cbn [receive_run]. unfold async_receive.
  set (k := n `min` (MAX_NDN_PACKET_SIZE - m_inputBufferSize s)).
  destruct (receive_run_step (take k stream) s) as (o & -> & Hnc & Hcat & Hlen).
  assert (length (take k stream) ≤ MAX_NDN_PACKET_SIZE - m_inputBufferSize s)
    as Hk by (rewrite length_take; lia).
  assert (concat (receiveCallback (outcome_state o)) ++ m_inputBuffer (outcome_state o)
            ++ drop k stream
          = concat (receiveCallback s) ++ m_inputBuffer s ++ stream) as Hall.
  { rewrite (assoc_L (++)), Hcat, <- !(assoc_L (++)). by rewrite take_drop. }
  destruct o as [s'|s'|s'].
  - destruct (IH (drop k stream) s') as (o & stream' & -> & Hnc' & Hcat' & Hlen').
    { simpl in Hlen. lia. }
    exists o, stream'. split_and!; [done|done| |done].
    rewrite Hcat'. exact Hall.
  - by destruct (Hnc s').
  - eexists _, _. split_and!; [done|done|exact Hall|]. simpl in *. lia.
Qed.

End StreamReceiveProofs.

(** ** The totals of the forwarder status *)

Section StatusTotals.

(** The sum of one reading over the workers, without wrap-around. *)
Definition sum_of (get : ForwarderInfo → N) (workers : list ForwarderInfo) : N :=
  foldr (λ w total, (get w + total)%N) 0%N workers.

Lemma size_t_add_bound a b : (size_t_add a b < 2 ^ 64)%N.
Proof. unfold size_t_add. apply N.mod_lt. done. Qed.

Lemma foldl_size_t_add {T : Type} (add : T → ForwarderInfo → T) (proj : T → N)
    (get : ForwarderInfo → N) :
  (∀ t w, proj (add t w) = size_t_add (proj t) (get w)) →
  ∀ workers t, (proj t < 2 ^ 64)%N →
    proj (foldl add t workers) = ((proj t + sum_of get workers) mod 2 ^ 64)%N.
Proof.
  intros Hadd. induction workers as [|w workers IH]; intros t Ht; simpl.
  - rewrite N.add_0_r. symmetry. by apply N.mod_small.
  - rewrite IH by (rewrite Hadd; apply size_t_add_bound).
    rewrite Hadd. unfold size_t_add.
    rewrite N.Div0.add_mod_idemp_l. f_equal. lia.
Qed.

Lemma status_total (proj : ForwarderStatus → N) (get : ForwarderInfo → N)
    (first : N) (locals : ForwarderStatus) m_forwarder workers :
  (∀ t w, proj (status_add t w) = size_t_add (proj t) (get w)) →
  proj locals = first →
  proj (foldl status_add (status_add locals m_forwarder) workers)
  = ((first + get m_forwarder + sum_of get workers) mod 2 ^ 64)%N.
Proof.
  intros Hadd <-.
  rewrite (foldl_size_t_add status_add proj get Hadd)
    by (rewrite Hadd; apply size_t_add_bound).
  rewrite Hadd. unfold size_t_add. by rewrite N.Div0.add_mod_idemp_l.
Qed.

(** X18.  In the multi-worker build every count of the general status is the
    sum, modulo 2^64, of the main forwarder's reading and the workers'
    readings, except the FIB count: the main forwarder's FIB is counted
    twice. *)
Theorem collectGeneralStatus_totals (cfg : BuildConfig)
    (m_forwarder : ForwarderInfo) (workers : list ForwarderInfo) :
  ETRI_NFD_ORG_ARCH cfg = false →
  let status := collectGeneralStatus cfg m_forwarder workers in
  let total (get : ForwarderInfo → N) :=
    ((get m_forwarder + sum_of get workers) mod 2 ^ 64)%N in
  getNFibEntries status
    = ((fib_size m_forwarder + fib_size m_forwarder + sum_of fib_size workers)
       mod 2 ^ 64)%N
  ∧ getNNameTreeEntries status = total nameTree_size
  ∧ getNPitEntries status = total pit_size
  ∧ getNMeasurementsEntries status = total measurements_size
  ∧ getNCsEntries status = total cs_size
  ∧ getNInInterests status = total (λ w, nInInterests (getCounters w))
  ∧ getNOutInterests status = total (λ w, nOutInterests (getCounters w))
  ∧ getNInData status = total (λ w, nInData (getCounters w))
  ∧ getNOutData status = total (λ w, nOutData (getCounters w))
  ∧ getNInNacks status = total (λ w, nInNacks (getCounters w))
  ∧ getNOutNacks status = total (λ w, nOutNacks (getCounters w))
  ∧ getNSatisfiedInterests status
    = total (λ w, nSatisfiedInterests (getCounters w))
  ∧ getNUnsatisfiedInterests status
    = total (λ w, nUnsatisfiedInterests (getCounters w)).
Proof.
  intros Hcfg status total. subst status total. unfold collectGeneralStatus.
  rewrite Hcfg. cbv zeta.
  split_and!;
    (erewrite status_total; [|intros; reflexivity|reflexivity]; reflexivity).
Qed.

Lemma cs_total (proj : CsJson → N) (get : ForwarderInfo → N) workers :
  (∀ t w, proj (cs_add t w) = size_t_add (proj t) (get w)) →
  proj (mkCsJson 0 0 0 0) = 0%N →
  proj (if length workers =? 0 then mkCsJson 0 0 0 0
        else foldl cs_add (mkCsJson 0 0 0 0) workers)
  = (sum_of get workers mod 2 ^ 64)%N.
Proof.
  intros Hadd Hzero. destruct workers as [|w workers]; cbn [length Nat.eqb];
    [rewrite Hzero; reflexivity|].
  rewrite (foldl_size_t_add cs_add proj get Hadd) by by rewrite Hzero.
  by rewrite Hzero.
Qed.

(** X19.  The content store summary of [formatCsJson]: the capacity, the
    hits and the misses are sums over the workers only, the entries are the
    sum over the workers and the main forwarder (all modulo 2^64).  The
    main forwarder's limit and its hit and miss counters play no part, and
    without workers the capacity, the hits and the misses are 0. *)
Theorem formatCsJson_totals (m_forwarder : ForwarderInfo)
    (workers : list ForwarderInfo) :
  let json := formatCsJson m_forwarder workers in
  capacity json = (sum_of cs_limit workers mod 2 ^ 64)%N
  ∧ nEntries json = ((sum_of cs_size workers + cs_size m_forwarder) mod 2 ^ 64)%N
  ∧ nHits json = (sum_of (λ w, nCsHits (getCounters w)) workers mod 2 ^ 64)%N
  ∧ nMisses json = (sum_of (λ w, nCsMisses (getCounters w)) workers mod 2 ^ 64)%N
  ∧ (∀ other, cs_size other = cs_size m_forwarder →
       formatCsJson other workers = json)
  ∧ (workers = [] →
       json = mkCsJson 0 (cs_size m_forwarder mod 2 ^ 64) 0 0).
Proof.
  intros json. subst json. unfold formatCsJson. cbv zeta.
  cbn [capacity nEntries nHits nMisses]. split_and!.
  - by apply cs_total.
  - rewrite (cs_total nEntries cs_size) by done.
    unfold size_t_add. by rewrite N.Div0.add_mod_idemp_l.
  - by apply (cs_total nHits (λ w, nCsHits (getCounters w))).
  - by apply (cs_total nMisses (λ w, nCsMisses (getCounters w))).
  - by intros other ->.
  - by intros ->.
Qed.

End StatusTotals.

(** ** The registry of content store policies *)

Section PolicyRegistryProofs.
Context {PolicyObject : Type}.
Implicit Types registry : PolicyRegistry (PolicyObject := PolicyObject).

(** X20.  [Policy::create] gives the null pointer exactly for the names
    that [getPolicyNames] does not list, and for a listed name it gives what
    the constructor registered under that name makes. *)
Theorem Policy_create_spec registry (policyName : string) :
  (Policy_create registry policyName = None
     ↔ policyName ∉ getPolicyNames registry)
  ∧ (∀ ctor, registry !! policyName = Some ctor →
       policyName ∈ getPolicyNames registry
       ∧ Policy_create registry policyName = Some (ctor ())).
Proof.
  unfold Policy_create, getPolicyNames, PolicyRegistry in *. split.
  - split.
    + intros Hnull Hin. apply elem_of_dom in Hin as [ctor Hctor].
      by rewrite Hctor in Hnull.
    + intros Hnot. destruct (registry !! policyName) as [ctor|] eqn:Hctor; [|done].
      exfalso. apply Hnot, elem_of_dom. eauto.
  - intros ctor Hctor. split; [by apply elem_of_dom|]. by rewrite Hctor.
Qed.

End PolicyRegistryProofs.

(** ** The further properties on the sample data *)

Section SampleRegistryMore.
Import Sample.

Lemma sample_versioned_name v : versioned_name [G 1; V v].
Proof. split; [simpl; lia|]. exists (V v). by split. Qed.

Lemma sample_registry_wf : registry_wf registry.
Proof.
  split; [exact sample_registry_sorted|]. intros k Hk.
  change (k ∈ [s_v1; s_v3]) in Hk.
  apply elem_of_cons in Hk as [->|Hk]; [apply sample_versioned_name|].
  apply list_elem_of_singleton in Hk as ->. apply sample_versioned_name.
Qed.

Lemma parseInstanceName_roundtrip_witness :
  parseInstanceName [G 1; V 3; G 5] = mkParsed [G 1; V 3] (Some 3%N) [G 5].
Proof.
  rewrite (proj2 (parseInstanceName_roundtrip [G 1; V 3; G 5]) [G 1] (V 3) [G 5]);
    [reflexivity|reflexivity|discriminate|reflexivity|].
  intros c Hc. apply list_elem_of_singleton in Hc as ->. reflexivity.
Defined.

Lemma find_registered_entry_witness :
  registry_sorted registry ∧ versioned_name s_v3
  ∧ registry !! 1 = Some (s_v3, ctor s_v3)
  ∧ find registry s_v3 = 1 ∧ canCreate registry s_v3 = true.
Proof.
  destruct (find_registered_entry registry 1 s_v3 (ctor s_v3) tt
              sample_registry_sorted (sample_versioned_name 3) eq_refl)
    as (Hfind & Hcan & _).
  split_and!; [exact sample_registry_sorted|apply sample_versioned_name|
               reflexivity|exact Hfind|exact Hcan].
Defined.

Lemma registerType_spec_witness :
  registry_wf registry
  ∧ ∃ registry',
      registerType [G 1; V 2] (ctor [G 1; V 2]) registry = Some registry'
      ∧ registry_wf registry'
      ∧ registry' !! find registry' [G 1; V 2]
        = Some ([G 1; V 2], ctor [G 1; V 2]).
Proof.
  split; [exact sample_registry_wf|].
  destruct (registerType [G 1; V 2] (ctor [G 1; V 2]) registry)
    as [registry'|] eqn:Hreg; [|discriminate Hreg].
  destruct (proj2 (registerType_spec registry [G 1; V 2] (ctor [G 1; V 2])
                     sample_registry_wf) registry' Hreg)
    as (Hwf & _ & _ & i & Hi & Hfind).
  exists registry'. split_and!; [reflexivity|exact Hwf|].
  rewrite Hfind. exact Hi.
Defined.

Lemma areSameType_spec_witness :
  areSameType registry s_v3 (s_v3 ++ [G 5]) = true.
Proof.
  apply (proj1 (areSameType_spec registry s_v3 (s_v3 ++ [G 5])) [G 1] (V 3) [G 5]);
    [reflexivity|reflexivity|discriminate|reflexivity|].
  intros c Hc. apply list_elem_of_singleton in Hc as ->. reflexivity.
Defined.

Lemma registerType_keeps_creatable_witness :
  registry_wf registry
  ∧ ∃ registry',
      registerType [G 1; V 2] (ctor [G 1; V 2]) registry = Some registry'
      ∧ canCreate registry [G 1; V 2; G 7] = true
      ∧ canCreate registry' [G 1; V 2; G 7] = true.
Proof.
  split; [exact sample_registry_wf|].
  destruct (registerType [G 1; V 2] (ctor [G 1; V 2]) registry)
    as [registry'|] eqn:Hreg; [|discriminate Hreg].
  exists registry'. split_and!; [reflexivity|reflexivity|].
  apply (registerType_keeps_creatable registry registry' [G 1; V 2]
           (ctor [G 1; V 2]) [G 1; V 2; G 7] sample_registry_wf Hreg).
  reflexivity.
Defined.

End SampleRegistryMore.

Section SampleActionsMore.
Import Sample SampleFw.

Lemma sendDataToAll_inRecords_witness :
  pit_one_inRecord_per_face (st_pit state)
  ∧ pit_inRecords (st_pit (sendDataToAll 10 face3 state).2)
    = [mkInRecord face2 interest_plain 5].
Proof.
  split; [exact sample_pit_one_inRecord_per_face|].
  destruct (sendDataToAll_inRecords 10 face3 state
              sample_pit_one_inRecord_per_face) as [Hrecords _].
  rewrite Hrecords. reflexivity.
Defined.

Lemma sendDataToAll_again_witness :
  pit_one_inRecord_per_face (st_pit state) ∧ (10 ≤ 20)%Z
  ∧ sendDataToAll 20 face3 (sendDataToAll 10 face3 state).2
    = ((), (sendDataToAll 10 face3 state).2).
Proof.
  split_and!; [exact sample_pit_one_inRecord_per_face|lia|].
  apply (sendDataToAll_again 10 20 face3 state
           sample_pit_one_inRecord_per_face).
  lia.
Defined.

Lemma afterContentStoreHit_then_afterReceiveData_witness :
  pit_one_inRecord_per_face (st_pit state)
  ∧ ∃ d sends,
      st_trace (afterReceiveData 10 face3 (afterContentStoreHit face1 state).2).2
      = [ev_onOutgoingData d face1] ++ ev_beforeSatisfyInterest face3 :: sends
      ∧ ∀ d' f, ev_onOutgoingData d' f ∈ sends →
                face_getId f ≠ face_getId face1.
Proof.
  split; [exact sample_pit_one_inRecord_per_face|].
  destruct (afterContentStoreHit_then_afterReceiveData 10 face1 face3 state
              sample_pit_one_inRecord_per_face)
    as (d & sends & Hhit & Hdata & Hother).
  exists d, sends. split; [|exact Hother].
  rewrite Hdata, Hhit. reflexivity.
Defined.

Lemma sendNacks_spec_witness :
  ∃ downstreams,
    ns_calls (sendNacks (λ pitEntry _ _, (true, pitEntry))
                (mkNackHeader NACK_NO_ROUTE) [face1] (mkNackState pitEntry []))
    = map (λ f, call_sendNack f (mkNackHeader NACK_NO_ROUTE)) downstreams
    ∧ face_getId face2 ∈ ids downstreams
    ∧ face_getId face1 ∉ ids downstreams.
Proof.
  destruct (sendNacks_spec (λ pitEntry _ _, (true, pitEntry))
              (mkNackHeader NACK_NO_ROUTE) [face1] (mkNackState pitEntry []))
    as (downstreams & Hcalls & _ & Honly & Hall).
  exists downstreams. split_and!; [exact Hcalls| |].
  - apply (Hall (mkInRecord face2 interest_plain 5)).
    + apply elem_of_cons. right. apply list_elem_of_singleton. reflexivity.
    + intros Hin. apply list_elem_of_singleton in Hin. discriminate Hin.
  - intros Hin. apply list_elem_of_fmap in Hin as (f & Hid & Hf).
    destruct (Honly f Hf) as [_ Hnot]. apply Hnot. rewrite <- Hid.
    apply list_elem_of_singleton. reflexivity.
Defined.

End SampleActionsMore.

Section SampleTransportMore.
Import SampleTransport.

Lemma sample_world_wf : world_wf world0.
Proof.
  assert (∀ c, forwarder_of world0 c = if decide (c = 0) then Some None else None)
    as Hfwd.
  { intros c. unfold forwarder_of, world0. simpl. case_decide as Hc.
    - subst c. reflexivity.
    - by rewrite lookup_singleton_ne. }
  assert (∀ f, handlers_of world0 f = if decide (f = 0) then Some [] else None)
    as Hhs.
  { intros f. unfold handlers_of, world0. simpl. case_decide as Hf.
    - subst f. reflexivity.
    - by rewrite lookup_singleton_ne. }
  assert (∀ f, peer_of world0 f = if decide (f = 0) then Some None else None)
    as Hpeer.
  { intros f. unfold peer_of, world0. simpl. case_decide as Hf.
    - subst f. reflexivity.
    - by rewrite lookup_singleton_ne. }
  split_and!.
  - intros c. unfold conn_of, forwarder_of, world0. simpl.
    destruct (decide (c = 0)) as [->|Hc]; [reflexivity|].
    by rewrite lookup_singleton_ne.
  - intros f hs c. rewrite Hhs. case_decide; [|done].
    intros [= <-] Hin. by apply elem_of_nil in Hin.
  - intros f hs c _. rewrite Hfwd. by case_decide.
  - intros f c. rewrite Hpeer. by case_decide.
Qed.

Lemma sample_connected_wf : world_wf connected.
Proof. apply connect_wf, sample_world_wf. Qed.

Lemma connectToForwarder_invariant_witness :
  world_wf world0
  ∧ world_wf connected
  ∧ peer_of connected 0 = Some (Some 0)
  ∧ forwarder_of connected 0 = Some (Some 0).
Proof.
  destruct (connectToForwarder_invariant 0 (Some 0) world0 sample_world_wf)
    as (Hwf & Hnew & _).
  destruct (Hnew 0 None eq_refl eq_refl) as (Hpeer & Hfwd & _).
  { eexists. reflexivity. }
  split_and!; [exact sample_world_wf|exact Hwf|exact Hpeer|exact Hfwd].
Defined.

Lemma connect_then_send_witness :
  is_Some (clients world0 !! 0) ∧ is_Some (forwarders world0 !! 0)
  ∧ doSend 0 packet connected = client_receivePacket 0 packet connected
  ∧ client_send 0 packet connected = forwarder_receivePacket 0 packet connected.
Proof.
  assert (is_Some (clients world0 !! 0)) as Hc by (eexists; reflexivity).
  assert (is_Some (forwarders world0 !! 0)) as Hf by (eexists; reflexivity).
  destruct (connect_then_send 0 0 world0 packet Hc Hf) as (Hdown & Hup & _).
  split_and!; [exact Hc|exact Hf|exact Hdown|exact Hup].
Defined.

Lemma doClose_disconnects_all_witness :
  world_wf connected
  ∧ forwarders connected !! 0 = Some (mkForwarderTransport (Some 0) UP [0])
  ∧ state_of (doClose 0 connected) 0 = Some CLOSED
  ∧ peer_of (doClose 0 connected) 0 = Some None
  ∧ forwarder_of (doClose 0 connected) 0 ≠ Some (Some 0).
Proof.
  assert (forwarders connected !! 0 = Some (mkForwarderTransport (Some 0) UP [0]))
    as Hf by (by vm_compute).
  destruct (doClose_disconnects_all 0 _ connected sample_connected_wf Hf)
    as (_ & Hstate & Hpeer & _ & Hnone & _); [discriminate|].
  split_and!; [exact sample_connected_wf|exact Hf|exact Hstate|exact Hpeer|
               exact (Hnone 0)].
Defined.

Lemma setState_not_closed_witness :
  forwarders connected !! 0 = Some (mkForwarderTransport (Some 0) UP [0])
  ∧ DOWN ≠ CLOSED
  ∧ state_of (setState 0 DOWN connected) 0 = Some DOWN
  ∧ peer_of (setState 0 DOWN connected) 0 = peer_of connected 0
  ∧ clients (setState 0 DOWN connected) = clients connected.
Proof.
  assert (forwarders connected !! 0 = Some (mkForwarderTransport (Some 0) UP [0]))
    as Hf by (by vm_compute).
  assert (DOWN ≠ CLOSED) as Hne by discriminate.
  destruct (setState_not_closed 0 _ DOWN connected Hf Hne)
    as (Hclients & _ & Hpeer & _ & Hstate).
  split_and!; [exact Hf|exact Hne| |exact (Hpeer 0)|exact Hclients].
  rewrite (Hstate 0). reflexivity.
Defined.

Lemma client_destroy_spec_witness :
  world_wf connected
  ∧ clients (client_destroy 0 connected) !! 0 = None
  ∧ peer_of (client_destroy 0 connected) 0 ≠ Some (Some 0).
Proof.
  destruct (client_destroy_spec 0 connected sample_connected_wf)
    as (Hgone & Hpeer & _).
  split_and!; [exact sample_connected_wf|exact Hgone|exact (Hpeer 0)].
Defined.

End SampleTransportMore.

Section SampleStreamMore.
Import SampleStream.

Lemma sample_fromBuffer_ok : fromBuffer_decodes_prefix fromBuffer.
Proof.
  intros buffer element. unfold fromBuffer.
  destruct buffer as [|t [|l value]]; [done|done|].
  cbv zeta. destruct (Nat.leb_spec (N.to_nat (Byte.to_N l)) (length value));
    [|done].
  intros [= <-]. split; [done|].
  exists (drop (N.to_nat (Byte.to_N l)) value). simpl.
  by rewrite take_drop.
Qed.

Lemma handleAsyncReceive_spec_witness :
  fromBuffer_decodes_prefix fromBuffer
  ∧ 0 < MAX_NDN_PACKET_SIZE
  ∧ m_inputBufferSize state0 + length (element1 ++ [Byte.x06; Byte.x02])
    ≤ MAX_NDN_PACKET_SIZE
  ∧ ∃ elements rest,
      element1 ++ [Byte.x06; Byte.x02] = concat elements ++ rest
      ∧ decoded_from fromBuffer elements (element1 ++ [Byte.x06; Byte.x02])
      ∧ (rest = [] ∨ fromBuffer rest = None)
      ∧ handleAsyncReceive fromBuffer MAX_NDN_PACKET_SIZE ec_success
          (element1 ++ [Byte.x06; Byte.x02]) state0
        = Some (receive_again (mkStreamTransportImpl rest elements)).
Proof.
  assert (0 < MAX_NDN_PACKET_SIZE) as Hmax by (unfold MAX_NDN_PACKET_SIZE; lia).
  assert (m_inputBufferSize state0 + length (element1 ++ [Byte.x06; Byte.x02])
          ≤ MAX_NDN_PACKET_SIZE) as Hroom by (vm_compute; lia).
  split_and!; [exact sample_fromBuffer_ok|exact Hmax|exact Hroom|].
  destruct (handleAsyncReceive_spec fromBuffer MAX_NDN_PACKET_SIZE
              sample_fromBuffer_ok (element1 ++ [Byte.x06; Byte.x02]) state0
              Hmax Hroom)
    as (elements & rest & Hsplit & Hdec & Hrest & _ & Hagain).
  exists elements, rest.
  split_and!; [exact Hsplit|exact Hdec|exact Hrest|].
  apply Hagain. intros [Hstuck _]. discriminate Hstuck.
Defined.

Lemma receive_run_spec_witness :
  fromBuffer_decodes_prefix fromBuffer
  ∧ m_inputBufferSize state0 ≤ MAX_NDN_PACKET_SIZE
  ∧ ∃ o stream',
      receive_run fromBuffer MAX_NDN_PACKET_SIZE [2; 3; 9]
        (element1 ++ element2 ++ [Byte.x07]) state0 = Some (o, stream')
      ∧ concat (receiveCallback (outcome_state o)) ++ m_inputBuffer (outcome_state o)
          ++ stream'
        = element1 ++ element2 ++ [Byte.x07].
Proof.
  assert (m_inputBufferSize state0 ≤ MAX_NDN_PACKET_SIZE) as Hsize
    by (vm_compute; lia).
  split_and!; [exact sample_fromBuffer_ok|exact Hsize|].
  destruct (receive_run_spec fromBuffer MAX_NDN_PACKET_SIZE sample_fromBuffer_ok
              [2; 3; 9] (element1 ++ element2 ++ [Byte.x07]) state0 Hsize)
    as (o & stream' & Hrun & _ & Hcat & _).
  exists o, stream'. split; [exact Hrun|exact Hcat].
Defined.

End SampleStreamMore.

Section SampleStatusMore.
Import SampleFw SampleStatus.

Lemma collectGeneralStatus_totals_witness :
  ETRI_NFD_ORG_ARCH build_plain = false
  ∧ getNFibEntries (collectGeneralStatus build_plain main [worker0; worker1])
    = 16%N
  ∧ getNPitEntries (collectGeneralStatus build_plain main [worker0; worker1])
    = 15%N.
Proof.
  destruct (collectGeneralStatus_totals build_plain main [worker0; worker1] eq_refl)
    as (Hfib & _ & Hpit & _).
  split_and!; [reflexivity|rewrite Hfib; reflexivity|rewrite Hpit; reflexivity].
Defined.

Lemma formatCsJson_totals_witness :
  capacity (formatCsJson main [worker0; worker1]) = 2000%N
  ∧ formatCsJson main [] = mkCsJson 0 1 0 0.
Proof.
  destruct (formatCsJson_totals main [worker0; worker1]) as (Hcap & _).
  destruct (formatCsJson_totals main []) as (_ & _ & _ & _ & _ & Hnone).
  split; [rewrite Hcap; reflexivity|].
  rewrite (Hnone eq_refl). reflexivity.
Defined.

Lemma Policy_create_spec_witness :
  Policy_create ({[ "lru"%string := λ _ : unit, 1 ]} : PolicyRegistry) "lru" = Some 1
  ∧ Policy_create ({[ "lru"%string := λ _ : unit, 1 ]} : PolicyRegistry) "fifo"
    = None.
Proof.
  destruct (Policy_create_spec
              ({[ "lru"%string := λ _ : unit, 1 ]} : PolicyRegistry) "lru")
    as [_ Hsome].
  destruct (Policy_create_spec
              ({[ "lru"%string := λ _ : unit, 1 ]} : PolicyRegistry) "fifo")
    as [Hnone _].
  split.
  - apply (Hsome (λ _, 1)). reflexivity.
  - apply Hnone. unfold getPolicyNames, PolicyRegistry. intros Hin.
    apply elem_of_dom in Hin as [ctor Hctor].
    by rewrite lookup_singleton_ne in Hctor.
Defined.

End SampleStatusMore.
